(** * Snooker Score Board: the match-state store and its undo log

    A shallow embedding of the state logic of [src/index.tsx] (the [App]
    component and the name editor of [PlayerPanel]), followed by the
    properties of its operations.

    Modelling conventions.
    - JavaScript numbers that the component handles are integers (ids,
      scores, breaks, ranks, indices); they are modelled as [Z].  The code
      computes with double-precision numbers, which agree with [Z] as long
      as operands and results lie strictly between -2^53 and 2^53
      ([safe_integer]); the properties that give the exact value of a sum
      assume so.
    - A JavaScript string is a sequence of UTF-16 code units: [list N].
    - [number | null] is [option Z].
    - Reading a property of [undefined] throws a [TypeError]; a state updater
      that throws is modelled as returning [None].
    - [history] is an array that grows at its end; it is a list in the same
      order (oldest first).
    - The [setTimeout] callback of [handlePot] is a closure: it owns the
      [points] of the click and the [saveToHistory] of the render in which
      the click happened, hence the [gameState] of that render.  Pending
      callbacks are kept in the application state. *)

From Stdlib Require Import ZArith NArith List Bool Lia String Ascii DecimalString.
From Stdlib Require Import Sorted Permutation.
Import ListNotations.
Open Scope Z_scope.

(** ** JavaScript values *)

Module JS.

Definition jsstring := list N.

(** ECMAScript WhiteSpace and LineTerminator code points, the ones
    [String.prototype.trim] strips. *)
Definition is_whitespace (c : N) : bool :=
  ((c =? 9) || (c =? 10) || (c =? 11) || (c =? 12) || (c =? 13) || (c =? 32)
   || (c =? 160) || (c =? 5760) || ((8192 <=? c) && (c <=? 8202))
   || (c =? 8232) || (c =? 8233) || (c =? 8239) || (c =? 8287)
   || (c =? 12288) || (c =? 65279))%N.

Fixpoint trimStart (s : jsstring) : jsstring :=
  match s with
  | [] => []
  | c :: r => if is_whitespace c then trimStart r else s
  end.

Definition trimEnd (s : jsstring) : jsstring := rev (trimStart (rev s)).

Definition trim (s : jsstring) : jsstring := trimEnd (trimStart s).

(** Truthiness of a string: the empty string is the only falsy one. *)
Definition truthy (s : jsstring) : bool :=
  match s with [] => false | _ :: _ => true end.

Definition of_string (s : string) : jsstring :=
  map N_of_ascii (list_ascii_of_string s).

(** [`${n}`] for an integer [n]. *)
Definition number_toString (n : Z) : jsstring :=
  of_string (NilZero.string_of_int (Z.to_int n)).

(** [l.length] *)
Definition length {A} (l : list A) : Z := Z.of_nat (List.length l).

(** [l[i]]: [undefined] outside the array. *)
Definition at_index {A} (l : list A) (i : Z) : option A :=
  if i <? 0 then None else nth_error l (Z.to_nat i).

Fixpoint findIndex_from {A} (f : A -> bool) (l : list A) (i : Z) : Z :=
  match l with
  | [] => -1
  | x :: r => if f x then i else findIndex_from f r (i + 1)
  end.

(** [l.findIndex(f)]: -1 when no element satisfies [f]. *)
Definition findIndex {A} (f : A -> bool) (l : list A) : Z :=
  findIndex_from f l 0.

(** [a % b] on integers: the sign follows the dividend; [NaN] (here [None])
    when [b] is 0. *)
Definition rem (a b : Z) : option Z :=
  if b =? 0 then None else Some (Z.rem a b).

(** [Math.max(x, ...xs)] on a non-empty argument list. *)
Definition Math_max (x : Z) (xs : list Z) : Z := fold_left Z.max xs x.

(** [a || b] on [number | null]: [null] and [0] are falsy. *)
Definition logical_or (a b : option Z) : option Z :=
  match a with
  | Some r => if r =? 0 then b else a
  | None => b
  end.

(** [l.slice(0, -1)] *)
Definition slice_0_m1 {A} (l : list A) : list A := removelast l.

End JS.

Import JS.

(** ** Data model *)

Record Player := mkPlayer {
  id : Z;
  name : jsstring;
  score : Z;
  break : Z;
  rank : option Z
}.

Record GameState := mkGameState {
  players : list Player;
  currentPlayerId : Z
}.

(** What a pending [setTimeout] callback of [handlePot] has captured. *)
Record PotTimer := mkPotTimer {
  points : Z;
  saved : GameState
}.

(** The state of [App] that the handlers read and write: [gameState],
    [history], and the callbacks scheduled by [handlePot] that have not run
    yet (all with the same delay, so they run in the order of the clicks). *)
Record App := mkApp {
  gameState : GameState;
  history : list GameState;
  pending : list PotTimer
}.

Definition initialPlayer1 : Player :=
  mkPlayer 1 (of_string "Player 1") 0 0 None.
Definition initialPlayer2 : Player :=
  mkPlayer 2 (of_string "Player 2") 0 0 None.

Definition initialGameState : GameState :=
  mkGameState [initialPlayer1; initialPlayer2] 1.

Definition initialApp : App := mkApp initialGameState [] [].

(** [{ ...p, field: v }] *)
Definition with_name (v : jsstring) (p : Player) : Player :=
  mkPlayer (id p) v (score p) (break p) (rank p).
Definition with_score (v : Z) (p : Player) : Player :=
  mkPlayer (id p) (name p) v (break p) (rank p).
Definition with_break (v : Z) (p : Player) : Player :=
  mkPlayer (id p) (name p) (score p) v (rank p).

Definition is_current (prev : GameState) (p : Player) : bool :=
  id p =? currentPlayerId prev.

(** [prev.players.map(p => p.rank).filter(r => r !== null)] *)
Fixpoint non_null (rs : list (option Z)) : list Z :=
  match rs with
  | [] => []
  | Some r :: rest => r :: non_null rest
  | None :: rest => non_null rest
  end.

Definition existingRanks (prev : GameState) : list Z :=
  non_null (map rank (players prev)).

(** ** State updaters: the functions passed to [setGameState] *)

(** [handlePot], the updater inside the timer callback: the value of
    [newRankForPlayer] once the [if] has run. *)
Definition newRankForPlayer (points : Z) (prev : GameState)
           (currentPlayer : Player) : option Z :=
  let newBreak := break currentPlayer + points in
  if (100 <=? newBreak)
     && (match rank currentPlayer with None => true | Some _ => false end)
  then match existingRanks prev with
       | [] => Some 1
       | r :: rs => Some (Math_max r rs + 1)
       end
  else None.

(** [handlePot], the updater inside the timer callback.  The sums
    [score + points] and [break + points], and [Math.max(...) + 1] above,
    are those of the code when they are exact ([exact_sum] below). *)
Definition potUpdater (points : Z) (prev : GameState) : GameState :=
  match find (is_current prev) (players prev) with
  | None => prev
  | Some currentPlayer =>
      let newBreak := break currentPlayer + points in
      let updatedPlayers :=
        map (fun p =>
               if is_current prev p
               then mkPlayer (id p) (name p) (score p + points) newBreak
                             (logical_or (rank p)
                                    (newRankForPlayer points prev currentPlayer))
               else p)
            (players prev) in
      mkGameState updatedPlayers (currentPlayerId prev)
  end.

(** [handleFoul].  The sum [score + foulValue] is that of the code when it
    is exact ([exact_sum] below). *)
Definition foulUpdater (foulValue : Z) (prev : GameState) : option GameState :=
  let currentPlayerIndex := findIndex (is_current prev) (players prev) in
  match JS.rem (currentPlayerIndex + 1) (JS.length (players prev)) with
  | None => None
  | Some nextPlayerIndex =>
      match at_index (players prev) nextPlayerIndex with
      | None => None
      | Some nextPlayer =>
          let nextPlayerId := id nextPlayer in
          let updatedPlayers :=
            map (fun p =>
                   if id p =? nextPlayerId
                   then with_score (score p + foulValue) p
                   else if is_current prev p
                        then with_break 0 p
                        else p)
                (players prev) in
          Some (mkGameState updatedPlayers (currentPlayerId prev))
      end
  end.

(** [handlePlayerSelect] *)
Definition selectUpdater (selectedPlayerId : Z) (prev : GameState) : GameState :=
  let playersWithResetBreak :=
    map (fun p => if is_current prev p then with_break 0 p else p)
        (players prev) in
  mkGameState playersWithResetBreak selectedPlayerId.

(** [handleNewGame] *)
Definition newGameUpdater (prev : GameState) : GameState :=
  let resetPlayers :=
    map (fun p => mkPlayer (id p) (name p) 0 0 None) (players prev) in
  mkGameState resetPlayers
    (match players prev with
     | p0 :: _ => id p0
     | [] => 1
     end).

(** [handleAddPlayer].  The sum [Math.max(...) + 1] is that of the code
    when it is exact ([exact_ids] below); from 2^53 on the code would
    compute the largest id again. *)
Definition addUpdater (prev : GameState) : GameState :=
  let newId :=
    match map id (players prev) with
    | i :: rest => Math_max i rest + 1
    | [] => 1
    end in
  let newPlayer :=
    mkPlayer newId (of_string "Player " ++ number_toString newId) 0 0 None in
  mkGameState (players prev ++ [newPlayer]) (currentPlayerId prev).

(** [handleRemovePlayer] *)
Definition removeUpdater (idToRemove : Z) (prev : GameState) : option GameState :=
  let playerToRemoveIndex :=
    findIndex (fun p => id p =? idToRemove) (players prev) in
  let newPlayers :=
    filter (fun p => negb (id p =? idToRemove)) (players prev) in
  if currentPlayerId prev =? idToRemove
  then
    match JS.rem playerToRemoveIndex (JS.length newPlayers) with
    | None => None
    | Some nextPlayerIndex =>
        match at_index newPlayers nextPlayerIndex with
        | None => None
        | Some q => Some (mkGameState newPlayers (id q))
        end
    end
  else Some (mkGameState newPlayers (currentPlayerId prev)).

(** [handleNameChange] *)
Definition renameUpdater (i : Z) (newName : jsstring) (prev : GameState)
  : GameState :=
  mkGameState
    (map (fun p => if id p =? i then with_name newName p else p) (players prev))
    (currentPlayerId prev).

(** ** Event handlers of [App] *)

(** [saveToHistory], for the [gameState] the closure was created with. *)
Definition saveToHistory (snapshot : GameState) (h : list GameState)
  : list GameState :=
  h ++ [snapshot].

(** [handlePot], the synchronous part: without an active player panel in the
    document nothing is scheduled. *)
Definition handlePot (pts : Z) (a : App) : App :=
  if existsb (is_current (gameState a)) (players (gameState a))
  then mkApp (gameState a) (history a)
             (pending a ++ [mkPotTimer pts (gameState a)])
  else a.

(** [handlePot], the timer callback [t] when it runs in state [a]. *)
Definition potTimeout (t : PotTimer) (a : App) : App :=
  mkApp (potUpdater (points t) (gameState a))
        (saveToHistory (saved t) (history a))
        (pending a).

(** The oldest pending callback runs. *)
Definition timerFires (a : App) : App :=
  match pending a with
  | [] => a
  | t :: rest => potTimeout t (mkApp (gameState a) (history a) rest)
  end.

Definition handleFoul (foulValue : Z) (a : App) : option App :=
  match foulUpdater foulValue (gameState a) with
  | None => None
  | Some g =>
      Some (mkApp g (saveToHistory (gameState a) (history a)) (pending a))
  end.

Definition handlePlayerSelect (selectedPlayerId : Z) (a : App) : App :=
  if selectedPlayerId =? currentPlayerId (gameState a)
  then a
  else mkApp (selectUpdater selectedPlayerId (gameState a))
             (saveToHistory (gameState a) (history a))
             (pending a).

Definition handleUndo (a : App) : App :=
  if 0 <? JS.length (history a)
  then match at_index (history a) (JS.length (history a) - 1) with
       | Some lastState =>
           mkApp lastState (slice_0_m1 (history a)) (pending a)
       | None => a
       end
  else a.

Definition handleNewGame (a : App) : App :=
  mkApp (newGameUpdater (gameState a)) [] (pending a).

Definition handleAddPlayer (a : App) : App :=
  if 8 <=? JS.length (players (gameState a))
  then a
  else mkApp (addUpdater (gameState a))
             (saveToHistory (gameState a) (history a))
             (pending a).

Definition handleRemovePlayer (idToRemove : Z) (a : App) : option App :=
  if JS.length (players (gameState a)) <=? 2
  then Some a
  else match removeUpdater idToRemove (gameState a) with
       | None => None
       | Some g =>
           Some (mkApp g (saveToHistory (gameState a) (history a)) (pending a))
       end.

Definition handleNameChange (i : Z) (newName : jsstring) (a : App) : App :=
  mkApp (renameUpdater i newName (gameState a))
        (saveToHistory (gameState a) (history a))
        (pending a).

(** [PlayerPanel.handleNameUpdate] of the panel of player [i] whose input
    holds [name]; a blank input only resets the input field. *)
Definition handleNameUpdate (i : Z) (name : jsstring) (a : App) : App :=
  if truthy (trim name)
  then handleNameChange i (trim name) a
  else a.

(** ** Events of the running component *)

Inductive event :=
| PotClick (pts : Z)
| PotTimerFires
| FoulClick (foulValue : Z)
| PanelClick (selectedPlayerId : Z)
| UndoClick
| NewGameClick
| AddPlayerClick
| RemoveClick (idToRemove : Z)
| NameInputDone (i : Z) (name : jsstring).

(** One event; [None] when a state updater throws. *)
Definition step (e : event) (a : App) : option App :=
  match e with
  | PotClick pts => Some (handlePot pts a)
  | PotTimerFires => Some (timerFires a)
  | FoulClick v => handleFoul v a
  | PanelClick i => Some (handlePlayerSelect i a)
  | UndoClick => Some (handleUndo a)
  | NewGameClick => Some (handleNewGame a)
  | AddPlayerClick => Some (handleAddPlayer a)
  | RemoveClick i => handleRemovePlayer i a
  | NameInputDone i s => Some (handleNameUpdate i s a)
  end.

Fixpoint run (es : list event) (a : App) : option App :=
  match es with
  | [] => Some a
  | e :: rest =>
      match step e a with
      | Some a' => run rest a'
      | None => None
      end
  end.

(** ** The operations of the match-state store

    Each operation is the run of its events ([events_of] below): one handler
    for every operation but [applyPot], which is a click on a ball followed
    by the timer callback that is due next.  When no callback is pending at
    the click, that is the callback of the click itself, and it saves the
    state it updates; properties of [applyPot] are stated for such
    states. *)

Inductive operation :=
| applyPot (pts : Z)
| applyFoul (penaltyValue : Z)
| selectPlayer (i : Z)
| addPlayer
| removePlayer (i : Z)
| renamePlayer (i : Z) (newName : jsstring)
| newGame
| undo.

Definition exec (op : operation) (a : App) : option App :=
  match op with
  | applyPot pts => Some (timerFires (handlePot pts a))
  | applyFoul v => handleFoul v a
  | selectPlayer i => Some (handlePlayerSelect i a)
  | addPlayer => Some (handleAddPlayer a)
  | removePlayer i => handleRemovePlayer i a
  | renamePlayer i s => Some (handleNameUpdate i s a)
  | newGame => Some (handleNewGame a)
  | undo => Some (handleUndo a)
  end.

Fixpoint exec_all (ops : list operation) (a : App) : option App :=
  match ops with
  | [] => Some a
  | op :: rest =>
      match exec op a with
      | Some a' => exec_all rest a'
      | None => None
      end
  end.

(** The events that make up an operation. *)
Definition events_of (op : operation) : list event :=
  match op with
  | applyPot pts => [PotClick pts; PotTimerFires]
  | applyFoul v => [FoulClick v]
  | selectPlayer i => [PanelClick i]
  | addPlayer => [AddPlayerClick]
  | removePlayer i => [RemoveClick i]
  | renamePlayer i s => [NameInputDone i s]
  | newGame => [NewGameClick]
  | undo => [UndoClick]
  end.

(** An operation is rejected when its handler returns before saving
    anything: the guards of the handlers. *)
Definition rejected (op : operation) (a : App) : bool :=
  match op with
  | applyPot _ => negb (existsb (is_current (gameState a)) (players (gameState a)))
  | applyFoul _ => false
  | selectPlayer i => i =? currentPlayerId (gameState a)
  | addPlayer => 8 <=? JS.length (players (gameState a))
  | removePlayer _ => JS.length (players (gameState a)) <=? 2
  | renamePlayer _ s => negb (truthy (trim s))
  | newGame => false
  | undo => negb (0 <? JS.length (history a))
  end.

Definition recorded (op : operation) : bool :=
  match op with
  | newGame | undo => false
  | _ => true
  end.

(** ** Vocabulary of the properties *)

(** The list [l] with [f] applied to the element at position [k] only. *)
Fixpoint update_at {A} (k : nat) (f : A -> A) (l : list A) : list A :=
  match l, k with
  | [], _ => []
  | x :: r, O => f x :: r
  | x :: r, S k' => x :: update_at k' f r
  end.

(** The list [l] without the element at position [k]. *)
Definition remove_at {A} (k : nat) (l : list A) : list A :=
  firstn k l ++ skipn (S k) l.

Definition ids (g : GameState) : list Z := map id (players g).

(** Some player of [g] has [r] in its [rank] field. *)
Definition holds_rank (g : GameState) (r : Z) : Prop :=
  exists p, In p (players g) /\ rank p = Some r.

(** [r] is one more than the largest rank some player holds, or 1 when no
    player holds a rank. *)
Definition next_rank (g : GameState) (r : Z) : Prop :=
  ((forall r', ~ holds_rank g r') /\ r = 1) \/
  (holds_rank g (r - 1) /\ forall r', holds_rank g r' -> r' <= r - 1).



(** [c] holds at position [k] of [l] and nowhere else. *)
Definition only_at {A} (c : A -> bool) (l : list A) (k : nat) : Prop :=
  forall j q, nth_error l j = Some q -> (c q = true <-> j = k).

(** [{ ...p, score: p.score + v }] *)
Definition add_score (v : Z) (p : Player) : Player :=
  with_score (score p + v) p.

(** ** Exact arithmetic *)

(** The integers that a JavaScript number holds and adds exactly, those that
    [Number.isSafeInteger] accepts: strictly between -2^53 and 2^53. *)
Definition safe_integer (z : Z) : Prop :=
  - 9007199254740992 < z < 9007199254740992.

(** [x + v] is computed without rounding: [+] on [Z] is the [+] of the
    code. *)
Definition exact_sum (x v : Z) : Prop :=
  safe_integer x /\ safe_integer v /\ safe_integer (x + v).

(** Adding the values of [vs] to [x], one after the other, is exact at
    every step. *)
Fixpoint exact_sums (x : Z) (vs : list Z) : Prop :=
  match vs with
  | [] => True
  | v :: rest => exact_sum x v /\ exact_sums (x + v) rest
  end.

(** One more than any rank held in [g] is computed exactly. *)
Definition exact_ranks (g : GameState) : Prop :=
  forall p r, In p (players g) -> rank p = Some r -> exact_sum r 1.

(** One more than any id of [g] is computed exactly. *)
Definition exact_ids (g : GameState) : Prop :=
  forall p, In p (players g) -> exact_sum (id p) 1.

(** ** State changes and invariants *)

(** The state changes a handler can ask [setGameState] for. *)
Inductive mutation :=
| MPot (pts : Z)
| MFoul (foulValue : Z)
| MSelect (selectedPlayerId : Z)
| MNewGame
| MAdd
| MRemove (idToRemove : Z)
| MRename (i : Z) (newName : jsstring).

(** [transition m g g']: a handler that got past its guard in game state [g]
    replaces it by [g']. *)
Inductive transition : mutation -> GameState -> GameState -> Prop :=
| T_pot pts g :
    transition (MPot pts) g (potUpdater pts g)
| T_foul v g g' :
    foulUpdater v g = Some g' -> transition (MFoul v) g g'
| T_select i g :
    i <> currentPlayerId g -> transition (MSelect i) g (selectUpdater i g)
| T_newGame g :
    transition MNewGame g (newGameUpdater g)
| T_add g :
    JS.length (players g) < 8 -> transition MAdd g (addUpdater g)
| T_remove i g g' :
    2 < JS.length (players g) -> removeUpdater i g = Some g' ->
    transition (MRemove i) g g'
| T_rename i s g :
    transition (MRename i s) g (renameUpdater i s g).

(** The state change an event asks for, when it asks for one. *)
Definition mutation_of (e : event) (a : App) : option mutation :=
  match e with
  | PotClick _ => None
  | PotTimerFires =>
      match pending a with
      | t :: _ => Some (MPot (points t))
      | [] => None
      end
  | FoulClick v => Some (MFoul v)
  | PanelClick i => Some (MSelect i)
  | UndoClick => None
  | NewGameClick => Some MNewGame
  | AddPlayerClick => Some MAdd
  | RemoveClick i => Some (MRemove i)
  | NameInputDone i s => Some (MRename i (trim s))
  end.

Definition op_mutation (op : operation) : option mutation :=
  match op with
  | applyPot pts => Some (MPot pts)
  | applyFoul v => Some (MFoul v)
  | selectPlayer i => Some (MSelect i)
  | addPlayer => Some MAdd
  | removePlayer i => Some (MRemove i)
  | renamePlayer i s => Some (MRename i (trim s))
  | newGame => Some MNewGame
  | undo => None
  end.

(** [P] holds of every game state the application holds on to: the current
    one, the saved ones, and the ones captured by pending timer callbacks. *)
Definition app_all (P : GameState -> Prop) (a : App) : Prop :=
  P (gameState a) /\ Forall P (history a)
  /\ Forall (fun t => P (saved t)) (pending a).

(** No two players hold the same rank. *)
Definition distinct_ranks (ps : list Player) : Prop :=
  forall i j p q r,
    nth_error ps i = Some p -> nth_error ps j = Some q ->
    rank p = Some r -> rank q = Some r -> i = j.

Definition positive_ranks (ps : list Player) : Prop :=
  forall p r, In p ps -> rank p = Some r -> 1 <= r.

Record wf_state (g : GameState) : Prop := mk_wf {
  wf_ids : NoDup (ids g);
  wf_count : 2 <= JS.length (players g) <= 8;
  wf_distinct : distinct_ranks (players g);
  wf_positive : positive_ranks (players g)
}.

(** The current player exists. *)
Definition resolves (g : GameState) : Prop :=
  In (currentPlayerId g) (ids g).

(** Every player of [g] that holds a rank and is still present in [g']
    holds the same rank there. *)
Definition ranks_kept (g g' : GameState) : Prop :=
  forall p q r,
    In p (players g) -> In q (players g') -> id q = id p ->
    rank p = Some r -> rank q = Some r.

(** What the panels of the rendered component can ask for: a click on a
    panel, on its remove button or in its name field concerns a player that
    exists. *)
Definition from_panel (m : mutation) (g : GameState) : Prop :=
  match m with
  | MSelect i | MRemove i | MRename i _ => In i (ids g)
  | _ => True
  end.


Definition any_mutation (m : mutation) (g : GameState) : Prop := True.

Definition event_ok (ok : mutation -> GameState -> Prop) (e : event) (a : App)
  : Prop :=
  forall m, mutation_of e a = Some m -> ok m (gameState a).

Fixpoint trace_ok (ok : mutation -> GameState -> Prop) (es : list event)
         (a : App) : Prop :=
  match es with
  | [] => True
  | e :: rest =>
      event_ok ok e a /\ forall a', step e a = Some a' -> trace_ok ok rest a'
  end.

Definition op_ok (ok : mutation -> GameState -> Prop) (op : operation) (a : App)
  : Prop :=
  forall m, op_mutation op = Some m -> ok m (gameState a).

Fixpoint ops_ok (ok : mutation -> GameState -> Prop) (ops : list operation)
         (a : App) : Prop :=
  match ops with
  | [] => True
  | op :: rest =>
      op_ok ok op a /\ forall a', exec op a = Some a' -> ops_ok ok rest a'
  end.

(** What an updater that maps over the players may do to a rank: keep it,
    clear it, or give the rankless current player the next rank. *)
Definition rank_step (g : GameState) (p p' : Player) : Prop :=
  rank p' = rank p \/ rank p' = None \/
  (id p = currentPlayerId g /\ rank p = None /\
   exists r, rank p' = Some r /\ next_rank g r).

(** A well-formed state whose current player exists. *)
Definition live (g : GameState) : Prop := wf_state g /\ resolves g.





(** After [ops1], [removePlayer x] takes the player with id [x] out; after
    [ops2] more, with [x] still absent, [addPlayer] creates a player with
    id [x]. *)
Definition id_reused (ops1 ops2 : list operation) (x : Z) : Prop :=
  exists a1 a2 a3 a4,
    exec_all ops1 initialApp = Some a1 /\ In x (ids (gameState a1)) /\
    exec (removePlayer x) a1 = Some a2 /\ ~ In x (ids (gameState a2)) /\
    exec_all ops2 a2 = Some a3 /\ ~ In x (ids (gameState a3)) /\
    exec addPlayer a3 = Some a4 /\ In x (ids (gameState a4)).



(** ** Some states of the scenarios *)

Definition state_after (ops : list operation) : App :=
  match exec_all ops initialApp with
  | Some a => a
  | None => initialApp
  end.

(** Player 1 has potted 4, 4, 4, 4. *)
Definition after_four_pots : App :=
  Eval vm_compute in
    state_after [applyPot 4; applyPot 4; applyPot 4; applyPot 4].

(** Player 1 has potted fourteen blacks: a break of 98. *)
Definition at_98 : App :=
  Eval vm_compute in state_after (repeat (applyPot 7) 14).

(** Player 1 has made a century and holds rank 1; player 2 is at the table
    with a break of 98. *)
Definition second_at_98 : App :=
  Eval vm_compute in
    state_after (repeat (applyPot 7) 15 ++ [selectPlayer 2]
                 ++ repeat (applyPot 7) 14).


(** Three players, the third one at the table. *)
Definition third_player_active : App :=
  Eval vm_compute in state_after [addPlayer; selectPlayer 3].

(** ** Vocabulary of the further properties *)

(** Every operation of [ops], run in turn from [a], is one of the recorded
    ones and gets past its guard. *)
Fixpoint all_carried_out (ops : list operation) (a : App) : Prop :=
  match ops with
  | [] => True
  | op :: rest =>
      recorded op = true /\ rejected op a = false /\
      forall a', exec op a = Some a' -> all_carried_out rest a'
  end.

Definition sumZ (l : list Z) : Z := fold_right Z.add 0 l.

(** The points on the board. *)
Definition total_score (g : GameState) : Z := sumZ (map score (players g)).

(** The points an operation awards. *)
Definition points_of (op : operation) : Z :=
  match op with
  | applyPot pts => pts
  | applyFoul v => v
  | _ => 0
  end.

(** Operations that keep every player and every point: no removal, no new
    game, no undo. *)
Definition keeps_points (op : operation) : Prop :=
  match op with
  | removePlayer _ | newGame | undo => False
  | _ => True
  end.

(** The current player [cur] of [g] after a pot of [pts]. *)
Definition after_pot (pts : Z) (g : GameState) (cur : Player) : Player :=
  mkPlayer (id cur) (name cur) (score cur + pts) (break cur + pts)
           (logical_or (rank cur) (newRankForPlayer pts g cur)).

(** [Q] holds of every player of [g]. *)
Definition all_players (Q : Player -> Prop) (g : GameState) : Prop :=
  forall p, In p (players g) -> Q p.

(** A break is never negative and never more than the score, and a ranked
    player has at least 100 points. *)
Definition sound_player (p : Player) : Prop :=
  0 <= break p <= score p /\ (rank p <> None -> 100 <= score p).

(** A break of 100 or more comes with a rank. *)
Definition century_has_rank (p : Player) : Prop :=
  100 <= break p -> rank p <> None.

(** The name is not empty and has no white space at either end. *)
Definition named (p : Player) : Prop :=
  name p <> [] /\ trim (name p) = name p.

(** Only the player at the table has a running break. *)
Definition idle_breaks (g : GameState) : Prop :=
  forall p, In p (players g) -> id p <> currentPlayerId g -> break p = 0.

Definition sound (g : GameState) : Prop :=
  wf_state g /\ all_players sound_player g.

Definition centuries_ranked (g : GameState) : Prop :=
  wf_state g /\ all_players century_has_rank g.

(** The points of [ops] are added exactly, whoever gets them: no value and
    no score is negative and the total they add up to is a safe integer;
    and the ids that [ops] can create are computed exactly. *)
Definition exact_points (ops : list operation) (g : GameState) : Prop :=
  Forall (fun op => 0 <= points_of op) ops /\
  all_players (fun p => 0 <= score p) g /\
  safe_integer (total_score g + sumZ (map points_of ops)) /\
  all_players (fun p => exact_sum (id p) (Z.of_nat (List.length ops))) g.

Definition nonneg_values (m : mutation) (g : GameState) : Prop :=
  match m with
  | MPot v | MFoul v => 0 <= v
  | _ => True
  end.

Definition nonneg_event (e : event) : Prop :=
  match e with
  | PotClick v | FoulClick v => 0 <= v
  | _ => True
  end.

Definition trimmed_names (m : mutation) (g : GameState) : Prop :=
  match m with
  | MRename _ s => s <> [] /\ trim s = s
  | _ => True
  end.

(** Three players, and a current id that nobody has. *)
Definition three_players_no_current : App :=
  Eval vm_compute in state_after [addPlayer; selectPlayer 99].

(** Player 1 has potted a 4; then an id that nobody has was selected. *)
Definition two_players_no_current : App :=
  Eval vm_compute in state_after [applyPot 4; selectPlayer 99].

(** ** The stopwatch *)

(** The state of the [Stopwatch] component. *)
Record Stopwatch := mkStopwatch {
  time : Z;
  isRunning : bool
}.

Definition initialStopwatch : Stopwatch := mkStopwatch 0 false.

(** The interval callback [setTime(prevTime => prevTime + 1)]; the interval
    exists only while [isRunning]. *)
Definition intervalTick (w : Stopwatch) : Stopwatch :=
  if isRunning w then mkStopwatch (time w + 1) (isRunning w) else w.

(** The Start/Pause button. *)
Definition startPauseClicked (w : Stopwatch) : Stopwatch :=
  mkStopwatch (time w) (negb (isRunning w)).

(** The Reset button. *)
Definition stopwatchResetClicked (w : Stopwatch) : Stopwatch :=
  mkStopwatch 0 false.

(** The effect that runs when the [resetTrigger] prop has changed. *)
Definition resetTriggerEffect (resetTrigger : Z) (w : Stopwatch) : Stopwatch :=
  if 0 <? resetTrigger then mkStopwatch 0 false else w.

(** [s.padStart(2, '0')] *)
Definition padStart2 (s : jsstring) : jsstring :=
  repeat 48%N (2 - List.length s) ++ s.

(** [formatTime], for a whole number of seconds. *)
Definition formatTime (timeInSeconds : Z) : jsstring :=
  let minutes := padStart2 (number_toString (timeInSeconds / 60)) in
  let seconds := padStart2 (number_toString (Z.rem timeInSeconds 60)) in
  minutes ++ of_string ":" ++ seconds.

(** The code unit of the decimal digit [d]. *)
Definition digit (d : Z) : N := (48 + Z.to_N d)%N.

(** ** The balls *)

Record Ball := mkBall {
  color : jsstring;
  value : Z;
  emoji : jsstring
}.

(** The emojis, as UTF-16 code units. *)
Definition red_circle : jsstring := [55357; 56628]%N.
Definition yellow_circle : jsstring := [55357; 57313]%N.
Definition green_circle : jsstring := [55357; 57314]%N.
Definition brown_circle : jsstring := [55357; 57316]%N.
Definition blue_circle : jsstring := [55357; 56629]%N.
Definition purple_circle : jsstring := [55357; 57315]%N.
Definition black_circle : jsstring := [9899]%N.

Definition BALLS : list Ball :=
  [ mkBall (of_string "red") 1 red_circle;
    mkBall (of_string "yellow") 2 yellow_circle;
    mkBall (of_string "green") 3 green_circle;
    mkBall (of_string "brown") 4 brown_circle;
    mkBall (of_string "blue") 5 blue_circle;
    mkBall (of_string "pink") 6 purple_circle;
    mkBall (of_string "black") 7 black_circle ].

(** [{ ...ball, value: Math.max(4, ball.value) }] *)
Definition foul_ball (ball : Ball) : Ball :=
  mkBall (color ball) (Z.max 4 (value ball)) (emoji ball).

(** [l.sort((a, b) => a.value - b.value)]: the sort is stable, so the
    result is the one of a stable insertion sort. *)
Fixpoint insert_by_value (x : Ball) (l : list Ball) : list Ball :=
  match l with
  | [] => [x]
  | y :: r =>
      if value x <=? value y then x :: y :: r else y :: insert_by_value x r
  end.

Fixpoint sort_by_value (l : list Ball) : list Ball :=
  match l with
  | [] => []
  | x :: r => insert_by_value x (sort_by_value r)
  end.

(** The expression that defines [FOUL_BALLS], for any list of balls. *)
Definition foul_balls_of (balls : list Ball) : list Ball :=
  sort_by_value
    (map foul_ball (filter (fun b => 2 <=? value b) balls)
     ++ [mkBall (of_string "red") 10 red_circle]).

Definition FOUL_BALLS : list Ball := foul_balls_of BALLS.

(** ** The rendered component

    What [App] renders decides which handlers can be called at all: the
    ball buttons, Foul, Undo, New Game and Add Player are rendered outside
    foul mode only, the foul values and Cancel in foul mode only; Undo is
    disabled while the history is empty and Add Player while there are 8
    players or more; every player has a panel with a remove button and a
    name field.  The animation of a pot (positions measured in the
    document) is left out. *)

Record UI := mkUI {
  app : App;
  isFoulMode : bool;
  resetStopwatchTrigger : Z;
  stopwatch : Stopwatch;
  (** the messages shown with [alert], oldest first *)
  alerts : list jsstring
}.

Definition initialUI : UI := mkUI initialApp false 0 initialStopwatch [].

Definition max_players_message : jsstring :=
  of_string "Maximum of 8 players reached.".

Definition min_players_message : jsstring :=
  of_string "Cannot have fewer than 2 players.".

(** The [alert] of [handleAddPlayer]. *)
Definition handleAddPlayer_alert (a : App) : list jsstring :=
  if 8 <=? JS.length (players (gameState a))
  then [max_players_message]
  else [].

(** The [alert] of [handleRemovePlayer]. *)
Definition handleRemovePlayer_alert (a : App) : list jsstring :=
  if JS.length (players (gameState a)) <=? 2
  then [min_players_message]
  else [].

(** What can happen to the rendered component: a click on a control, the
    end of a name edit (blur or Enter) with [text] in the field, a pot
    timer or the stopwatch interval coming due.  Balls and panels are
    numbered as they are rendered. *)
Inductive control :=
| BallButton (k : nat)
| FoulButton
| UndoButton
| NewGameButton
| AddPlayerButton
| FoulBallButton (k : nat)
| CancelButton
| PanelArea (k : nat)
| RemoveButton (k : nat)
| NameField (k : nat) (text : jsstring)
| PotTimerDue
| StartPauseButton
| StopwatchResetButton
| IntervalDue.

Inductive outcome :=
| Done (u : UI)
| NotAvailable
| Threw.

Definition with_app (u : UI) (a : App) : UI :=
  mkUI a (isFoulMode u) (resetStopwatchTrigger u) (stopwatch u) (alerts u).

Definition with_stopwatch (u : UI) (w : Stopwatch) : UI :=
  mkUI (app u) (isFoulMode u) (resetStopwatchTrigger u) w (alerts u).

Definition with_foul_mode (u : UI) (b : bool) : UI :=
  mkUI (app u) b (resetStopwatchTrigger u) (stopwatch u) (alerts u).

Definition ui_step (c : control) (u : UI) : outcome :=
  match c with
  | BallButton k =>
      if isFoulMode u then NotAvailable
      else match nth_error BALLS k with
           | Some ball => Done (with_app u (handlePot (value ball) (app u)))
           | None => NotAvailable
           end
  | FoulButton =>
      if isFoulMode u then NotAvailable else Done (with_foul_mode u true)
  | UndoButton =>
      if isFoulMode u || (JS.length (history (app u)) =? 0) then NotAvailable
      else Done (with_app u (handleUndo (app u)))
  | NewGameButton =>
      if isFoulMode u then NotAvailable
      else Done (mkUI (handleNewGame (app u)) (isFoulMode u)
                      (resetStopwatchTrigger u + 1)
                      (resetTriggerEffect (resetStopwatchTrigger u + 1)
                                          (stopwatch u))
                      (alerts u))
  | AddPlayerButton =>
      if isFoulMode u || (8 <=? JS.length (players (gameState (app u))))
      then NotAvailable
      else Done (mkUI (handleAddPlayer (app u)) (isFoulMode u)
                      (resetStopwatchTrigger u) (stopwatch u)
                      (alerts u ++ handleAddPlayer_alert (app u)))
  | FoulBallButton k =>
      if isFoulMode u
      then match nth_error FOUL_BALLS k with
           | Some ball =>
               match handleFoul (value ball) (app u) with
               | Some a' => Done (with_foul_mode (with_app u a') false)
               | None => Threw
               end
           | None => NotAvailable
           end
      else NotAvailable
  | CancelButton =>
      if isFoulMode u then Done (with_foul_mode u false) else NotAvailable
  | PanelArea k =>
      match nth_error (players (gameState (app u))) k with
      | Some player => Done (with_app u (handlePlayerSelect (id player) (app u)))
      | None => NotAvailable
      end
  | RemoveButton k =>
      match nth_error (players (gameState (app u))) k with
      | Some player =>
          match handleRemovePlayer (id player) (app u) with
          | Some a' =>
              Done (mkUI a' (isFoulMode u) (resetStopwatchTrigger u)
                         (stopwatch u)
                         (alerts u ++ handleRemovePlayer_alert (app u)))
          | None => Threw
          end
      | None => NotAvailable
      end
  | NameField k text =>
      match nth_error (players (gameState (app u))) k with
      | Some player =>
          Done (with_app u (handleNameUpdate (id player) text (app u)))
      | None => NotAvailable
      end
  | PotTimerDue =>
      match pending (app u) with
      | [] => NotAvailable
      | _ :: _ => Done (with_app u (timerFires (app u)))
      end
  | StartPauseButton => Done (with_stopwatch u (startPauseClicked (stopwatch u)))
  | StopwatchResetButton =>
      Done (with_stopwatch u (stopwatchResetClicked (stopwatch u)))
  | IntervalDue =>
      if isRunning (stopwatch u)
      then Done (with_stopwatch u (intervalTick (stopwatch u)))
      else NotAvailable
  end.

Fixpoint ui_run (cs : list control) (u : UI) : outcome :=
  match cs with
  | [] => Done u
  | c :: rest =>
      match ui_step c u with
      | Done u' => ui_run rest u'
      | NotAvailable => NotAvailable
      | Threw => Threw
      end
  end.

(** The handler a control calls, as an event of the store. *)
Definition store_event (c : control) (u : UI) : option event :=
  match c with
  | BallButton k => option_map (fun b => PotClick (value b)) (nth_error BALLS k)
  | FoulBallButton k =>
      option_map (fun b => FoulClick (value b)) (nth_error FOUL_BALLS k)
  | UndoButton => Some UndoClick
  | NewGameButton => Some NewGameClick
  | AddPlayerButton => Some AddPlayerClick
  | PanelArea k =>
      option_map (fun p => PanelClick (id p))
                 (nth_error (players (gameState (app u))) k)
  | RemoveButton k =>
      option_map (fun p => RemoveClick (id p))
                 (nth_error (players (gameState (app u))) k)
  | NameField k text =>
      option_map (fun p => NameInputDone (id p) text)
                 (nth_error (players (gameState (app u))) k)
  | PotTimerDue => Some PotTimerFires
  | _ => None
  end.

(** The only message among the alerts is the one of the remove button. *)
Definition quiet (u : UI) : Prop :=
  0 <= resetStopwatchTrigger u /\
  Forall (fun m => m = min_players_message) (alerts u).

(** The stopwatch started two seconds ago, and a red has just been
    clicked. *)
Definition two_seconds_in : UI :=
  Eval vm_compute in
    match ui_run [StartPauseButton; IntervalDue; IntervalDue; BallButton 0]
                 initialUI with
    | Done u => u
    | _ => initialUI
    end.

(** Player 1 has potted 4, 4, 4, 4 and then fouled for 4. *)
Definition after_foul : App :=
  Eval vm_compute in
    state_after [applyPot 4; applyPot 4; applyPot 4; applyPot 4; applyFoul 4].

(** * Auxiliary facts *)

(** ** Facts about arrays *)

Section Arrays.

Context {A : Type}.

Lemma at_index_nat (l : list A) (n : nat) :
  at_index l (Z.of_nat n) = nth_error l n.
Proof.
  unfold at_index.
  destruct (Z.ltb_spec (Z.of_nat n) 0) as [H | H]; [lia |].
  now rewrite Nat2Z.id.
Qed.

Lemma at_index_Some (l : list A) (i : Z) (x : A) :
  at_index l i = Some x -> 0 <= i < JS.length l /\ nth_error l (Z.to_nat i) = Some x.
Proof.
  unfold at_index, JS.length.
  destruct (Z.ltb_spec i 0) as [H | H]; [discriminate |].
  intros E. split; [| exact E].
  assert (Z.to_nat i < List.length l)%nat
    by (apply nth_error_Some; congruence).
  lia.
Qed.

Lemma at_index_last (l : list A) (x : A) :
  at_index (l ++ [x]) (JS.length (l ++ [x]) - 1) = Some x.
Proof.
  unfold JS.length. rewrite length_app. simpl.
  replace (Z.of_nat (List.length l + 1) - 1) with (Z.of_nat (List.length l)) by lia.
  rewrite at_index_nat, nth_error_app2 by lia.
  now rewrite Nat.sub_diag.
Qed.

Lemma nth_error_update_at (f : A -> A) (l : list A) (k j : nat) :
  nth_error (update_at k f l) j =
  if Nat.eqb j k then option_map f (nth_error l j) else nth_error l j.
Proof.
  revert k j. induction l as [| x r IH]; intros k j.
  - simpl. destruct k, j; simpl; try reflexivity; now destruct (Nat.eqb j k).
  - destruct k as [| k'], j as [| j']; simpl; try reflexivity. apply IH.
Qed.

Lemma length_update_at (f : A -> A) (l : list A) (k : nat) :
  List.length (update_at k f l) = List.length l.
Proof.
  revert k. induction l as [| x r IH]; intros [| k']; simpl; auto.
Qed.

Lemma only_at_tail (c : A -> bool) (x : A) (r : list A) (k : nat) :
  only_at c (x :: r) (S k) -> c x = false /\ only_at c r k.
Proof.
  intros H. split.
  - destruct (c x) eqn:E; [| reflexivity].
    apply (H O x eq_refl) in E. discriminate.
  - intros j q Hj. specialize (H (S j) q Hj). split; intros H1.
    + apply H in H1. congruence.
    + apply H. congruence.
Qed.

Lemma only_at_head (c : A -> bool) (x : A) (r : list A) :
  only_at c (x :: r) O -> c x = true /\ forall q, In q r -> c q = false.
Proof.
  intros H. split.
  - now apply (H O x eq_refl).
  - intros q Hq. apply In_nth_error in Hq as [j Hj].
    destruct (c q) eqn:E; [| reflexivity].
    apply (H (S j) q Hj) in E. discriminate.
Qed.

Lemma findIndex_from_only_at (c : A -> bool) (l : list A) (k : nat) (p : A) (i : Z) :
  only_at c l k -> nth_error l k = Some p ->
  findIndex_from c l i = i + Z.of_nat k.
Proof.
  revert k i. induction l as [| x r IH]; intros k i Ho Hk.
  - destruct k; discriminate.
  - destruct k as [| k'].
    + apply only_at_head in Ho as [Hx _]. simpl. rewrite Hx. lia.
    + apply only_at_tail in Ho as [Hx Hr]. simpl. rewrite Hx.
      rewrite (IH k' (i + 1) Hr Hk). lia.
Qed.

Lemma findIndex_from_none (c : A -> bool) (l : list A) (i : Z) :
  (forall q, In q l -> c q = false) -> findIndex_from c l i = -1.
Proof.
  revert i. induction l as [| x r IH]; intros i H; simpl; [reflexivity |].
  rewrite (H x (or_introl eq_refl)). apply IH. intros q Hq. apply H. now right.
Qed.

Lemma find_only_at (c : A -> bool) (l : list A) (k : nat) (p : A) :
  only_at c l k -> nth_error l k = Some p -> find c l = Some p.
Proof.
  revert k. induction l as [| x r IH]; intros k Ho Hk.
  - destruct k; discriminate.
  - destruct k as [| k'].
    + apply only_at_head in Ho as [Hx _]. simpl in *. rewrite Hx. congruence.
    + apply only_at_tail in Ho as [Hx Hr]. simpl. rewrite Hx. now apply (IH k').
Qed.

Lemma map_only_at (c : A -> bool) (f : A -> A) (l : list A) (k : nat) :
  only_at c l k ->
  map (fun q => if c q then f q else q) l = update_at k f l.
Proof.
  intros Ho. apply nth_error_ext. intros j.
  rewrite nth_error_map, nth_error_update_at.
  destruct (nth_error l j) as [q |] eqn:Hj; simpl.
  - destruct (Nat.eqb_spec j k) as [-> | Hne].
    + now rewrite (proj2 (Ho k q Hj) eq_refl).
    + destruct (c q) eqn:E; [| reflexivity].
      apply (Ho j q Hj) in E. contradiction.
  - now destruct (Nat.eqb j k).
Qed.

Lemma filter_only_at (c : A -> bool) (l : list A) (k : nat) (p : A) :
  only_at c l k -> nth_error l k = Some p ->
  filter (fun q => negb (c q)) l = remove_at k l.
Proof.
  unfold remove_at. revert k. induction l as [| x r IH]; intros k Ho Hk.
  - destruct k; discriminate.
  - destruct k as [| k'].
    + apply only_at_head in Ho as [Hx Hr]. simpl. rewrite Hx. simpl.
      clear Hk IH. induction r as [| y r IH]; simpl; [reflexivity |].
      rewrite (Hr y (or_introl eq_refl)). simpl. f_equal.
      apply IH. intros q Hq. apply Hr. now right.
    + apply only_at_tail in Ho as [Hx Hr]. simpl. rewrite Hx. simpl.
      f_equal. now apply IH.
Qed.

Lemma filter_none (c : A -> bool) (l : list A) :
  (forall q, In q l -> c q = false) -> filter (fun q => negb (c q)) l = l.
Proof.
  induction l as [| x r IH]; intros H; simpl; [reflexivity |].
  rewrite (H x (or_introl eq_refl)). simpl. f_equal.
  apply IH. intros q Hq. apply H. now right.
Qed.

Lemma length_remove_at (l : list A) (k : nat) (p : A) :
  nth_error l k = Some p -> S (List.length (remove_at k l)) = List.length l.
Proof.
  intros Hk. unfold remove_at.
  assert (k < List.length l)%nat by (apply nth_error_Some; congruence).
  rewrite length_app, length_firstn, length_skipn. lia.
Qed.

Lemma nth_error_remove_at (l : list A) (k j : nat) :
  nth_error (remove_at k l) j =
  if Nat.ltb j k then nth_error l j else nth_error l (S j).
Proof.
  unfold remove_at.
  destruct (Nat.ltb_spec j k) as [Hlt | Hge].
  - destruct (Nat.le_gt_cases (List.length l) j) as [Hlen | Hlen].
    + rewrite (proj2 (nth_error_None l j) Hlen).
      apply nth_error_None. rewrite length_app, length_firstn, length_skipn. lia.
    + rewrite nth_error_app1 by (rewrite length_firstn; lia).
      rewrite nth_error_firstn.
      destruct (Nat.ltb_spec j k); [reflexivity | lia].
  - destruct (Nat.le_gt_cases (List.length l) k) as [Hlen | Hlen].
    + rewrite (proj2 (nth_error_None l (S j))) by lia.
      apply nth_error_None. rewrite length_app, length_firstn, length_skipn. lia.
    + rewrite nth_error_app2 by (rewrite length_firstn; lia).
      rewrite nth_error_skipn, length_firstn.
      f_equal. lia.
Qed.

End Arrays.

(** ** Facts about players and ranks *)

Lemma NoDup_ids_only_at (l : list Player) (k : nat) (p : Player) :
  NoDup (map id l) -> nth_error l k = Some p ->
  only_at (fun q => id q =? id p) l k.
Proof.
  intros Hnd Hk j q Hj. rewrite Z.eqb_eq. split.
  - intros E.
    apply (proj1 (NoDup_nth_error (map id l)) Hnd).
    + rewrite length_map. apply nth_error_Some. congruence.
    + rewrite !nth_error_map, Hj, Hk. simpl. congruence.
  - intros ->. congruence.
Qed.

Lemma NoDup_ids_same (l : list Player) (p q : Player) :
  NoDup (map id l) -> In p l -> In q l -> id p = id q -> p = q.
Proof.
  intros Hnd Hp Hq E.
  apply In_nth_error in Hp as [k Hk]. apply In_nth_error in Hq as [j Hj].
  assert (j = k).
  { apply (NoDup_ids_only_at l k p Hnd Hk j q Hj). now apply Z.eqb_eq. }
  congruence.
Qed.

Lemma Math_max_ge (xs : list Z) (x y : Z) :
  In y (x :: xs) -> y <= Math_max x xs.
Proof.
  unfold Math_max. revert x y. induction xs as [| z r IH]; intros x y H; simpl.
  - destruct H as [-> | []]. lia.
  - destruct H as [-> | [-> | H]].
    + transitivity (Z.max y z); [lia |]. apply IH. now left.
    + transitivity (Z.max x y); [lia |]. apply IH. now left.
    + apply IH. now right.
Qed.

Lemma Math_max_In (xs : list Z) (x : Z) : In (Math_max x xs) (x :: xs).
Proof.
  unfold Math_max. revert x. induction xs as [| z r IH]; intros x; simpl.
  - now left.
  - destruct (IH (Z.max x z)) as [E | H].
    + rewrite <- E. destruct (Z.max_spec x z) as [[_ ->] | [_ ->]]; auto.
    + auto.
Qed.

Lemma non_null_In (rs : list (option Z)) (r : Z) :
  In r (non_null rs) <-> In (Some r) rs.
Proof.
  induction rs as [| [x |] rest IH]; simpl.
  - tauto.
  - rewrite IH. split; intros [E | H]; auto; left; congruence.
  - rewrite IH. split; [auto | intros [E | H]; [discriminate | auto]].
Qed.

Lemma non_null_app (rs1 rs2 : list (option Z)) :
  non_null (rs1 ++ rs2) = non_null rs1 ++ non_null rs2.
Proof.
  induction rs1 as [| [x |] rest IH]; simpl; congruence.
Qed.

Lemma existingRanks_In (g : GameState) (r : Z) :
  In r (existingRanks g) <-> exists p, In p (players g) /\ rank p = Some r.
Proof.
  unfold existingRanks. rewrite non_null_In, in_map_iff.
  split; intros [p [H1 H2]]; exists p; auto.
Qed.

(** * Properties of the operations *)

(** ** applyFoul *)

Lemma rem_next_index (i n : nat) :
  (0 < n)%nat ->
  JS.rem (Z.of_nat i + 1) (Z.of_nat n) = Some (Z.of_nat ((i + 1) mod n)).
Proof.
  intros Hn. unfold JS.rem.
  destruct (Z.eqb_spec (Z.of_nat n) 0) as [E | _]; [lia |].
  rewrite Z.rem_mod_nonneg by lia.
  rewrite Nat2Z.inj_mod. do 2 f_equal. lia.
Qed.

Lemma foulUpdater_at (g : GameState) (v : Z) (i : nat) (cur : Player) :
  NoDup (ids g) ->
  (2 <= List.length (players g))%nat ->
  nth_error (players g) i = Some cur ->
  id cur = currentPlayerId g ->
  exists nxt : Player,
    ((i + 1) mod List.length (players g))%nat <> i /\
    findIndex (is_current g) (players g) = Z.of_nat i /\
    nth_error (players g) ((i + 1) mod List.length (players g)) = Some nxt /\
    foulUpdater v g
      = Some (mkGameState
                (update_at ((i + 1) mod List.length (players g)) (add_score v)
                           (update_at i (with_break 0) (players g)))
                (currentPlayerId g)).
Proof.
  destruct g as [ps c]. unfold ids. simpl.
  intros Hnd Hlen Hi Hc.
  set (n := List.length ps) in *.
  set (j := ((i + 1) mod n)%nat).
  assert (Hin : (i < n)%nat) by (apply nth_error_Some; congruence).
  assert (Hjn : (j < n)%nat) by (apply Nat.mod_upper_bound; lia).
  assert (Hij : j <> i).
  { unfold j. destruct (Nat.eq_dec (i + 1) n) as [E | E].
    - rewrite E, Nat.Div0.mod_same. lia.
    - rewrite Nat.mod_small by lia. lia. }
  destruct (nth_error ps j) as [nxt |] eqn:Hj;
    [| apply nth_error_None in Hj; lia].
  pose proof (NoDup_ids_only_at ps i cur Hnd Hi) as Hoi.
  pose proof (NoDup_ids_only_at ps j nxt Hnd Hj) as Hoj.
  assert (Hfi : findIndex (is_current (mkGameState ps c)) ps = Z.of_nat i).
  { unfold findIndex, is_current. simpl. rewrite <- Hc.
    now rewrite (findIndex_from_only_at _ ps i cur 0 Hoi Hi). }
  assert (Hmap :
    map (fun p => if id p =? id nxt then with_score (score p + v) p
                  else if is_current (mkGameState ps c) p then with_break 0 p
                       else p) ps
    = update_at j (add_score v) (update_at i (with_break 0) ps)).
  { apply nth_error_ext. intros k.
    rewrite nth_error_map, !nth_error_update_at.
    destruct (nth_error ps k) as [q |] eqn:Hk; simpl.
    - unfold is_current. simpl. rewrite <- Hc.
      destruct (Nat.eqb_spec k j) as [-> | Hkj].
      + rewrite (proj2 (Hoj j q Hk) eq_refl).
        destruct (Nat.eqb_spec j i); [contradiction | reflexivity].
      + destruct (id q =? id nxt) eqn:E1;
          [apply (Hoj k q Hk) in E1; contradiction |].
        destruct (Nat.eqb_spec k i) as [-> | Hki].
        * now rewrite (proj2 (Hoi i q Hk) eq_refl).
        * destruct (id q =? id cur) eqn:E2;
            [apply (Hoi k q Hk) in E2; contradiction | reflexivity].
    - destruct (Nat.eqb k j), (Nat.eqb k i); reflexivity. }
  exists nxt.
  split; [exact Hij |].
  split; [exact Hfi |].
  split; [reflexivity |].
  unfold foulUpdater. simpl.
  rewrite Hfi. unfold JS.length. fold n.
  rewrite rem_next_index by lia. fold j.
  rewrite at_index_nat, Hj. simpl. rewrite Hmap. reflexivity.
Qed.

(** C1.  In a state with pairwise distinct player ids (the data model's
    unique ids), at least two players and a current player found at index
    [i], where adding [penaltyValue] to the score of the player at index
    [(i + 1) mod n] is exact, a foul of [penaltyValue] is carried out, the
    previous state is saved, and in the new state: the player at index
    [(i + 1) mod n] has [penaltyValue] more points, the current player has
    break 0 and the same score, every other player is unchanged, and
    [currentPlayerId] is the same. *)
Theorem applyFoul_awards_next_player
  (a : App) (penaltyValue : Z) (i : nat) (cur : Player) :
  NoDup (ids (gameState a)) ->
  (2 <= List.length (players (gameState a)))%nat ->
  nth_error (players (gameState a)) i = Some cur ->
  id cur = currentPlayerId (gameState a) ->
  (forall nxt,
      nth_error (players (gameState a))
                ((i + 1) mod List.length (players (gameState a))) = Some nxt ->
      exact_sum (score nxt) penaltyValue) ->
  exists (nxt : Player) (g' : GameState),
    findIndex (is_current (gameState a)) (players (gameState a)) = Z.of_nat i /\
    nth_error (players (gameState a))
              ((i + 1) mod List.length (players (gameState a))) = Some nxt /\
    exec (applyFoul penaltyValue) a
      = Some (mkApp g' (history a ++ [gameState a]) (pending a)) /\
    currentPlayerId g' = currentPlayerId (gameState a) /\
    nth_error (players g') ((i + 1) mod List.length (players (gameState a)))
      = Some (mkPlayer (id nxt) (name nxt) (score nxt + penaltyValue)
                       (break nxt) (rank nxt)) /\
    nth_error (players g') i
      = Some (mkPlayer (id cur) (name cur) (score cur) 0 (rank cur)) /\
    players g'
      = update_at ((i + 1) mod List.length (players (gameState a)))
                  (add_score penaltyValue)
                  (update_at i (with_break 0) (players (gameState a))).
Proof.
  intros Hnd Hlen Hi Hc _.
  destruct (foulUpdater_at (gameState a) penaltyValue i cur Hnd Hlen Hi Hc)
    as (nxt & Hij & Hfi & Hj & Hf).
  exists nxt. eexists.
  split; [exact Hfi |].
  split; [exact Hj |].
  split; [simpl; unfold handleFoul; rewrite Hf; reflexivity |].
  simpl. split; [reflexivity |].
  rewrite !nth_error_update_at, Nat.eqb_refl, Hj, Hi. simpl.
  destruct (Nat.eqb_spec ((i + 1) mod List.length (players (gameState a))) i);
    [contradiction |].
  destruct (Nat.eqb_spec i ((i + 1) mod List.length (players (gameState a))));
    [congruence |].
  simpl. rewrite Nat.eqb_refl. repeat split.
Qed.

(** ** applyPot *)

Lemma update_at_same_at {A} (f g : A -> A) (l : list A) (k : nat) (x : A) :
  nth_error l k = Some x -> f x = g x -> update_at k f l = update_at k g l.
Proof.
  revert k. induction l as [| y r IH]; intros [| k'] Hk E; simpl in *;
    try discriminate.
  - congruence.
  - f_equal. now apply IH.
Qed.

Lemma existsb_is_current (g : GameState) (p : Player) :
  In p (players g) -> id p = currentPlayerId g ->
  existsb (is_current g) (players g) = true.
Proof.
  intros Hin E. apply existsb_exists. exists p. split; [exact Hin |].
  unfold is_current. now apply Z.eqb_eq.
Qed.

(** With no callback pending, the callback that runs after a click on a ball
    is the one of that click. *)
Lemma exec_applyPot_idle (pts : Z) (a : App) :
  pending a = [] ->
  exec (applyPot pts) a
  = Some (if existsb (is_current (gameState a)) (players (gameState a))
          then potTimeout (mkPotTimer pts (gameState a)) a
          else a).
Proof.
  destruct a as [g h pd]. simpl. intros ->. unfold handlePot. simpl.
  now destruct (existsb (is_current g) (players g)).
Qed.

Lemma exec_pending_idle (op : operation) (a a' : App) :
  pending a = [] -> exec op a = Some a' -> pending a' = [].
Proof.
  intros Hp E. destruct op.
  - rewrite (exec_applyPot_idle _ _ Hp) in E. injection E as <-.
    now destruct (existsb _ _).
  - simpl in E. unfold handleFoul in E.
    destruct (foulUpdater _ _); [injection E as <-; exact Hp | discriminate].
  - simpl in E. injection E as <-. unfold handlePlayerSelect.
    now destruct (_ =? _).
  - simpl in E. injection E as <-. unfold handleAddPlayer.
    now destruct (_ <=? _).
  - simpl in E. unfold handleRemovePlayer in E.
    destruct (_ <=? _); [injection E as <-; exact Hp |].
    destruct (removeUpdater _ _); [injection E as <-; exact Hp | discriminate].
  - simpl in E. injection E as <-. unfold handleNameUpdate.
    now destruct (truthy _).
  - simpl in E. injection E as <-. exact Hp.
  - simpl in E. injection E as <-. unfold handleUndo.
    destruct (_ <? _); [| exact Hp]. now destruct (at_index _ _).
Qed.


Lemma next_rank_computed (g : GameState) :
  next_rank g (match existingRanks g with
               | [] => 1
               | r :: rs => Math_max r rs + 1
               end).
Proof.
  unfold next_rank, holds_rank.
  pose proof (existingRanks_In g) as HE.
  destruct (existingRanks g) as [| r rs].
  - left. split; [| reflexivity]. intros r' H. now apply HE in H.
  - right. replace (Math_max r rs + 1 - 1) with (Math_max r rs) by lia.
    split; [apply HE, Math_max_In | intros r' H; now apply Math_max_ge, HE].
Qed.

(** C2.  In a state with no timer callback pending and pairwise distinct
    player ids, whose current player [cur] is found (at index [i]), and with
    numbers small enough for the sums to be exact, potting [pts] saves the
    previous state and replaces [cur] by a player [cur'] with the same id
    and name, score and break each increased by [pts]; when the new break is
    at least 100 and [cur] had no rank, [cur'] has the rank that is one more
    than the largest [rank] field of any player, or 1 when every [rank]
    field is null; in the other cases the rank stays as it was.  No other
    player changes and [currentPlayerId] is the same. *)
Theorem applyPot_scores_and_ranks
  (a : App) (pts : Z) (i : nat) (cur : Player) :
  pending a = [] ->
  NoDup (ids (gameState a)) ->
  nth_error (players (gameState a)) i = Some cur ->
  id cur = currentPlayerId (gameState a) ->
  exact_sum (score cur) pts ->
  exact_sum (break cur) pts ->
  exact_ranks (gameState a) ->
  exists (cur' : Player) (g' : GameState),
    find (is_current (gameState a)) (players (gameState a)) = Some cur /\
    exec (applyPot pts) a
      = Some (mkApp g' (history a ++ [gameState a]) (pending a)) /\
    currentPlayerId g' = currentPlayerId (gameState a) /\
    players g' = update_at i (fun _ => cur') (players (gameState a)) /\
    id cur' = id cur /\ name cur' = name cur /\
    score cur' = score cur + pts /\
    break cur' = break cur + pts /\
    (100 <= break cur + pts -> rank cur = None ->
     exists r, rank cur' = Some r /\ next_rank (gameState a) r) /\
    (break cur + pts < 100 -> rank cur = None -> rank cur' = None) /\
    (forall r, rank cur = Some r -> r <> 0 -> rank cur' = Some r).
Proof.
  intros Hpd. rewrite (exec_applyPot_idle pts a Hpd).
  destruct a as [[ps c] h pd]. unfold ids. simpl.
  intros Hnd Hi Hc _ _ _. subst c.
  set (g := mkGameState ps (id cur)).
  pose proof (NoDup_ids_only_at ps i cur Hnd Hi) as Hoi.
  change (only_at (is_current g) ps i) in Hoi.
  assert (Hfind : find (is_current g) ps = Some cur)
    by exact (find_only_at _ ps i cur Hoi Hi).
  assert (Hex : existsb (is_current g) ps = true).
  { apply (existsb_is_current g cur); [| reflexivity].
    simpl. eapply nth_error_In; eauto. }
  set (newRank := newRankForPlayer pts g cur).
  set (cur' := mkPlayer (id cur) (name cur) (score cur + pts) (break cur + pts)
                        (logical_or (rank cur) newRank)).
  exists cur', (mkGameState (update_at i (fun _ => cur') ps) (id cur)).
  split; [exact Hfind |].
  split.
  { rewrite Hex. unfold potTimeout, potUpdater, saveToHistory. simpl.
    rewrite Hfind. fold g. fold newRank.
    rewrite (map_only_at (is_current g) _ ps i Hoi).
    now rewrite (update_at_same_at _ (fun _ => cur') ps i cur Hi). }
  simpl. do 6 (split; [reflexivity |]). split; [| split].
  - intros Hb Hr. unfold newRank, newRankForPlayer. rewrite Hr. simpl.
    destruct (Z.leb_spec 100 (break cur + pts)) as [_ | Hlt]; [| lia]. simpl.
    pose proof (next_rank_computed g) as Hn.
    destruct (existingRanks g) as [| r rs]; eexists; split; try reflexivity;
      exact Hn.
  - intros Hb Hr. unfold newRank, newRankForPlayer. rewrite Hr. simpl.
    destruct (Z.leb_spec 100 (break cur + pts)) as [Hge | _]; [lia |].
    reflexivity.
  - intros r Hr Hr0. rewrite Hr. simpl.
    destruct (Z.eqb_spec r 0); [contradiction | reflexivity].
Qed.

(** ** removePlayer *)

Lemma rem_after_removal (i n : nat) :
  (3 <= n)%nat -> (i < n)%nat ->
  JS.rem (Z.of_nat i) (Z.of_nat (n - 1))
  = Some (Z.of_nat (if Nat.eqb (S i) n then 0 else i)).
Proof.
  intros Hn Hi. unfold JS.rem.
  destruct (Z.eqb_spec (Z.of_nat (n - 1)) 0) as [E | _]; [lia |].
  rewrite Z.rem_mod_nonneg by lia. f_equal.
  destruct (Nat.eqb_spec (S i) n) as [E | E].
  - replace (n - 1)%nat with i by lia. rewrite Z.mod_same by lia. reflexivity.
  - rewrite Z.mod_small by lia. reflexivity.
Qed.

Lemma removeUpdater_at (g : GameState) (i : nat) (p : Player) :
  NoDup (ids g) ->
  (3 <= List.length (players g))%nat ->
  nth_error (players g) i = Some p ->
  exists q : Player,
    nth_error (remove_at i (players g))
              (if Nat.eqb (S i) (List.length (players g)) then 0 else i)
      = Some q /\
    nth_error (players g) ((i + 1) mod List.length (players g)) = Some q /\
    removeUpdater (id p) g
      = Some (mkGameState (remove_at i (players g))
                          (if currentPlayerId g =? id p
                           then id q
                           else currentPlayerId g)).
Proof.
  destruct g as [ps c]. unfold ids. simpl.
  intros Hnd Hlen Hi.
  set (n := List.length ps) in *.
  assert (Hin : (i < n)%nat) by (apply nth_error_Some; congruence).
  pose proof (NoDup_ids_only_at ps i p Hnd Hi) as Ho.
  pose proof (filter_only_at _ ps i p Ho Hi) as Hfilter.
  pose proof (length_remove_at ps i p Hi) as Hlr. fold n in Hlr.
  set (k := if Nat.eqb (S i) n then 0%nat else i).
  assert (Hk : nth_error (remove_at i ps) k = nth_error ps ((i + 1) mod n)).
  { rewrite nth_error_remove_at. unfold k.
    destruct (Nat.eqb_spec (S i) n) as [E | E].
    - replace (i + 1)%nat with n by lia. rewrite Nat.Div0.mod_same.
      destruct (Nat.ltb_spec 0 i); [reflexivity | lia].
    - rewrite Nat.mod_small by lia.
      destruct (Nat.ltb_spec i i); [lia |]. f_equal. lia. }
  destruct (nth_error ps ((i + 1) mod n)) as [q |] eqn:Hq.
  2:{ apply nth_error_None in Hq.
      pose proof (Nat.mod_upper_bound (i + 1) n). fold n in Hq. lia. }
  exists q.
  split; [exact Hk |].
  split; [reflexivity |].
  unfold removeUpdater. simpl.
  rewrite Hfilter.
  destruct (c =? id p); [| reflexivity].
  unfold findIndex.
  rewrite (findIndex_from_only_at _ ps i p 0 Ho Hi). simpl.
  unfold JS.length. replace (List.length (remove_at i ps)) with (n - 1)%nat by lia.
  rewrite rem_after_removal by lia. fold k.
  rewrite at_index_nat, Hk. reflexivity.
Qed.

(** C3.  In a state with pairwise distinct player ids and at least three
    players, removing the id of the player at index [i] saves the previous
    state and yields the player list without position [i], the others in
    their order.  If that player was not the current one, [currentPlayerId]
    is unchanged; if it was, the new current player is the one now at index
    [i], or at index 0 when [i] was the last index: the player that was at
    index [(i + 1) mod n] before. *)
Theorem removePlayer_removes_and_passes_turn
  (a : App) (idToRemove : Z) (i : nat) (p : Player) :
  NoDup (ids (gameState a)) ->
  (3 <= List.length (players (gameState a)))%nat ->
  nth_error (players (gameState a)) i = Some p ->
  id p = idToRemove ->
  exists (g' : GameState) (q : Player),
    exec (removePlayer idToRemove) a
      = Some (mkApp g' (history a ++ [gameState a]) (pending a)) /\
    players g' = remove_at i (players (gameState a)) /\
    nth_error (players g')
              (if Nat.eqb (S i) (List.length (players (gameState a)))
               then 0 else i) = Some q /\
    nth_error (players (gameState a))
              ((i + 1) mod List.length (players (gameState a))) = Some q /\
    currentPlayerId g'
      = (if currentPlayerId (gameState a) =? idToRemove
         then id q
         else currentPlayerId (gameState a)).
Proof.
  intros Hnd Hlen Hi Hp. subst idToRemove.
  destruct (removeUpdater_at (gameState a) i p Hnd Hlen Hi)
    as (q & Hk & Hq & Hr).
  eexists. exists q.
  split.
  { simpl. unfold handleRemovePlayer. unfold JS.length.
    destruct (Z.leb_spec (Z.of_nat (List.length (players (gameState a)))) 2)
      as [H2 | _]; [lia |].
    rewrite Hr. reflexivity. }
  simpl. auto.
Qed.

(** ** undo *)

Lemma handleUndo_after_save (g' g : GameState) (h : list GameState)
      (pd : list PotTimer) :
  handleUndo (mkApp g' (saveToHistory g h) pd) = mkApp g h pd.
Proof.
  unfold handleUndo, saveToHistory. simpl.
  rewrite at_index_last.
  unfold slice_0_m1. rewrite removelast_last.
  unfold JS.length. rewrite length_app. simpl.
  destruct (Z.ltb_spec 0 (Z.of_nat (List.length h + 1))); [reflexivity | lia].
Qed.

Lemma handleUndo_empty (a : App) : history a = [] -> handleUndo a = a.
Proof.
  intros E. unfold handleUndo. rewrite E. reflexivity.
Qed.

(** A rejected operation changes neither the state nor the log. *)
Lemma rejected_unchanged (op : operation) (a : App) :
  pending a = [] ->
  recorded op = true -> rejected op a = true -> exec op a = Some a.
Proof.
  intros Hpd.
  destruct op; try rewrite (exec_applyPot_idle _ _ Hpd); simpl;
    try discriminate; intros _ H.
  - apply negb_true_iff in H. now rewrite H.
  - unfold handlePlayerSelect. now rewrite H.
  - unfold handleAddPlayer. now rewrite H.
  - unfold handleRemovePlayer. now rewrite H.
  - unfold handleNameUpdate. apply negb_true_iff in H. now rewrite H.
Qed.

(** An operation that is carried out appends the state it started from to
    the log. *)
Lemma recorded_saves (op : operation) (a a' : App) :
  pending a = [] ->
  recorded op = true -> rejected op a = false -> exec op a = Some a' ->
  history a' = saveToHistory (gameState a) (history a) /\ pending a' = pending a.
Proof.
  intros Hpd.
  destruct op; try rewrite (exec_applyPot_idle _ _ Hpd); simpl;
    try discriminate; intros _ H E.
  - apply negb_false_iff in H. rewrite H in E. injection E as <-. auto.
  - unfold handleFoul in E. destruct (foulUpdater _ _); [| discriminate].
    injection E as <-. auto.
  - unfold handlePlayerSelect in E. rewrite H in E. injection E as <-. auto.
  - unfold handleAddPlayer in E. rewrite H in E. injection E as <-. auto.
  - unfold handleRemovePlayer in E. rewrite H in E.
    destruct (removeUpdater _ _); [| discriminate]. injection E as <-. auto.
  - unfold handleNameUpdate in E. apply negb_false_iff in H. rewrite H in E.
    injection E as <-. auto.
Qed.

(** With no timer callback pending: when one of applyPot, applyFoul,
    selectPlayer, addPlayer, removePlayer and renamePlayer is carried out
    (not rejected) from [a], an undo right after it gives back exactly [a],
    the game state and the log. *)
Lemma undo_inverts_when_idle (op : operation) (a a' : App) :
  pending a = [] ->
  recorded op = true -> rejected op a = false ->
  exec op a = Some a' -> exec undo a' = Some a.
Proof.
  intros Hpd Hrec Hrej E.
  destruct (recorded_saves op a a' Hpd Hrec Hrej E) as [Hh Hp].
  destruct a' as [g' h' pd']. simpl in Hh, Hp. subst h' pd'.
  simpl. rewrite handleUndo_after_save. now destruct a.
Qed.

(** An undo with an empty log changes nothing. *)
Lemma undo_with_empty_log (a : App) :
  history a = [] -> exec undo a = Some a.
Proof.
  intros E. simpl. now rewrite handleUndo_empty.
Qed.

(** The timer callback of [handlePot] saves the state of the render in which
    the ball was clicked.  An undo after the callback therefore restores
    that state, which is the state the pot was applied to only when nothing
    else changed it between the click and the callback. *)
Remark undo_after_timer_restores_click_state (t : PotTimer) (a : App) :
  handleUndo (potTimeout t a) = mkApp (saved t) (history a) (pending a).
Proof.
  unfold potTimeout. apply handleUndo_after_save.
Qed.

Example two_quick_pots_then_undo :
  run [PotClick 7; PotClick 7; PotTimerFires; PotTimerFires; UndoClick]
      initialApp
  = Some (mkApp initialGameState [initialGameState] []).
Proof. reflexivity. Qed.

(** C4: two balls clicked within the delay of [handlePot], from the initial
    state.  Both callbacks own the [saveToHistory] of the render of their
    click, hence the initial state.  The second callback updates the state
    that the first one produced (7 points) but saves the initial state; an
    undo right after it restores the initial state, not the state the
    second pot was applied to, and the initial state is still in the
    log. *)
Theorem undo_after_overlapping_pots_is_no_inverse :
  exists before_second after_second after_undo : App,
    run [PotClick 7; PotClick 7; PotTimerFires] initialApp
      = Some before_second /\
    map score (players (gameState before_second)) = [7; 0] /\
    step PotTimerFires before_second = Some after_second /\
    gameState after_second = potUpdater 7 (gameState before_second) /\
    map score (players (gameState after_second)) = [14; 0] /\
    step UndoClick after_second = Some after_undo /\
    gameState after_undo = initialGameState /\
    gameState after_undo <> gameState before_second /\
    history after_undo = [initialGameState].
Proof.
  do 3 eexists.
  split; [reflexivity |]. split; [reflexivity |].
  split; [reflexivity |]. split; [reflexivity |].
  split; [reflexivity |]. split; [reflexivity |].
  split; [reflexivity |]. split; [discriminate | reflexivity].
Qed.

(** ** Invariants of the running component *)

Lemma Forall_removelast {A} (P : A -> Prop) (l : list A) :
  Forall P l -> Forall P (removelast l).
Proof.
  induction 1 as [| x r Hx Hr IH]; simpl; [constructor |].
  destruct r; [constructor | constructor; assumption].
Qed.

Section Preservation.

Variable P : GameState -> Prop.
Variable ok : mutation -> GameState -> Prop.
Hypothesis preserved :
  forall m g g', ok m g -> transition m g g' -> P g -> P g'.

Lemma saved_app_all (a : App) (g' : GameState) :
  app_all P a -> P g' ->
  app_all P (mkApp g' (saveToHistory (gameState a) (history a)) (pending a)).
Proof.
  intros (Hg & Hh & Hp) Hg'. unfold app_all, saveToHistory. simpl.
  repeat split; auto. apply Forall_app. auto.
Qed.

Lemma potTimeout_app_all (t : PotTimer) (a : App) :
  app_all P a -> P (saved t) -> ok (MPot (points t)) (gameState a) ->
  app_all P (potTimeout t a).
Proof.
  intros (Hg & Hh & Hp) Ht Hok. unfold app_all, potTimeout, saveToHistory. simpl.
  repeat split; auto.
  - eapply preserved; [exact Hok | constructor | exact Hg].
  - apply Forall_app. auto.
Qed.

Lemma handleUndo_app_all (a : App) : app_all P a -> app_all P (handleUndo a).
Proof.
  intros (Hg & Hh & Hp). unfold handleUndo.
  destruct (0 <? JS.length (history a)); [| repeat split; auto].
  destruct (at_index (history a) (JS.length (history a) - 1)) as [g |] eqn:E;
    [| repeat split; auto].
  apply at_index_Some in E as [_ E]. apply nth_error_In in E.
  unfold app_all, slice_0_m1. simpl. repeat split; auto.
  - rewrite Forall_forall in Hh. auto.
  - now apply Forall_removelast.
Qed.

Lemma step_preserves (e : event) (a a' : App) :
  app_all P a -> event_ok ok e a -> step e a = Some a' -> app_all P a'.
Proof.
  intros Ha Hok E. pose proof Ha as (Hg & Hh & Hp).
  unfold event_ok in Hok.
  destruct e; simpl in E, Hok.
  - injection E as <-. unfold handlePot.
    destruct (existsb _ _); [| exact Ha].
    unfold app_all. simpl. repeat split; auto.
    apply Forall_app. split; [exact Hp |]. constructor; [exact Hg | constructor].
  - injection E as <-. unfold timerFires.
    destruct (pending a) as [| t rest] eqn:Ep; [exact Ha |].
    inversion Hp as [| ? ? Ht Hrest]; subst.
    apply potTimeout_app_all; simpl; auto.
    repeat split; auto.
  - unfold handleFoul in E.
    destruct (foulUpdater foulValue (gameState a)) as [g |] eqn:Ef;
      [| discriminate].
    injection E as <-. apply saved_app_all; [exact Ha |].
    eapply preserved; [apply Hok; reflexivity | constructor; exact Ef | exact Hg].
  - injection E as <-. unfold handlePlayerSelect.
    destruct (Z.eqb_spec selectedPlayerId (currentPlayerId (gameState a)));
      [exact Ha |].
    apply saved_app_all; [exact Ha |].
    eapply preserved; [apply Hok; reflexivity | now constructor | exact Hg].
  - injection E as <-. now apply handleUndo_app_all.
  - injection E as <-. unfold handleNewGame, app_all. simpl.
    repeat split; auto.
    eapply preserved; [apply Hok; reflexivity | constructor | exact Hg].
  - injection E as <-. unfold handleAddPlayer.
    destruct (Z.leb_spec 8 (JS.length (players (gameState a)))); [exact Ha |].
    apply saved_app_all; [exact Ha |].
    eapply preserved; [apply Hok; reflexivity | now constructor | exact Hg].
  - unfold handleRemovePlayer in E.
    destruct (Z.leb_spec (JS.length (players (gameState a))) 2).
    + now injection E as <-.
    + destruct (removeUpdater idToRemove (gameState a)) as [g |] eqn:Er;
        [| discriminate].
      injection E as <-. apply saved_app_all; [exact Ha |].
      eapply preserved;
        [apply Hok; reflexivity | constructor; [lia | exact Er] | exact Hg].
  - injection E as <-. unfold handleNameUpdate.
    destruct (truthy (trim name0)); [| exact Ha].
    apply saved_app_all; [exact Ha |].
    eapply preserved; [apply Hok; reflexivity | constructor | exact Hg].
Qed.

Lemma run_preserves (es : list event) (a a' : App) :
  app_all P a -> trace_ok ok es a -> run es a = Some a' -> app_all P a'.
Proof.
  revert a. induction es as [| e rest IH]; simpl; intros a Ha Hok E.
  - now injection E as <-.
  - destruct Hok as [He Hrest].
    destruct (step e a) as [a1 |] eqn:Es; [| discriminate].
    apply (IH a1); auto. eapply step_preserves; eauto.
Qed.

Lemma exec_preserves (op : operation) (a a' : App) :
  pending a = [] ->
  app_all P a -> op_ok ok op a -> exec op a = Some a' -> app_all P a'.
Proof.
  intros Hpd Ha Hok E. unfold op_ok in Hok.
  destruct op;
    try (apply (step_preserves (FoulClick penaltyValue) a a' Ha); [| exact E];
         intros m Hm; apply Hok; exact Hm);
    try (apply (step_preserves (PanelClick i) a a' Ha); [| exact E];
         intros m Hm; apply Hok; exact Hm);
    try (apply (step_preserves AddPlayerClick a a' Ha); [| exact E];
         intros m Hm; apply Hok; exact Hm);
    try (apply (step_preserves (RemoveClick i) a a' Ha); [| exact E];
         intros m Hm; apply Hok; exact Hm);
    try (apply (step_preserves (NameInputDone i newName) a a' Ha); [| exact E];
         intros m Hm; apply Hok; exact Hm);
    try (apply (step_preserves NewGameClick a a' Ha); [| exact E];
         intros m Hm; apply Hok; exact Hm);
    try (apply (step_preserves UndoClick a a' Ha); [| exact E];
         intros m Hm; discriminate).
  rewrite (exec_applyPot_idle _ _ Hpd) in E. injection E as <-.
  destruct (existsb _ _); [| exact Ha].
  apply potTimeout_app_all; simpl;
    [exact Ha | apply Ha | apply Hok; reflexivity].
Qed.

Lemma exec_all_preserves (ops : list operation) (a a' : App) :
  pending a = [] ->
  app_all P a -> ops_ok ok ops a -> exec_all ops a = Some a' -> app_all P a'.
Proof.
  revert a. induction ops as [| op rest IH]; simpl; intros a Hpd Ha Hok E.
  - now injection E as <-.
  - destruct Hok as [Ho Hrest].
    destruct (exec op a) as [a1 |] eqn:Es; [| discriminate].
    apply (IH a1); auto.
    + eapply exec_pending_idle; eauto.
    + eapply exec_preserves; eauto.
Qed.

End Preservation.

Lemma trace_ok_any (es : list event) (a : App) : trace_ok any_mutation es a.
Proof.
  revert a. induction es as [| e rest IH]; simpl; intros a; [exact I |].
  split; [intros m _; exact I | intros a' _; apply IH].
Qed.

Lemma ops_ok_any (ops : list operation) (a : App) : ops_ok any_mutation ops a.
Proof.
  revert a. induction ops as [| op rest IH]; simpl; intros a; [exact I |].
  split; [intros m _; exact I | intros a' _; apply IH].
Qed.

(** ** Well-formed game states *)

Lemma nth_error_map_inv {A B} (f : A -> B) (l : list A) (k : nat) (y : B) :
  nth_error (map f l) k = Some y ->
  exists x, nth_error l k = Some x /\ y = f x.
Proof.
  rewrite nth_error_map. destruct (nth_error l k) as [x |]; simpl; intros E.
  - exists x. split; congruence.
  - discriminate.
Qed.

Lemma map_ids (f : Player -> Player) (ps : list Player) :
  (forall p, In p ps -> id (f p) = id p) -> map id (map f ps) = map id ps.
Proof.
  intros H. rewrite map_map. apply map_ext_in. exact H.
Qed.

Lemma NoDup_snoc {A} (l : list A) (x : A) :
  NoDup l -> ~ In x l -> NoDup (l ++ [x]).
Proof.
  induction 1 as [| y r Hy Hr IH]; simpl; intros Hx.
  - constructor; [auto | constructor].
  - constructor.
    + rewrite in_app_iff. simpl. intros [H | [H | []]]; [auto | subst; auto].
    + apply IH. auto.
Qed.

Lemma NoDup_ids_filter (f : Player -> bool) (ps : list Player) :
  NoDup (map id ps) -> NoDup (map id (filter f ps)).
Proof.
  induction ps as [| p r IH]; simpl; intros H; [constructor |].
  inversion H as [| ? ? Hp Hr]; subst.
  destruct (f p); simpl; [| auto].
  constructor; [| auto].
  intros Hin. apply Hp. apply in_map_iff in Hin as [q [E Hq]].
  apply filter_In in Hq as [Hq _]. apply in_map_iff. eauto.
Qed.

Lemma next_rank_fresh (g : GameState) (r : Z) :
  positive_ranks (players g) -> next_rank g r ->
  1 <= r /\ forall q r', In q (players g) -> rank q = Some r' -> r' < r.
Proof.
  intros Hpos [[He ->] | [Hin Hmax]].
  - split; [lia |]. intros q r' Hq Hr.
    destruct (He r'). exists q. auto.
  - destruct Hin as [p [Hp Hr]].
    pose proof (Hpos p _ Hp Hr). split; [lia |].
    intros q r' Hq Hr'.
    assert (r' <= r - 1) by (apply Hmax; exists q; auto). lia.
Qed.

Lemma wf_map (F : Player -> Player) (g : GameState) (c' : Z) :
  wf_state g ->
  (forall p, In p (players g) -> id (F p) = id p /\ rank_step g p (F p)) ->
  wf_state (mkGameState (map F (players g)) c').
Proof.
  intros [Hids Hcount Hdist Hpos] HF.
  constructor; unfold ids in *; simpl.
  - rewrite map_ids; [exact Hids | intros p Hp; apply HF, Hp].
  - unfold JS.length in *. now rewrite length_map.
  - intros i j p' q' r Hi Hj Hp' Hq'.
    apply nth_error_map_inv in Hi as [p [Hi ->]].
    apply nth_error_map_inv in Hj as [q [Hj ->]].
    pose proof (nth_error_In _ _ Hi) as Hpin.
    pose proof (nth_error_In _ _ Hj) as Hqin.
    destruct (HF p Hpin) as [_ [Ep | [Ep | (Ec & En & r1 & Er1 & Hn1)]]];
      [| congruence |];
      destruct (HF q Hqin) as [_ [Eq | [Eq | (Ec' & En' & r2 & Er2 & Hn2)]]];
      try congruence.
    + apply (Hdist i j p q r); congruence.
    + destruct (next_rank_fresh g r2 Hpos Hn2) as [_ Hfresh].
      assert (r < r2) by (apply (Hfresh p); congruence).
      assert (r2 = r) by congruence. lia.
    + destruct (next_rank_fresh g r1 Hpos Hn1) as [_ Hfresh].
      assert (r < r1) by (apply (Hfresh q); congruence).
      assert (r1 = r) by congruence. lia.
    + apply (NoDup_ids_only_at _ j q Hids Hj i p Hi).
      apply Z.eqb_eq. congruence.
  - intros p' r Hin Hr.
    apply in_map_iff in Hin as [p [<- Hp]].
    destruct (HF p Hp) as [_ [Ep | [Ep | (Ec & En & r1 & Er1 & Hn1)]]].
    + apply (Hpos p); congruence.
    + congruence.
    + destruct (next_rank_fresh g r1 Hpos Hn1) as [H1 _]. congruence.
Qed.

Lemma newRankForPlayer_cases (pts : Z) (g : GameState) (cur : Player) :
  newRankForPlayer pts g cur = None \/
  (100 <= break cur + pts /\ rank cur = None /\
   exists r, newRankForPlayer pts g cur = Some r /\ next_rank g r).
Proof.
  unfold newRankForPlayer.
  destruct (Z.leb_spec 100 (break cur + pts)) as [Hge | Hlt]; simpl; [| now left].
  destruct (rank cur) as [r0 |]; [now left |].
  right. split; [exact Hge |]. split; [reflexivity |].
  pose proof (next_rank_computed g) as Hn.
  destruct (existingRanks g) as [| r rs]; eexists; split; try reflexivity;
    exact Hn.
Qed.

(** The pot updater as a map over the players. *)
Lemma potUpdater_map (pts : Z) (g : GameState) :
  NoDup (ids g) -> positive_ranks (players g) ->
  exists F,
    potUpdater pts g = mkGameState (map F (players g)) (currentPlayerId g) /\
    forall p, In p (players g) ->
      id (F p) = id p /\
      (rank (F p) = rank p \/
       (id p = currentPlayerId g /\ rank p = None /\
        exists r, rank (F p) = Some r /\ next_rank g r)).
Proof.
  intros Hids Hpos. unfold potUpdater.
  destruct (find (is_current g) (players g)) as [cur |] eqn:Hfind.
  - eexists. split; [reflexivity |].
    intros p Hp. cbv beta.
    destruct (is_current g p) eqn:Ec; [| auto].
    unfold is_current in Ec. apply Z.eqb_eq in Ec. simpl.
    split; [reflexivity |].
    apply find_some in Hfind as [Hcin Hcur].
    unfold is_current in Hcur. apply Z.eqb_eq in Hcur.
    assert (p = cur) by (apply (NoDup_ids_same _ p cur Hids Hp Hcin); congruence).
    subst p.
    destruct (rank cur) as [r0 |] eqn:Hr.
    + left. simpl. pose proof (Hpos cur r0 Hcin Hr).
      destruct (Z.eqb_spec r0 0); [lia | reflexivity].
    + simpl.
      destruct (newRankForPlayer_cases pts g cur)
        as [-> | (_ & _ & r & -> & Hn)]; [now left |].
      right. eauto.
  - exists (fun p => p). split.
    + rewrite map_id. now destruct g.
    + auto.
Qed.

Lemma foulUpdater_map (v : Z) (g g' : GameState) :
  foulUpdater v g = Some g' ->
  exists F,
    g' = mkGameState (map F (players g)) (currentPlayerId g) /\
    forall p, id (F p) = id p /\ rank (F p) = rank p.
Proof.
  unfold foulUpdater.
  destruct (JS.rem _ _) as [k |]; [| discriminate].
  destruct (at_index _ _) as [nxt |]; [| discriminate].
  intros E. injection E as <-.
  eexists. split; [reflexivity |].
  intros p. simpl.
  destruct (id p =? id nxt); [split; reflexivity |].
  destruct (is_current g p); split; reflexivity.
Qed.

Lemma removeUpdater_players (i : Z) (g g' : GameState) :
  removeUpdater i g = Some g' ->
  players g' = filter (fun p => negb (id p =? i)) (players g) /\
  ((currentPlayerId g <> i /\ currentPlayerId g' = currentPlayerId g) \/
   (currentPlayerId g = i /\
    exists q, In q (players g') /\ currentPlayerId g' = id q)).
Proof.
  unfold removeUpdater.
  destruct (Z.eqb_spec (currentPlayerId g) i) as [Ec | Ec].
  - destruct (JS.rem _ _) as [k |]; [| discriminate].
    destruct (at_index _ k) as [q |] eqn:Eq; [| discriminate].
    intros E. injection E as <-. simpl. split; [reflexivity |].
    right. split; [exact Ec |]. exists q. split; [| reflexivity].
    apply at_index_Some in Eq as [_ Eq]. eapply nth_error_In; eauto.
  - intros E. injection E as <-. simpl. auto.
Qed.

Lemma filter_id_cases (i : Z) (ps : list Player) :
  NoDup (map id ps) ->
  filter (fun p => negb (id p =? i)) ps = ps \/
  exists k p, nth_error ps k = Some p /\ id p = i /\
              filter (fun p => negb (id p =? i)) ps = remove_at k ps.
Proof.
  intros Hnd.
  destruct (in_dec Z.eq_dec i (map id ps)) as [Hin | Hnin].
  - right. apply in_map_iff in Hin as [p [Hp Hin]].
    apply In_nth_error in Hin as [k Hk]. exists k, p.
    split; [exact Hk |]. split; [exact Hp |]. subst i.
    apply (filter_only_at (fun q => id q =? id p) ps k p); [| exact Hk].
    now apply NoDup_ids_only_at.
  - left. apply (filter_none (fun q => id q =? i)).
    intros q Hq. apply Z.eqb_neq. intros E. apply Hnin.
    apply in_map_iff. eauto.
Qed.

Lemma Math_max_succ_fresh (x : Z) (xs : list Z) :
  ~ In (Math_max x xs + 1) (x :: xs).
Proof.
  intros H. apply Math_max_ge in H. lia.
Qed.

Lemma transition_wf (m : mutation) (g g' : GameState) :
  any_mutation m g -> transition m g g' -> wf_state g -> wf_state g'.
Proof.
  intros _ T Hwf. destruct T as
    [pts g | v g g' Ef | i g Hne | g | g Hlt | i g g' Hgt Er | i s g].
  - destruct (potUpdater_map pts g (wf_ids g Hwf) (wf_positive g Hwf))
      as [F [-> HF]].
    apply wf_map; [exact Hwf |].
    intros p Hp. destruct (HF p Hp) as [Hid [Hr | Hr]]; split; auto.
    + now left.
    + right. right. exact Hr.
  - apply foulUpdater_map in Ef as [F [-> HF]].
    apply wf_map; [exact Hwf |].
    intros p _. destruct (HF p). split; [auto | now left].
  - apply wf_map; [exact Hwf |].
    intros p _. destruct (is_current g p); split; auto; now left.
  - apply wf_map; [exact Hwf |].
    intros p _. split; [reflexivity | right; left; reflexivity].
  - destruct Hwf as [Hids Hcount Hdist Hpos].
    unfold addUpdater. set (newPlayer := mkPlayer _ _ 0 0 None).
    constructor; unfold ids in *; simpl.
    + rewrite map_app. simpl. apply NoDup_snoc; [exact Hids |].
      destruct (map id (players g)) as [| x xs]; [intros [] |].
      apply Math_max_succ_fresh.
    + unfold JS.length in *. rewrite length_app. simpl. lia.
    + intros i j p q r Hi Hj Hp Hq.
      assert (Hlast : forall k x,
                 nth_error (players g ++ [newPlayer]) k = Some x ->
                 rank x = Some r -> nth_error (players g) k = Some x).
      { intros k x Hk Hx.
        destruct (Nat.lt_ge_cases k (List.length (players g))) as [Hl | Hl].
        - now rewrite nth_error_app1 in Hk.
        - rewrite nth_error_app2 in Hk by exact Hl.
          destruct (k - List.length (players g))%nat as [| n']; simpl in Hk.
          + injection Hk as <-. discriminate.
          + destruct n'; discriminate. }
      apply (Hdist i j p q r); auto.
    + intros p r Hin Hr. apply in_app_iff in Hin as [Hin | [<- | []]].
      * now apply (Hpos p).
      * discriminate.
  - apply removeUpdater_players in Er as [Hpl _].
    destruct Hwf as [Hids Hcount Hdist Hpos]. unfold ids in *.
    constructor; unfold ids; rewrite Hpl.
    + now apply NoDup_ids_filter.
    + destruct (filter_id_cases i (players g) Hids) as [-> | (k & p & Hk & _ & ->)];
        [exact Hcount |].
      pose proof (length_remove_at _ k p Hk). unfold JS.length in *. lia.
    + destruct (filter_id_cases i (players g) Hids) as [-> | (k & p & Hk & _ & ->)];
        [exact Hdist |].
      intros i1 j1 p1 q1 r. rewrite !nth_error_remove_at.
      intros Hi Hj Hp Hq.
      destruct (Nat.ltb_spec i1 k) as [Hik | Hik],
               (Nat.ltb_spec j1 k) as [Hjk | Hjk];
        pose proof (Hdist _ _ _ _ _ Hi Hj Hp Hq) as E;
        clear - Hik Hjk E; lia.
    + intros p r Hin Hr. apply filter_In in Hin as [Hin _].
      now apply (Hpos p).
  - apply wf_map; [exact Hwf |].
    intros p _. destruct (id p =? i); split; auto; now left.
Qed.

Lemma wf_initial : app_all wf_state initialApp.
Proof.
  unfold app_all. simpl. split; [| split; constructor].
  constructor.
  - unfold ids. simpl. repeat constructor; simpl; intuition discriminate.
  - unfold JS.length. simpl. lia.
  - intros i j p q r Hi Hj Hp Hq.
    apply nth_error_In in Hi. simpl in Hi.
    destruct Hi as [<- | [<- | []]]; discriminate.
  - intros p r Hin Hr. simpl in Hin.
    destruct Hin as [<- | [<- | []]]; discriminate.
Qed.

(** Every state the running component reaches, and every state it has
    saved or captured, is well formed. *)
Lemma run_wf (es : list event) (a : App) :
  run es initialApp = Some a -> app_all wf_state a.
Proof.
  apply (run_preserves wf_state any_mutation transition_wf es initialApp a).
  - exact wf_initial.
  - apply trace_ok_any.
Qed.

Lemma exec_all_wf (ops : list operation) (a : App) :
  exec_all ops initialApp = Some a -> app_all wf_state a.
Proof.
  apply (exec_all_preserves wf_state any_mutation transition_wf ops initialApp a).
  - reflexivity.
  - exact wf_initial.
  - apply ops_ok_any.
Qed.

(** ** The current player exists, and no updater throws *)

Lemma In_ids (g : GameState) (i : Z) :
  In i (ids g) <-> exists k p, nth_error (players g) k = Some p /\ id p = i.
Proof.
  unfold ids. rewrite in_map_iff. split.
  - intros [p [E Hin]]. apply In_nth_error in Hin as [k Hk]. eauto.
  - intros (k & p & Hk & E). exists p. split; [exact E |].
    eapply nth_error_In; eauto.
Qed.

Lemma transition_live (m : mutation) (g g' : GameState) :
  from_panel m g -> transition m g g' -> live g -> live g'.
Proof.
  intros Hok T [Hwf Hres].
  split; [exact (transition_wf m g g' I T Hwf) |].
  unfold resolves in *.
  destruct T as
    [pts g | v g g' Ef | i g Hne | g | g Hlt | i g g' Hgt Er | i s g];
    simpl in Hok.
  - destruct (potUpdater_map pts g (wf_ids g Hwf) (wf_positive g Hwf))
      as [F [-> HF]].
    unfold ids in *. simpl. rewrite map_ids; [exact Hres |].
    intros p Hp. apply HF, Hp.
  - apply foulUpdater_map in Ef as [F [-> HF]].
    unfold ids in *. simpl. rewrite map_ids; [exact Hres |].
    intros p _. apply HF.
  - unfold ids in *. simpl. rewrite map_ids; [exact Hok |].
    intros p _. now destruct (is_current g p).
  - unfold ids in *. simpl. rewrite map_ids by reflexivity.
    destruct (players g) as [| p0 rest] eqn:E.
    + destruct Hwf as [_ Hcount _ _]. rewrite E in Hcount.
      unfold JS.length in Hcount. simpl in Hcount. lia.
    + now left.
  - unfold ids in *. simpl. rewrite map_app, in_app_iff. now left.
  - apply removeUpdater_players in Er as [Hpl [[Hne Hc] | [He (q & Hq & Hc)]]].
    + unfold ids. rewrite Hc, Hpl.
      apply in_map_iff in Hres as [p [Hp Hin]].
      apply in_map_iff. exists p. split; [exact Hp |].
      apply filter_In. split; [exact Hin |].
      apply negb_true_iff, Z.eqb_neq. congruence.
    + unfold ids. rewrite Hc. now apply in_map.
  - unfold ids in *. simpl. rewrite map_ids; [exact Hres |].
    intros p _. now destruct (id p =? i).
Qed.

Lemma live_initial : app_all live initialApp.
Proof.
  destruct wf_initial as (Hg & _ & _).
  split; [| split; constructor].
  split; [exact Hg |]. unfold resolves, ids. simpl. now left.
Qed.

(** In a live state no handler throws on what the panels and buttons of the
    component can ask for. *)
Lemma exec_defined (op : operation) (a : App) :
  live (gameState a) -> op_ok from_panel op a -> exists a', exec op a = Some a'.
Proof.
  intros [Hwf Hres] Hok. unfold op_ok in Hok.
  destruct op; simpl; eauto.
  - apply In_ids in Hres as (k & cur & Hk & Hc).
    assert (Hlen : (2 <= List.length (players (gameState a)))%nat).
    { destruct Hwf as [_ Hcount _ _]. unfold JS.length in Hcount. lia. }
    destruct (foulUpdater_at (gameState a) penaltyValue k cur
                (wf_ids _ Hwf) Hlen Hk Hc) as (nxt & _ & _ & _ & Hf).
    unfold handleFoul. rewrite Hf. eauto.
  - unfold handleRemovePlayer.
    destruct (Z.leb_spec (JS.length (players (gameState a))) 2) as [H2 | H2];
      [eauto |].
    specialize (Hok _ eq_refl). simpl in Hok.
    apply In_ids in Hok as (k & p & Hk & <-).
    assert (Hlen : (3 <= List.length (players (gameState a)))%nat)
      by (unfold JS.length in H2; lia).
    destruct (removeUpdater_at (gameState a) k p (wf_ids _ Hwf) Hlen Hk)
      as (q & _ & _ & Hr).
    rewrite Hr. eauto.
Qed.

Lemma exec_all_defined (ops : list operation) (a : App) :
  pending a = [] -> app_all live a -> ops_ok from_panel ops a ->
  exists a', exec_all ops a = Some a' /\ app_all live a'.
Proof.
  revert a. induction ops as [| op rest IH]; simpl; intros a Hpd Ha Hok.
  - eauto.
  - destruct Hok as [Ho Hrest].
    destruct (exec_defined op a (proj1 Ha) Ho) as [a1 E1]. rewrite E1.
    apply IH; [exact (exec_pending_idle op a a1 Hpd E1) | | auto].
    exact (exec_preserves live from_panel transition_live op a a1 Hpd Ha Ho E1).
Qed.

(** ** The player count *)

(** C5.  From the initial state, whatever sequence of operations has been
    carried out, the number of players is between 2 and 8.  With 8 players
    addPlayer, and with 2 players removePlayer, return the application state
    as it is: same game state, same undo log. *)
Theorem player_count_invariant :
  (forall (ops : list operation) (a : App),
      exec_all ops initialApp = Some a ->
      2 <= JS.length (players (gameState a)) <= 8) /\
  (forall a : App,
      JS.length (players (gameState a)) = 8 -> exec addPlayer a = Some a) /\
  (forall (a : App) (i : Z),
      JS.length (players (gameState a)) = 2 -> exec (removePlayer i) a = Some a).
Proof.
  split; [| split].
  - intros ops a E. destruct (exec_all_wf ops a E) as (Hg & _ & _).
    exact (wf_count _ Hg).
  - intros a H. simpl. unfold handleAddPlayer. rewrite H. reflexivity.
  - intros a i H. simpl. unfold handleRemovePlayer. rewrite H. reflexivity.
Qed.

(** The same bound for every run of events, delayed timer callbacks
    included. *)
Lemma run_player_count (es : list event) (a : App) :
  run es initialApp = Some a -> 2 <= JS.length (players (gameState a)) <= 8.
Proof.
  intros E. destruct (run_wf es a E) as (Hg & _ & _). exact (wf_count _ Hg).
Qed.

Lemma run_app (es1 es2 : list event) (a : App) :
  run (es1 ++ es2) a
  = match run es1 a with
    | Some a' => run es2 a'
    | None => None
    end.
Proof.
  revert a. induction es1 as [| e rest IH]; simpl; intros a; [reflexivity |].
  destruct (step e a); [apply IH | reflexivity].
Qed.

(** An operation is its events. *)
Lemma exec_events (op : operation) (a : App) :
  exec op a = run (events_of op) a.
Proof.
  destruct op; simpl;
    try (match goal with |- ?x = _ => destruct x; reflexivity end);
    reflexivity.
Qed.

(** A sequence of operations is the run of its events. *)
Lemma exec_all_events (ops : list operation) (a : App) :
  exec_all ops a = run (flat_map events_of ops) a.
Proof.
  revert a. induction ops as [| op rest IH]; simpl; intros a; [reflexivity |].
  rewrite run_app, <- (exec_events op a).
  destruct (exec op a) as [a1 |] eqn:E; [| reflexivity].
  apply IH.
Qed.

(** ** newGame *)

(** C6.  newGame gives every player score 0, break 0 and no rank, and keeps
    the players' ids and names, their number and their order; the current
    player becomes the first player of that list (id 1 if there were no
    player at all); the undo log becomes empty, and an undo right after
    changes nothing. *)
Theorem newGame_resets (a : App) :
  exists g' : GameState,
    exec newGame a = Some (mkApp g' [] (pending a)) /\
    players g'
      = map (fun p => mkPlayer (id p) (name p) 0 0 None) (players (gameState a)) /\
    map id (players g') = map id (players (gameState a)) /\
    map name (players g') = map name (players (gameState a)) /\
    List.length (players g') = List.length (players (gameState a)) /\
    Forall (fun p => score p = 0 /\ break p = 0 /\ rank p = None) (players g') /\
    currentPlayerId g' = hd 1 (ids g') /\
    exec undo (mkApp g' [] (pending a)) = Some (mkApp g' [] (pending a)).
Proof.
  exists (newGameUpdater (gameState a)).
  split; [reflexivity |].
  split; [reflexivity |]. simpl.
  split; [rewrite map_map; reflexivity |].
  split; [rewrite map_map; reflexivity |].
  split; [apply length_map |].
  split.
  { apply Forall_forall. intros p Hp.
    apply in_map_iff in Hp as [p0 [<- _]]. simpl. auto. }
  split; [unfold ids; simpl; now destruct (players (gameState a)) |].
  reflexivity.
Qed.

(** ** selectPlayer *)

(** C8, as far as the code goes.  Selecting the current player changes
    nothing.  Selecting any other id, whether or not a player has it, saves
    the previous state, makes that id the current one, and sets to 0 the
    break of the player(s) whose id was current; every other player and
    every other field is unchanged. *)
Theorem selectPlayer_changes_turn (a : App) (i : Z) :
  (i = currentPlayerId (gameState a) -> exec (selectPlayer i) a = Some a) /\
  (i <> currentPlayerId (gameState a) ->
   exists g' : GameState,
     exec (selectPlayer i) a
       = Some (mkApp g' (history a ++ [gameState a]) (pending a)) /\
     currentPlayerId g' = i /\
     List.length (players g') = List.length (players (gameState a)) /\
     forall k,
       nth_error (players g') k
       = option_map
           (fun p => if id p =? currentPlayerId (gameState a)
                     then mkPlayer (id p) (name p) (score p) 0 (rank p)
                     else p)
           (nth_error (players (gameState a)) k)).
Proof.
  simpl. unfold handlePlayerSelect. split.
  - intros ->. now rewrite Z.eqb_refl.
  - intros Hne.
    destruct (Z.eqb_spec i (currentPlayerId (gameState a))); [contradiction |].
    eexists. split; [reflexivity |]. simpl.
    split; [reflexivity |].
    split; [apply length_map |].
    intros k. now rewrite nth_error_map.
Qed.

(** ** renamePlayer *)

Lemma trimStart_spec (s : jsstring) :
  exists l,
    s = l ++ trimStart s /\ forallb is_whitespace l = true /\
    match trimStart s with
    | c :: _ => is_whitespace c = false
    | [] => True
    end.
Proof.
  induction s as [| c r (l & E & Hl & Hhd)]; simpl.
  - exists []. auto.
  - destruct (is_whitespace c) eqn:Ec.
    + exists (c :: l). simpl. rewrite Ec, Hl. split; [congruence | auto].
    + exists []. auto.
Qed.

(** [trim s] is [s] without a run of white space at the start and one at
    the end, and it neither starts nor ends with white space. *)
Lemma trim_spec (s : jsstring) :
  exists l r,
    s = l ++ trim s ++ r /\
    forallb is_whitespace l = true /\ forallb is_whitespace r = true /\
    match trim s with
    | c :: _ => is_whitespace c = false
    | [] => True
    end /\
    match rev (trim s) with
    | c :: _ => is_whitespace c = false
    | [] => True
    end.
Proof.
  unfold trim, trimEnd.
  destruct (trimStart_spec s) as (l & El & Hl & Hhd).
  destruct (trimStart_spec (rev (trimStart s))) as (r & Er & Hr & Hlast).
  set (m := trimStart (rev (trimStart s))) in *.
  assert (Em : trimStart s = rev m ++ rev r).
  { rewrite <- (rev_involutive (trimStart s)), Er, rev_app_distr. reflexivity. }
  exists l, (rev r).
  split; [rewrite <- Em; exact El |].
  split; [exact Hl |].
  split.
  { rewrite forallb_forall in *. intros x Hx. apply Hr. now apply in_rev. }
  split.
  - destruct (rev m) as [| c t] eqn:Erm; [exact I |].
    rewrite Em in Hhd. exact Hhd.
  - rewrite rev_involutive. exact Hlast.
Qed.

(** C10.  In a state with pairwise distinct player ids, renaming the player
    at index [k] with an input that is empty once trimmed changes nothing:
    the name stays, nothing is saved.  Otherwise the previous state is
    saved and that player's name becomes the trimmed input, with the
    player's other fields, the other players and [currentPlayerId] as they
    were. *)
Theorem renamePlayer_trims
  (a : App) (i : Z) (newName : jsstring) (k : nat) (p : Player) :
  NoDup (ids (gameState a)) ->
  nth_error (players (gameState a)) k = Some p ->
  id p = i ->
  (trim newName = [] -> exec (renamePlayer i newName) a = Some a) /\
  (trim newName <> [] ->
   exists g' : GameState,
     exec (renamePlayer i newName) a
       = Some (mkApp g' (history a ++ [gameState a]) (pending a)) /\
     currentPlayerId g' = currentPlayerId (gameState a) /\
     nth_error (players g') k
       = Some (mkPlayer (id p) (trim newName) (score p) (break p) (rank p)) /\
     players g'
       = update_at k (with_name (trim newName)) (players (gameState a))).
Proof.
  intros Hnd Hk Hi. subst i. simpl. unfold handleNameUpdate. split.
  - intros ->. reflexivity.
  - intros Hne.
    destruct (trim newName) as [| c t] eqn:Et; [contradiction |]. simpl.
    eexists. split; [reflexivity |]. simpl.
    split; [reflexivity |].
    rewrite (map_only_at (fun q => id q =? id p) _ _ k)
      by (now apply NoDup_ids_only_at).
    split; [| reflexivity].
    rewrite nth_error_update_at, Nat.eqb_refl, Hk. reflexivity.
Qed.

(** ** Ranks *)



(** What an operation does to the game state. *)
Lemma exec_transition (op : operation) (a a' : App) :
  pending a = [] ->
  exec op a = Some a' -> op <> undo ->
  gameState a' = gameState a \/
  exists m, op_mutation op = Some m /\ transition m (gameState a) (gameState a').
Proof.
  intros Hpd E Hop.
  destruct op; try rewrite (exec_applyPot_idle _ _ Hpd) in E; simpl in E.
  - injection E as <-. destruct (existsb _ _); [| now left].
    right. eexists. split; [reflexivity |]. simpl. constructor.
  - unfold handleFoul in E.
    destruct (foulUpdater penaltyValue (gameState a)) as [g |] eqn:Ef;
      [| discriminate].
    injection E as <-. right. eexists. split; [reflexivity |].
    now constructor.
  - injection E as <-. unfold handlePlayerSelect.
    destruct (Z.eqb_spec i (currentPlayerId (gameState a))); [now left |].
    right. eexists. split; [reflexivity |]. now constructor.
  - injection E as <-. unfold handleAddPlayer.
    destruct (Z.leb_spec 8 (JS.length (players (gameState a)))); [now left |].
    right. eexists. split; [reflexivity |]. now constructor.
  - unfold handleRemovePlayer in E.
    destruct (Z.leb_spec (JS.length (players (gameState a))) 2).
    + injection E as <-. now left.
    + destruct (removeUpdater i (gameState a)) as [g |] eqn:Er; [| discriminate].
      injection E as <-. right. eexists. split; [reflexivity |].
      constructor; [lia | exact Er].
  - injection E as <-. unfold handleNameUpdate.
    destruct (truthy (trim newName)); [| now left].
    right. eexists. split; [reflexivity |]. constructor.
  - injection E as <-. right. eexists. split; [reflexivity |]. constructor.
  - contradiction.
Qed.


(** *** Contiguity, as long as no ranked player is removed *)









(** ** Player ids *)

(** C9, as far as the code goes.  In every state reached from the initial
    state by operations the player ids are pairwise distinct.  With fewer
    than 8 players, and ids small enough for one more to be exact,
    addPlayer saves the previous state and appends one player whose id is
    one more than the largest id present (1 when there is no player), so
    larger than every id present. *)
Theorem ids_distinct_and_largest_plus_one :
  (forall (ops : list operation) (a : App),
      exec_all ops initialApp = Some a -> NoDup (ids (gameState a))) /\
  (forall a : App,
      JS.length (players (gameState a)) < 8 ->
      exact_ids (gameState a) ->
      exists newPlayer : Player,
        exec addPlayer a
          = Some (mkApp (mkGameState (players (gameState a) ++ [newPlayer])
                                     (currentPlayerId (gameState a)))
                        (history a ++ [gameState a]) (pending a)) /\
        ((ids (gameState a) = [] /\ id newPlayer = 1) \/
         In (id newPlayer - 1) (ids (gameState a))) /\
        (forall x, In x (ids (gameState a)) -> x < id newPlayer)).
Proof.
  split.
  - intros ops a E. destruct (exec_all_wf ops a E) as (Hg & _ & _).
    exact (wf_ids _ Hg).
  - intros a Hlt _. simpl. unfold handleAddPlayer.
    destruct (Z.leb_spec 8 (JS.length (players (gameState a)))); [lia |].
    eexists. split; [reflexivity |]. unfold ids. simpl.
    destruct (map id (players (gameState a))) as [| x xs].
    + split; [now left | intros y []].
    + split.
      * right. replace (Math_max x xs + 1 - 1) with (Math_max x xs) by lia.
        apply Math_max_In.
      * intros y Hy. apply Math_max_ge in Hy. lia.
Qed.

(** C9: the id of a removed player comes back.  With players 1, 2, 3,
    removing player 3 and adding a player creates a player 3 again. *)
Lemma removed_id_is_reused : id_reused [addPlayer] [] 3.
Proof.
  unfold id_reused. do 4 eexists.
  split; [vm_compute; reflexivity |].
  split; [vm_compute; auto |].
  split; [vm_compute; reflexivity |].
  split; [vm_compute; intuition discriminate |].
  split; [vm_compute; reflexivity |].
  split; [vm_compute; intuition discriminate |].
  split; [vm_compute; reflexivity |].
  vm_compute. auto.
Qed.

(** C8: an id that no player has is not refused.  After a pot of 4 by
    player 1, selecting id 99 resets the break, makes 99 the current id and
    saves a snapshot. *)
Lemma selectPlayer_unknown_id_is_selected :
  exists a a' : App,
    exec_all [applyPot 4] initialApp = Some a /\
    ~ In 99 (ids (gameState a)) /\
    exec (selectPlayer 99) a = Some a' /\
    a' <> a /\
    currentPlayerId (gameState a') = 99 /\
    map break (players (gameState a)) = [4; 0] /\
    map break (players (gameState a')) = [0; 0] /\
    List.length (history a') = S (List.length (history a)).
Proof.
  do 2 eexists.
  split; [vm_compute; reflexivity |].
  split; [vm_compute; intuition discriminate |].
  split; [vm_compute; reflexivity |].
  split; [discriminate |].
  repeat split.
Qed.

(** * The theorems at work on the scenarios *)

Lemma NoDup_ids_two : NoDup [1; 2].
Proof. repeat constructor; simpl; intuition discriminate. Defined.

Lemma NoDup_ids_three : NoDup [1; 2; 3].
Proof. repeat constructor; simpl; intuition discriminate. Defined.

(** Four pots of 4, then a foul of 4: player 2 has 4 points, player 1 keeps
    16 points with a break of 0 and remains at the table. *)
Lemma applyFoul_awards_next_player_witness :
  NoDup (ids (gameState after_four_pots)) /\
  (2 <= List.length (players (gameState after_four_pots)))%nat /\
  nth_error (players (gameState after_four_pots)) 0
    = Some (mkPlayer 1 (of_string "Player 1") 16 16 None) /\
  nth_error (players (gameState after_four_pots)) 1 = Some initialPlayer2 /\
  exact_sum (score initialPlayer2) 4 /\
  exists g' : GameState,
    exec (applyFoul 4) after_four_pots
      = Some (mkApp g' (history after_four_pots ++ [gameState after_four_pots])
                    []) /\
    map score (players g') = [16; 4] /\
    map break (players g') = [0; 0] /\
    currentPlayerId g' = 1.
Proof.
  assert (Hnd : NoDup (ids (gameState after_four_pots))) by exact NoDup_ids_two.
  assert (Hlen : (2 <= List.length (players (gameState after_four_pots)))%nat)
    by (simpl; lia).
  assert (Hi : nth_error (players (gameState after_four_pots)) 0
               = Some (mkPlayer 1 (of_string "Player 1") 16 16 None))
    by reflexivity.
  assert (Hx : exact_sum (score initialPlayer2) 4)
    by (unfold exact_sum, safe_integer; simpl; lia).
  split; [exact Hnd |]. split; [exact Hlen |]. split; [exact Hi |].
  split; [reflexivity |]. split; [exact Hx |].
  destruct (applyFoul_awards_next_player after_four_pots 4 0%nat _
              Hnd Hlen Hi eq_refl)
    as (nxt & g' & _ & _ & He & Hc & _ & _ & Hp).
  { intros nxt E. change (Some initialPlayer2 = Some nxt) in E.
    injection E as <-. exact Hx. }
  exists g'. split; [exact He |].
  rewrite Hp, Hc. repeat split.
Defined.

(** Player 1 holds rank 1; player 2 has a break of 98 and pots a 2: player 2
    has 100 points, a break of 100 and rank 2. *)
Lemma applyPot_scores_and_ranks_witness :
  pending second_at_98 = [] /\
  NoDup (ids (gameState second_at_98)) /\
  map rank (players (gameState second_at_98)) = [Some 1; None] /\
  nth_error (players (gameState second_at_98)) 1
    = Some (mkPlayer 2 (of_string "Player 2") 98 98 None) /\
  exact_sum 98 2 /\
  exists (p1 cur' : Player) (g' : GameState),
    exec (applyPot 2) second_at_98
      = Some (mkApp g' (history second_at_98 ++ [gameState second_at_98]) []) /\
    players (gameState second_at_98)
      = [p1; mkPlayer 2 (of_string "Player 2") 98 98 None] /\
    players g' = [p1; cur'] /\
    score cur' = 100 /\ break cur' = 100 /\ rank cur' = Some 2.
Proof.
  assert (Hnd : NoDup (ids (gameState second_at_98))) by exact NoDup_ids_two.
  assert (Hi : nth_error (players (gameState second_at_98)) 1
               = Some (mkPlayer 2 (of_string "Player 2") 98 98 None))
    by reflexivity.
  assert (Hx : exact_sum 98 2) by (unfold exact_sum, safe_integer; lia).
  assert (Hrk : exact_ranks (gameState second_at_98)).
  { intros p r [<- | [<- | []]] E; simpl in E; [| discriminate].
    injection E as <-. unfold exact_sum, safe_integer. lia. }
  split; [reflexivity |]. split; [exact Hnd |]. split; [reflexivity |].
  split; [exact Hi |]. split; [exact Hx |].
  destruct (applyPot_scores_and_ranks second_at_98 2 1%nat _
              eq_refl Hnd Hi eq_refl Hx Hx Hrk)
    as (cur' & g' & _ & He & _ & Hp & _ & _ & Hs & Hb & Hr & _ & _).
  eexists. exists cur', g'.
  split; [exact He |]. split; [reflexivity |]. split; [exact Hp |].
  split; [exact Hs |]. split; [exact Hb |].
  destruct Hr as (r & Hr & Hn); [simpl; lia | reflexivity |].
  rewrite Hr. f_equal.
  destruct Hn as [[Hno _] | [(p & Hin & Hrp) _]].
  - exfalso. apply (Hno 1). eexists. split; [left; reflexivity | reflexivity].
  - destruct Hin as [<- | [<- | []]]; simpl in Hrp; [| discriminate].
    injection Hrp as E. lia.
Defined.

(** Players 1, 2, 3 with player 3 at the table: removing player 3 leaves
    players 1 and 2 and passes the turn to player 1. *)
Lemma removePlayer_removes_and_passes_turn_witness :
  NoDup (ids (gameState third_player_active)) /\
  (3 <= List.length (players (gameState third_player_active)))%nat /\
  nth_error (players (gameState third_player_active)) 2
    = Some (mkPlayer 3 (of_string "Player 3") 0 0 None) /\
  exists g' : GameState,
    exec (removePlayer 3) third_player_active
      = Some (mkApp g' (history third_player_active
                        ++ [gameState third_player_active]) []) /\
    players g' = [initialPlayer1; initialPlayer2] /\
    currentPlayerId g' = 1.
Proof.
  assert (Hnd : NoDup (ids (gameState third_player_active)))
    by exact NoDup_ids_three.
  assert (Hlen : (3 <= List.length (players (gameState third_player_active)))%nat)
    by (simpl; lia).
  assert (Hi : nth_error (players (gameState third_player_active)) 2
               = Some (mkPlayer 3 (of_string "Player 3") 0 0 None))
    by reflexivity.
  split; [exact Hnd |]. split; [exact Hlen |]. split; [exact Hi |].
  destruct (removePlayer_removes_and_passes_turn third_player_active 3 2%nat _
              Hnd Hlen Hi eq_refl)
    as (g' & q & He & Hp & Hq & _ & Hc).
  exists g'. split; [exact He |]. split; [exact Hp |].
  rewrite Hc, Hp in *. simpl in Hq. injection Hq as <-. reflexivity.
Defined.

(** A pot from the initial state, undone. *)
Example undo_of_a_single_pot :
  pending initialApp = [] /\
  recorded (applyPot 4) = true /\
  rejected (applyPot 4) initialApp = false /\
  exists a' : App,
    exec (applyPot 4) initialApp = Some a' /\
    a' <> initialApp /\
    exec undo a' = Some initialApp.
Proof.
  split; [reflexivity |]. split; [reflexivity |]. split; [reflexivity |].
  eexists. split; [reflexivity |]. split; [discriminate |].
  apply (undo_inverts_when_idle (applyPot 4) initialApp); reflexivity.
Qed.

Lemma player_count_invariant_witness :
  exists a : App,
    exec_all [addPlayer; addPlayer; removePlayer 1; applyFoul 4] initialApp
      = Some a /\
    2 <= JS.length (players (gameState a)) <= 8.
Proof.
  eexists. split; [reflexivity |].
  apply (proj1 player_count_invariant
           [addPlayer; addPlayer; removePlayer 1; applyFoul 4]).
  reflexivity.
Defined.


(** Player 1 at the table with a break of 16; player 2 is selected. *)
Lemma selectPlayer_changes_turn_witness :
  2 <> currentPlayerId (gameState after_four_pots) /\
  exists g' : GameState,
    exec (selectPlayer 2) after_four_pots
      = Some (mkApp g' (history after_four_pots ++ [gameState after_four_pots])
                    []) /\
    currentPlayerId g' = 2 /\
    nth_error (players g') 0
      = Some (mkPlayer 1 (of_string "Player 1") 16 0 None) /\
    nth_error (players g') 1 = Some initialPlayer2.
Proof.
  assert (Hne : 2 <> currentPlayerId (gameState after_four_pots))
    by discriminate.
  split; [exact Hne |].
  destruct (proj2 (selectPlayer_changes_turn after_four_pots 2) Hne)
    as (g' & He & Hc & _ & Hk).
  exists g'. split; [exact He |]. split; [exact Hc |].
  rewrite !Hk. split; reflexivity.
Defined.

(** After add, remove 3, add the ids are distinct; and from the initial
    state, where the ids are 1 and 2, addPlayer creates id 3. *)
Lemma ids_distinct_and_largest_plus_one_witness :
  (exists a : App,
      exec_all [addPlayer; removePlayer 3; addPlayer] initialApp = Some a /\
      NoDup (ids (gameState a))) /\
  JS.length (players (gameState initialApp)) < 8 /\
  exact_ids (gameState initialApp) /\
  exists newPlayer : Player,
    exec addPlayer initialApp
      = Some (mkApp (mkGameState [initialPlayer1; initialPlayer2; newPlayer] 1)
                    [initialGameState] []) /\
    id newPlayer = 3.
Proof.
  assert (Hx : exact_ids (gameState initialApp)).
  { intros p [<- | [<- | []]]; unfold exact_sum, safe_integer; simpl; lia. }
  split; [| split; [reflexivity | split; [exact Hx |]]].
  - eexists. split; [reflexivity |].
    apply (proj1 ids_distinct_and_largest_plus_one
             [addPlayer; removePlayer 3; addPlayer]).
    reflexivity.
  - destruct (proj2 ids_distinct_and_largest_plus_one initialApp
                ltac:(reflexivity) Hx)
      as (newPlayer & He & [[E _] | Hin] & Hmax).
    + discriminate E.
    + exists newPlayer. split; [exact He |].
      pose proof (Hmax 2 ltac:(simpl; auto)) as H2.
      simpl in Hin. destruct Hin as [E | [E | []]]; lia.
Defined.

(** Player 1 renamed with blanks around the name, and with blanks only. *)
Lemma renamePlayer_trims_witness :
  NoDup (ids (gameState initialApp)) /\
  nth_error (players (gameState initialApp)) 0 = Some initialPlayer1 /\
  trim (of_string "   ") = [] /\
  trim (of_string "  Bob ") <> [] /\
  exec (renamePlayer 1 (of_string "   ")) initialApp = Some initialApp /\
  exists g' : GameState,
    exec (renamePlayer 1 (of_string "  Bob ")) initialApp
      = Some (mkApp g' [initialGameState] []) /\
    map name (players g') = [of_string "Bob"; of_string "Player 2"].
Proof.
  assert (Hnd : NoDup (ids (gameState initialApp))) by exact NoDup_ids_two.
  assert (Hblank : trim (of_string "   ") = []) by reflexivity.
  assert (Hbob : trim (of_string "  Bob ") <> []) by discriminate.
  split; [exact Hnd |]. split; [reflexivity |].
  split; [exact Hblank |]. split; [exact Hbob |].
  split.
  - apply (proj1 (renamePlayer_trims initialApp 1 (of_string "   ") 0%nat
                    initialPlayer1 Hnd eq_refl eq_refl) Hblank).
  - destruct (proj2 (renamePlayer_trims initialApp 1 (of_string "  Bob ") 0%nat
                       initialPlayer1 Hnd eq_refl eq_refl) Hbob)
      as (g' & He & _ & _ & Hp).
    exists g'. split; [exact He |]. rewrite Hp. reflexivity.
Defined.

(** * Further properties of the store *)

(** ** Undoing several operations *)

(** X1.  From a state with no timer callback pending: when every operation
    of a sequence is carried out, as many undos as there were operations
    give back exactly the application state the sequence started from. *)
Theorem undo_reverts_sequence (ops : list operation) (a a' : App) :
  pending a = [] ->
  all_carried_out ops a ->
  exec_all ops a = Some a' ->
  Nat.iter (List.length ops) handleUndo a' = a.
Proof.
  revert a. induction ops as [| op rest IH]; simpl; intros a Hpd Hc E.
  - now injection E as <-.
  - destruct Hc as (Hrec & Hrej & Hrest).
    destruct (exec op a) as [a1 |] eqn:E1; [| discriminate].
    rewrite (IH a1 (exec_pending_idle op a a1 Hpd E1) (Hrest a1 eq_refl) E).
    destruct (recorded_saves op a a1 Hpd Hrec Hrej E1) as [Hh Hp].
    destruct a1 as [g1 h1 pd1]. simpl in Hh, Hp. subst h1 pd1.
    rewrite handleUndo_after_save. now destruct a.
Qed.

Lemma undo_reverts_sequence_witness :
  pending initialApp = [] /\
  all_carried_out [applyPot 4; applyFoul 4; addPlayer; selectPlayer 3] initialApp /\
  exists a' : App,
    exec_all [applyPot 4; applyFoul 4; addPlayer; selectPlayer 3] initialApp
      = Some a' /\
    a' <> initialApp /\
    Nat.iter 4 handleUndo a' = initialApp.
Proof.
  assert (Hc : all_carried_out
                 [applyPot 4; applyFoul 4; addPlayer; selectPlayer 3] initialApp).
  { simpl. do 2 (split; [reflexivity |]). intros a1 E1.
    injection E1 as <-. do 2 (split; [reflexivity |]). intros a2 E2.
    injection E2 as <-. do 2 (split; [reflexivity |]). intros a3 E3.
    injection E3 as <-. do 2 (split; [reflexivity |]). intros a4 _. exact I. }
  split; [reflexivity |]. split; [exact Hc |].
  eexists. split; [reflexivity |]. split; [discriminate |].
  apply (undo_reverts_sequence
           [applyPot 4; applyFoul 4; addPlayer; selectPlayer 3] initialApp).
  - reflexivity.
  - exact Hc.
  - reflexivity.
Defined.

(** ** Points *)

Lemma update_at_same {A} (l : list A) (k : nat) (x : A) :
  nth_error l k = Some x -> update_at k (fun _ => x) l = l.
Proof.
  revert k. induction l as [| y r IH]; intros [| k'] Hk; simpl in *;
    try discriminate.
  - congruence.
  - f_equal. now apply IH.
Qed.

Lemma update_at_twice {A} (l : list A) (k : nat) (x y : A) :
  update_at k (fun _ => y) (update_at k (fun _ => x) l)
  = update_at k (fun _ => y) l.
Proof.
  revert k. induction l as [| z r IH]; intros [| k']; simpl; try reflexivity.
  f_equal. apply IH.
Qed.

Lemma map_update_at {A B} (g : A -> B) (f : A -> A) (l : list A) (k : nat) (x : A) :
  nth_error l k = Some x -> g (f x) = g x -> map g (update_at k f l) = map g l.
Proof.
  revert k. induction l as [| y r IH]; intros [| k'] Hk E; simpl in *;
    try discriminate.
  - congruence.
  - f_equal. now apply IH.
Qed.

Lemma sumZ_app (l1 l2 : list Z) : sumZ (l1 ++ l2) = sumZ l1 + sumZ l2.
Proof.
  unfold sumZ. induction l1 as [| x r IH]; simpl; [reflexivity |].
  rewrite IH. apply Z.add_assoc.
Qed.

Lemma sumZ_score_update_at (f : Player -> Player) (l : list Player)
      (k : nat) (x : Player) :
  nth_error l k = Some x ->
  sumZ (map score (update_at k f l))
  = sumZ (map score l) + (score (f x) - score x).
Proof.
  unfold sumZ.
  revert k. induction l as [| y r IH]; intros [| k'] Hk; simpl in *;
    try discriminate.
  - injection Hk as ->. lia.
  - rewrite (IH k' Hk). lia.
Qed.

Lemma potUpdater_at (g : GameState) (pts : Z) (i : nat) (cur : Player) :
  NoDup (ids g) ->
  nth_error (players g) i = Some cur ->
  id cur = currentPlayerId g ->
  potUpdater pts g
  = mkGameState (update_at i (fun _ => after_pot pts g cur) (players g))
                (currentPlayerId g).
Proof.
  intros Hnd Hi Hc.
  pose proof (NoDup_ids_only_at _ i cur Hnd Hi) as Ho.
  assert (Ho' : only_at (is_current g) (players g) i).
  { intros j q Hj. unfold is_current. rewrite <- Hc. apply (Ho j q Hj). }
  unfold potUpdater.
  rewrite (find_only_at _ _ i cur Ho' Hi).
  rewrite (map_only_at (is_current g) _ _ i Ho').
  now rewrite (update_at_same_at _ (fun _ => after_pot pts g cur) _ i cur Hi).
Qed.

Lemma exec_applyPot_at (a : App) (pts : Z) (i : nat) (cur : Player) :
  pending a = [] ->
  NoDup (ids (gameState a)) ->
  nth_error (players (gameState a)) i = Some cur ->
  id cur = currentPlayerId (gameState a) ->
  exec (applyPot pts) a
  = Some (mkApp (mkGameState
                   (update_at i (fun _ => after_pot pts (gameState a) cur)
                              (players (gameState a)))
                   (currentPlayerId (gameState a)))
                (history a ++ [gameState a]) (pending a)).
Proof.
  intros Hpd Hnd Hi Hc. rewrite (exec_applyPot_idle pts a Hpd).
  rewrite (existsb_is_current (gameState a) cur (nth_error_In _ _ Hi) Hc).
  unfold potTimeout, saveToHistory. simpl.
  now rewrite (potUpdater_at _ pts i cur Hnd Hi Hc).
Qed.

(** X2.  A run of pots by the player at the table adds up: with no timer
    callback pending, pairwise distinct ids and the current player [cur] at
    index [i], and when each addition to the score and to the break is
    exact, potting the values of [pots] one after the other leaves at index
    [i] a player with the same id and name whose score and break have each
    grown by the sum of [pots]; nobody else changes, the turn does not
    change, and the undo log has grown by one entry per pot. *)
Theorem pots_add_up (pots : list Z) (a : App) (i : nat) (cur : Player) :
  pending a = [] ->
  NoDup (ids (gameState a)) ->
  nth_error (players (gameState a)) i = Some cur ->
  id cur = currentPlayerId (gameState a) ->
  exact_sums (score cur) pots ->
  exact_sums (break cur) pots ->
  exists (a' : App) (cur' : Player),
    exec_all (map applyPot pots) a = Some a' /\
    players (gameState a')
      = update_at i (fun _ => cur') (players (gameState a)) /\
    currentPlayerId (gameState a') = currentPlayerId (gameState a) /\
    id cur' = id cur /\ name cur' = name cur /\
    score cur' = score cur + sumZ pots /\
    break cur' = break cur + sumZ pots /\
    List.length (history a') = (List.length (history a) + List.length pots)%nat.
Proof.
  revert a cur.
  induction pots as [| p rest IH]; intros a cur Hpd Hnd Hi Hc Hxs Hxb.
  - exists a, cur. simpl.
    rewrite (update_at_same _ i cur Hi). repeat split; lia.
  - cbn [map exec_all]. rewrite (exec_applyPot_at a p i cur Hpd Hnd Hi Hc).
    set (c1 := after_pot p (gameState a) cur).
    set (a1 := mkApp _ _ _).
    assert (Hi1 : nth_error (players (gameState a1)) i = Some c1).
    { simpl. rewrite nth_error_update_at, Nat.eqb_refl, Hi. reflexivity. }
    assert (Hnd1 : NoDup (ids (gameState a1))).
    { unfold ids. simpl.
      now rewrite (map_update_at id (fun _ => c1) _ i cur Hi eq_refl). }
    destruct (IH a1 c1 Hpd Hnd1 Hi1 Hc (proj2 Hxs) (proj2 Hxb))
      as (a' & cur' & E & Hp & Hcur & Hid & Hname & Hs & Hb & Hh).
    exists a', cur'.
    split; [exact E |].
    split; [rewrite Hp; simpl; apply update_at_twice |].
    split; [rewrite Hcur; reflexivity |].
    split; [rewrite Hid; reflexivity |].
    split; [rewrite Hname; reflexivity |].
    split; [rewrite Hs; simpl; lia |].
    split; [rewrite Hb; simpl; lia |].
    rewrite Hh. simpl. rewrite length_app. simpl. lia.
Qed.

(** Seven blacks by player 1 from the initial state. *)
Lemma pots_add_up_witness :
  pending initialApp = [] /\
  NoDup (ids (gameState initialApp)) /\
  nth_error (players (gameState initialApp)) 0 = Some initialPlayer1 /\
  exact_sums 0 [7; 7; 7; 7; 7; 7; 7] /\
  exists (a' : App) (cur' : Player),
    exec_all (map applyPot [7; 7; 7; 7; 7; 7; 7]) initialApp = Some a' /\
    players (gameState a') = [cur'; initialPlayer2] /\
    score cur' = 49 /\ break cur' = 49 /\
    List.length (history a') = 7%nat.
Proof.
  assert (Hnd : NoDup (ids (gameState initialApp))) by exact NoDup_ids_two.
  assert (Hx : exact_sums 0 [7; 7; 7; 7; 7; 7; 7])
    by (unfold exact_sums, exact_sum, safe_integer; lia).
  split; [reflexivity |]. split; [exact Hnd |]. split; [reflexivity |].
  split; [exact Hx |].
  destruct (pots_add_up [7; 7; 7; 7; 7; 7; 7] initialApp 0%nat initialPlayer1
              eq_refl Hnd eq_refl eq_refl Hx Hx)
    as (a' & cur' & E & Hp & _ & _ & _ & Hs & Hb & Hh).
  exists a', cur'. repeat split; assumption.
Defined.

Lemma exec_live (op : operation) (a a' : App) :
  pending a = [] ->
  live (gameState a) -> op <> undo -> op_ok from_panel op a ->
  exec op a = Some a' -> live (gameState a').
Proof.
  intros Hpd Hl Hun Hok E.
  destruct (exec_transition op a a' Hpd E Hun) as [-> | (m & Hm & T)];
    [exact Hl |].
  exact (transition_live m _ _ (Hok m Hm) T Hl).
Qed.

Lemma exec_total_score (op : operation) (a a' : App) :
  pending a = [] ->
  live (gameState a) -> keeps_points op -> exec op a = Some a' ->
  total_score (gameState a') = total_score (gameState a) + points_of op.
Proof.
  intros Hpd [Hwf Hres] Hk E. unfold total_score.
  pose proof (wf_ids _ Hwf) as Hnd.
  apply In_ids in Hres as (k & cur & Hk' & Hc).
  destruct op; simpl in Hk; try contradiction; simpl points_of.
  - rewrite (exec_applyPot_at a pts k cur Hpd Hnd Hk' Hc) in E.
    injection E as <-. simpl.
    rewrite (sumZ_score_update_at _ _ k cur Hk'). simpl. lia.
  - assert (Hlen : (2 <= List.length (players (gameState a)))%nat).
    { destruct Hwf as [_ Hcount _ _]. unfold JS.length in Hcount. lia. }
    destruct (foulUpdater_at (gameState a) penaltyValue k cur Hnd Hlen Hk' Hc)
      as (nxt & Hne & _ & Hj & Hf).
    simpl in E. unfold handleFoul in E. rewrite Hf in E.
    injection E as <-. simpl.
    rewrite (sumZ_score_update_at _ _ _ nxt).
    + rewrite (sumZ_score_update_at _ _ k cur Hk'). simpl. lia.
    + rewrite nth_error_update_at.
      destruct (Nat.eqb_spec ((k + 1) mod List.length (players (gameState a))) k);
        [contradiction | exact Hj].
  - simpl in E. injection E as <-. unfold handlePlayerSelect.
    destruct (i =? currentPlayerId (gameState a)); [lia |]. simpl.
    rewrite map_map.
    rewrite (map_ext _ score); [lia |].
    intros p. now destruct (is_current (gameState a) p).
  - simpl in E. injection E as <-. unfold handleAddPlayer.
    destruct (8 <=? JS.length (players (gameState a))); [lia |]. simpl.
    rewrite map_app, sumZ_app. simpl. lia.
  - simpl in E. injection E as <-. unfold handleNameUpdate.
    destruct (truthy (trim newName)); [| lia]. simpl.
    rewrite map_map.
    rewrite (map_ext _ score); [lia |].
    intros p. now destruct (id p =? i).
Qed.

Lemma exec_all_total_score (ops : list operation) (a a' : App) :
  pending a = [] ->
  live (gameState a) ->
  Forall keeps_points ops ->
  ops_ok from_panel ops a ->
  exec_all ops a = Some a' ->
  total_score (gameState a')
  = total_score (gameState a) + sumZ (map points_of ops).
Proof.
  revert a. induction ops as [| op rest IH]; simpl; intros a Hpd Hl Hk Hok E.
  - injection E as <-. unfold sumZ. simpl. lia.
  - inversion Hk as [| ? ? Hop Hrest]; subst.
    destruct Hok as [Ho Hoks].
    destruct (exec op a) as [a1 |] eqn:E1; [| discriminate].
    assert (Hun : op <> undo) by (intros ->; exact Hop).
    rewrite (IH a1 (exec_pending_idle op a a1 Hpd E1)
                (exec_live op a a1 Hpd Hl Hun Ho E1) Hrest (Hoks a1 eq_refl) E).
    rewrite (exec_total_score op a a1 Hpd Hl Hop E1).
    unfold sumZ. simpl. lia.
Qed.

(** X3.  No point is lost or invented.  From a well-formed state with no
    timer callback pending and whose current player exists, a sequence of
    pots, fouls, player selections, renamings and additions asked for
    through the panels, with values and scores that are not negative and
    add up exactly, changes the sum of all scores by exactly the sum of the
    potted and penalty values. *)
Theorem points_are_conserved (ops : list operation) (a a' : App) :
  pending a = [] ->
  live (gameState a) ->
  exact_points ops (gameState a) ->
  Forall keeps_points ops ->
  ops_ok from_panel ops a ->
  exec_all ops a = Some a' ->
  total_score (gameState a')
  = total_score (gameState a) + sumZ (map points_of ops).
Proof.
  intros Hpd Hl _. now apply exec_all_total_score.
Qed.

Lemma points_are_conserved_witness :
  pending initialApp = [] /\
  live (gameState initialApp) /\
  exact_points [applyPot 4; applyFoul 5; selectPlayer 2; applyPot 7; addPlayer]
               (gameState initialApp) /\
  Forall keeps_points
         [applyPot 4; applyFoul 5; selectPlayer 2; applyPot 7; addPlayer] /\
  ops_ok from_panel
         [applyPot 4; applyFoul 5; selectPlayer 2; applyPot 7; addPlayer]
         initialApp /\
  exists a' : App,
    exec_all [applyPot 4; applyFoul 5; selectPlayer 2; applyPot 7; addPlayer]
             initialApp = Some a' /\
    total_score (gameState a') = 16.
Proof.
  assert (Hl : live (gameState initialApp)) by exact (proj1 live_initial).
  assert (Hk : Forall keeps_points
                 [applyPot 4; applyFoul 5; selectPlayer 2; applyPot 7; addPlayer])
    by (repeat constructor).
  assert (Hok : ops_ok from_panel
                  [applyPot 4; applyFoul 5; selectPlayer 2; applyPot 7; addPlayer]
                  initialApp).
  { simpl. split; [intros m [= <-]; exact I |]. intros a1 E1. injection E1 as <-.
    split; [intros m [= <-]; exact I |]. intros a2 E2. injection E2 as <-.
    split; [intros m [= <-]; simpl; auto |]. intros a3 E3. injection E3 as <-.
    split; [intros m [= <-]; exact I |]. intros a4 E4. injection E4 as <-.
    split; [intros m [= <-]; exact I |]. intros a5 _. exact I. }
  assert (Hx : exact_points
                 [applyPot 4; applyFoul 5; selectPlayer 2; applyPot 7; addPlayer]
                 (gameState initialApp)).
  { split; [repeat constructor; simpl; lia |].
    split; [intros p [<- | [<- | []]]; simpl; lia |].
    split; [vm_compute; split; reflexivity |].
    intros p [<- | [<- | []]]; unfold exact_sum, safe_integer; simpl; lia. }
  split; [reflexivity |]. split; [exact Hl |]. split; [exact Hx |].
  split; [exact Hk |]. split; [exact Hok |].
  eexists. split; [vm_compute; reflexivity |].
  etransitivity;
    [apply (points_are_conserved
              [applyPot 4; applyFoul 5; selectPlayer 2; applyPot 7; addPlayer]
              initialApp _ eq_refl Hl Hx Hk Hok);
     vm_compute; reflexivity
    | reflexivity].
Defined.

(** ** Invariants of the players' fields *)

Lemma potUpdater_shape (pts : Z) (g : GameState) :
  exists F,
    potUpdater pts g = mkGameState (map F (players g)) (currentPlayerId g) /\
    forall p,
      F p = p \/
      (id p = currentPlayerId g /\
       exists cur,
         find (is_current g) (players g) = Some cur /\
         F p = mkPlayer (id p) (name p) (score p + pts) (break cur + pts)
                        (logical_or (rank p) (newRankForPlayer pts g cur))).
Proof.
  unfold potUpdater.
  destruct (find (is_current g) (players g)) as [cur |] eqn:Hfind.
  - eexists. split; [reflexivity |].
    intros p. cbv beta. destruct (is_current g p) eqn:Ec; [| now left].
    right. unfold is_current in Ec. apply Z.eqb_eq in Ec. eauto.
  - exists (fun p => p). split; [rewrite map_id; now destruct g | now left].
Qed.

Lemma potUpdater_shape_wf (pts : Z) (g : GameState) :
  NoDup (ids g) ->
  exists F,
    potUpdater pts g = mkGameState (map F (players g)) (currentPlayerId g) /\
    forall p, In p (players g) ->
      F p = p \/ (id p = currentPlayerId g /\ F p = after_pot pts g p).
Proof.
  intros Hnd. destruct (potUpdater_shape pts g) as (F & E & HF).
  exists F. split; [exact E |].
  intros p Hp. destruct (HF p) as [H | (Hc & cur & Hfind & H)]; [now left |].
  right. split; [exact Hc |].
  apply find_some in Hfind as [Hcin Hcur].
  unfold is_current in Hcur. apply Z.eqb_eq in Hcur.
  assert (p = cur) by (apply (NoDup_ids_same _ p cur Hnd Hp Hcin); congruence).
  subst cur. exact H.
Qed.

Lemma foulUpdater_shape (v : Z) (g g' : GameState) :
  foulUpdater v g = Some g' ->
  exists F,
    g' = mkGameState (map F (players g)) (currentPlayerId g) /\
    forall p,
      F p = add_score v p \/
      (id p = currentPlayerId g /\ F p = with_break 0 p) \/
      F p = p.
Proof.
  unfold foulUpdater.
  destruct (JS.rem _ _) as [k |]; [| discriminate].
  destruct (at_index _ _) as [nxt |]; [| discriminate].
  intros E. injection E as <-.
  eexists. split; [reflexivity |].
  intros p. cbv beta.
  destruct (id p =? id nxt); [now left |].
  destruct (is_current g p) eqn:Ec; [| now right; right].
  right. left. unfold is_current in Ec. apply Z.eqb_eq in Ec. auto.
Qed.

Lemma all_players_map (Q : Player -> Prop) (F : Player -> Player)
      (g : GameState) (c' : Z) :
  all_players Q g ->
  (forall p, In p (players g) -> Q p -> Q (F p)) ->
  all_players Q (mkGameState (map F (players g)) c').
Proof.
  intros HQ HF p' Hp'. simpl in Hp'.
  apply in_map_iff in Hp' as [p [<- Hp]]. auto.
Qed.

Lemma transition_sound (m : mutation) (g g' : GameState) :
  nonneg_values m g -> transition m g g' -> sound g -> sound g'.
Proof.
  intros Hok T [Hwf Hs].
  split; [exact (transition_wf m g g' I T Hwf) |].
  destruct T as
    [pts g | v g g' Ef | i g Hne | g | g Hlt | i g g' Hgt Er | i s g];
    simpl in Hok.
  - destruct (potUpdater_shape_wf pts g (wf_ids g Hwf)) as (F & -> & HF).
    apply all_players_map; [exact Hs |].
    intros p Hp [Hb Hr]. destruct (HF p Hp) as [-> | [_ ->]]; [now split |].
    unfold sound_player, after_pot. simpl. split; [lia |].
    destruct (rank p) as [r |] eqn:Er.
    + intros _. assert (100 <= score p) by (apply Hr; discriminate). lia.
    + simpl.
      destruct (newRankForPlayer_cases pts g p) as [-> | (Hge & _ & _)];
        [congruence | intros _; lia].
  - apply foulUpdater_shape in Ef as (F & -> & HF).
    apply all_players_map; [exact Hs |].
    intros p _ [Hb Hr]. destruct (HF p) as [-> | [[_ ->] | ->]];
      unfold sound_player, add_score, with_score, with_break; simpl.
    + split; [lia |]. intros H. specialize (Hr H). lia.
    + split; [lia | exact Hr].
    + now split.
  - apply all_players_map; [exact Hs |].
    intros p _ [Hb Hr]. destruct (is_current g p); [| now split].
    unfold sound_player, with_break. simpl. split; [lia | exact Hr].
  - apply all_players_map; [exact Hs |].
    intros p _ _. unfold sound_player. simpl. split; [lia | congruence].
  - intros p Hp. simpl in Hp. apply in_app_iff in Hp as [Hp | [<- | []]].
    + now apply Hs.
    + unfold sound_player. simpl. split; [lia | congruence].
  - apply removeUpdater_players in Er as [Hpl _].
    intros p Hp. rewrite Hpl in Hp. apply filter_In in Hp as [Hp _].
    now apply Hs.
  - apply all_players_map; [exact Hs |].
    intros p _ Hp. now destruct (id p =? i).
Qed.

Lemma transition_centuries (m : mutation) (g g' : GameState) :
  any_mutation m g -> transition m g g' ->
  centuries_ranked g -> centuries_ranked g'.
Proof.
  intros _ T [Hwf Hs].
  split; [exact (transition_wf m g g' I T Hwf) |].
  destruct T as
    [pts g | v g g' Ef | i g Hne | g | g Hlt | i g g' Hgt Er | i s g].
  - destruct (potUpdater_shape_wf pts g (wf_ids g Hwf)) as (F & -> & HF).
    apply all_players_map; [exact Hs |].
    intros p Hp Hc. destruct (HF p Hp) as [-> | [_ ->]]; [exact Hc |].
    unfold century_has_rank, after_pot. simpl. intros Hb.
    destruct (rank p) as [r |] eqn:Er.
    + simpl. pose proof (wf_positive g Hwf p r Hp Er).
      destruct (Z.eqb_spec r 0); [lia | discriminate].
    + simpl. unfold newRankForPlayer. rewrite Er.
      destruct (Z.leb_spec 100 (break p + pts)); [| lia]. simpl.
      destruct (existingRanks g); discriminate.
  - apply foulUpdater_shape in Ef as (F & -> & HF).
    apply all_players_map; [exact Hs |].
    intros p _ Hc. destruct (HF p) as [-> | [[_ ->] | ->]];
      unfold century_has_rank, add_score, with_score, with_break in *; simpl;
      [exact Hc | lia | exact Hc].
  - apply all_players_map; [exact Hs |].
    intros p _ Hc. destruct (is_current g p); [| exact Hc].
    unfold century_has_rank, with_break. simpl. lia.
  - apply all_players_map; [exact Hs |].
    intros p _ _. unfold century_has_rank. simpl. lia.
  - intros p Hp. simpl in Hp. apply in_app_iff in Hp as [Hp | [<- | []]].
    + now apply Hs.
    + unfold century_has_rank. simpl. lia.
  - apply removeUpdater_players in Er as [Hpl _].
    intros p Hp. rewrite Hpl in Hp. apply filter_In in Hp as [Hp _].
    now apply Hs.
  - apply all_players_map; [exact Hs |].
    intros p _ Hp. now destruct (id p =? i).
Qed.

Lemma transition_idle (m : mutation) (g g' : GameState) :
  any_mutation m g -> transition m g g' -> idle_breaks g -> idle_breaks g'.
Proof.
  intros _ T Hidle. unfold idle_breaks in *.
  destruct T as
    [pts g | v g g' Ef | i g Hne | g | g Hlt | i g g' Hgt Er | i s g].
  - destruct (potUpdater_shape pts g) as (F & -> & HF). simpl.
    intros p' Hp' Hne. apply in_map_iff in Hp' as [p [<- Hp]].
    destruct (HF p) as [E | (Hc & cur & _ & E)]; rewrite E in *; simpl in *.
    + now apply Hidle.
    + contradiction.
  - apply foulUpdater_shape in Ef as (F & -> & HF). simpl.
    intros p' Hp' Hne. apply in_map_iff in Hp' as [p [<- Hp]].
    destruct (HF p) as [E | [[_ E] | E]]; rewrite E in *; simpl in *;
      auto.
  - simpl. intros p' Hp' _. apply in_map_iff in Hp' as [p [<- Hp]].
    destruct (is_current g p) eqn:Ec; [reflexivity |].
    apply Hidle; [exact Hp |].
    unfold is_current in Ec. now apply Z.eqb_neq.
  - simpl. intros p' Hp' _. apply in_map_iff in Hp' as [p [<- Hp]]. reflexivity.
  - simpl. intros p Hp Hne. apply in_app_iff in Hp as [Hp | [<- | []]];
      [now apply Hidle | reflexivity].
  - apply removeUpdater_players in Er as [Hpl Hcur].
    intros p Hp Hne. rewrite Hpl in Hp. apply filter_In in Hp as [Hp Hf].
    apply negb_true_iff, Z.eqb_neq in Hf.
    apply Hidle; [exact Hp |].
    destruct Hcur as [[_ Ec] | [Ec _]]; congruence.
  - simpl. intros p' Hp' Hne. apply in_map_iff in Hp' as [p [<- Hp]].
    destruct (id p =? i); simpl in *; now apply Hidle.
Qed.

Lemma step_pending (Q : PotTimer -> Prop) (e : event) (a a' : App) :
  Forall Q (pending a) ->
  (forall pts, e = PotClick pts -> Q (mkPotTimer pts (gameState a))) ->
  step e a = Some a' -> Forall Q (pending a').
Proof.
  intros Hp Hclick E. destruct e; simpl in E.
  - injection E as <-. unfold handlePot. destruct (existsb _ _); [| exact Hp].
    simpl. apply Forall_app. split; [exact Hp |].
    constructor; [now apply Hclick | constructor].
  - injection E as <-. unfold timerFires.
    destruct (pending a) as [| t rest] eqn:Ep; [now rewrite Ep |].
    simpl. now inversion Hp.
  - unfold handleFoul in E. destruct (foulUpdater _ _); [| discriminate].
    now injection E as <-.
  - injection E as <-. unfold handlePlayerSelect. now destruct (_ =? _).
  - injection E as <-. unfold handleUndo.
    destruct (_ <? _); [| exact Hp]. now destruct (at_index _ _).
  - now injection E as <-.
  - injection E as <-. unfold handleAddPlayer. now destruct (_ <=? _).
  - unfold handleRemovePlayer in E. destruct (_ <=? _).
    + now injection E as <-.
    + destruct (removeUpdater _ _); [| discriminate]. now injection E as <-.
  - injection E as <-. unfold handleNameUpdate. now destruct (truthy _).
Qed.

Lemma trace_ok_nonneg (es : list event) (a : App) :
  Forall nonneg_event es ->
  Forall (fun t => 0 <= points t) (pending a) ->
  trace_ok nonneg_values es a.
Proof.
  revert a. induction es as [| e rest IH]; simpl; intros a He Hp; [exact I |].
  inversion He as [| ? ? He1 Hrest]; subst. split.
  - intros m Hm. destruct e; simpl in Hm; try discriminate;
      try (injection Hm as <-; simpl; auto; fail).
    destruct (pending a) as [| t r]; [discriminate |].
    injection Hm as <-. simpl. now inversion Hp.
  - intros a' E. apply IH; [exact Hrest |].
    apply (step_pending _ e a a' Hp); [| exact E].
    intros pts ->. exact He1.
Qed.

Lemma sound_initial : app_all sound initialApp.
Proof.
  destruct wf_initial as (Hg & _ & _).
  split; [| split; constructor].
  split; [exact Hg |]. intros p Hp. simpl in Hp.
  destruct Hp as [<- | [<- | []]]; unfold sound_player; simpl;
    (split; [lia | congruence]).
Qed.

Lemma centuries_initial : app_all centuries_ranked initialApp.
Proof.
  destruct wf_initial as (Hg & _ & _).
  split; [| split; constructor].
  split; [exact Hg |]. intros p Hp. simpl in Hp.
  destruct Hp as [<- | [<- | []]]; unfold century_has_rank; simpl; lia.
Qed.

Lemma idle_initial : app_all idle_breaks initialApp.
Proof.
  split; [| split; constructor].
  intros p Hp _. simpl in Hp. destruct Hp as [<- | [<- | []]]; reflexivity.
Qed.

(** X4.  Whatever events have run, delayed timer callbacks included, as
    long as no negative value was potted or given as a penalty: every
    player's break is between 0 and the player's score, and every player
    with a rank has at least 100 points. *)
Theorem breaks_and_scores_are_sound (es : list event) (a : App) :
  Forall nonneg_event es ->
  run es initialApp = Some a ->
  all_players sound_player (gameState a).
Proof.
  intros He E.
  assert (H : app_all sound a).
  { apply (run_preserves sound nonneg_values transition_sound es initialApp a);
      [exact sound_initial | | exact E].
    apply trace_ok_nonneg; [exact He | constructor]. }
  exact (proj2 (proj1 H)).
Qed.

Lemma breaks_and_scores_are_sound_witness :
  Forall nonneg_event
         [PotClick 7; FoulClick 4; PotTimerFires; PanelClick 2; UndoClick] /\
  exists a : App,
    run [PotClick 7; FoulClick 4; PotTimerFires; PanelClick 2; UndoClick]
        initialApp = Some a /\
    all_players sound_player (gameState a).
Proof.
  assert (He : Forall nonneg_event
                 [PotClick 7; FoulClick 4; PotTimerFires; PanelClick 2;
                  UndoClick]).
  { repeat constructor; simpl; lia. }
  split; [exact He |].
  eexists. split; [reflexivity |].
  apply (breaks_and_scores_are_sound
           [PotClick 7; FoulClick 4; PotTimerFires; PanelClick 2; UndoClick]).
  - exact He.
  - reflexivity.
Defined.

(** X5.  Whatever events have run, a player whose break is 100 or more has
    a rank. *)
Theorem century_break_has_rank (es : list event) (a : App) :
  run es initialApp = Some a ->
  all_players century_has_rank (gameState a).
Proof.
  intros E.
  assert (H : app_all centuries_ranked a).
  { apply (run_preserves centuries_ranked any_mutation transition_centuries
             es initialApp a);
      [exact centuries_initial | apply trace_ok_any | exact E]. }
  exact (proj2 (proj1 H)).
Qed.

Lemma century_break_has_rank_witness :
  exists a : App,
    run (flat_map events_of (repeat (applyPot 7) 15)) initialApp = Some a /\
    all_players century_has_rank (gameState a) /\
    map break (players (gameState a)) = [105; 0] /\
    map rank (players (gameState a)) = [Some 1; None].
Proof.
  eexists. split; [vm_compute; reflexivity |].
  split.
  - apply (century_break_has_rank (flat_map events_of (repeat (applyPot 7) 15))).
    vm_compute. reflexivity.
  - split; reflexivity.
Defined.

(** X6.  Whatever events have run, only the player whose id is
    [currentPlayerId] can have a break other than 0. *)
Theorem only_current_player_has_break (es : list event) (a : App) :
  run es initialApp = Some a -> idle_breaks (gameState a).
Proof.
  intros E.
  exact (proj1 (run_preserves idle_breaks any_mutation transition_idle
                  es initialApp a idle_initial (trace_ok_any es initialApp) E)).
Qed.

Lemma only_current_player_has_break_witness :
  exists a : App,
    run [PotClick 7; PotTimerFires; PotClick 5; PanelClick 2; PotTimerFires]
        initialApp = Some a /\
    idle_breaks (gameState a) /\
    map break (players (gameState a)) = [0; 5] /\
    currentPlayerId (gameState a) = 2.
Proof.
  eexists. split; [reflexivity |].
  split.
  - apply (only_current_player_has_break
             [PotClick 7; PotTimerFires; PotClick 5; PanelClick 2; PotTimerFires]).
    reflexivity.
  - split; reflexivity.
Defined.

(** ** Names *)

Lemma trimStart_fixed (s : jsstring) :
  match s with c :: _ => is_whitespace c = false | [] => True end ->
  trimStart s = s.
Proof.
  destruct s as [| c r]; simpl; [reflexivity |]. now intros ->.
Qed.

Lemma trim_fixed (s : jsstring) :
  match s with c :: _ => is_whitespace c = false | [] => True end ->
  match rev s with c :: _ => is_whitespace c = false | [] => True end ->
  trim s = s.
Proof.
  intros Hhd Hlast. unfold trim, trimEnd.
  rewrite (trimStart_fixed s Hhd), (trimStart_fixed (rev s) Hlast).
  apply rev_involutive.
Qed.

Lemma trim_idempotent (s : jsstring) : trim (trim s) = trim s.
Proof.
  destruct (trim_spec s) as (l & r & _ & _ & _ & Hhd & Hlast).
  now apply trim_fixed.
Qed.

Lemma truthy_nonempty (s : jsstring) : truthy s = true <-> s <> [].
Proof.
  destruct s; simpl; split; congruence.
Qed.

Lemma string_of_uint_no_whitespace (d : Decimal.uint) :
  Forall (fun c => is_whitespace c = false)
         (of_string (NilEmpty.string_of_uint d)).
Proof.
  induction d; simpl; constructor; try reflexivity; assumption.
Qed.

Lemma number_toString_no_whitespace (n : Z) :
  number_toString n <> [] /\
  Forall (fun c => is_whitespace c = false) (number_toString n).
Proof.
  unfold number_toString.
  assert (Hu : forall d,
             of_string (NilZero.string_of_uint d) <> [] /\
             Forall (fun c => is_whitespace c = false)
                    (of_string (NilZero.string_of_uint d))).
  { intros d. pose proof (string_of_uint_no_whitespace d) as H.
    destruct d; simpl in *; split; try discriminate; try exact H.
    repeat constructor. }
  destruct (Z.to_int n) as [d | d]; simpl.
  - apply Hu.
  - split; [discriminate |]. constructor; [reflexivity | apply Hu].
Qed.

Lemma default_name_is_trimmed (n : Z) :
  of_string "Player " ++ number_toString n <> [] /\
  trim (of_string "Player " ++ number_toString n)
  = of_string "Player " ++ number_toString n.
Proof.
  split; [discriminate |].
  apply trim_fixed; [reflexivity |].
  destruct (number_toString_no_whitespace n) as [Hne Hall].
  rewrite rev_app_distr.
  apply Forall_rev in Hall.
  destruct (rev (number_toString n)) as [| c r] eqn:Er.
  - exfalso. apply Hne.
    rewrite <- (rev_involutive (number_toString n)), Er. reflexivity.
  - simpl. now inversion Hall.
Qed.

Lemma transition_named (m : mutation) (g g' : GameState) :
  trimmed_names m g -> transition m g g' ->
  all_players named g -> all_players named g'.
Proof.
  intros Hok T Hs.
  destruct T as
    [pts g | v g g' Ef | i g Hne | g | g Hlt | i g g' Hgt Er | i s g];
    simpl in Hok.
  - destruct (potUpdater_shape pts g) as (F & -> & HF).
    apply all_players_map; [exact Hs |].
    intros p _ Hp. destruct (HF p) as [-> | (_ & cur & _ & ->)]; exact Hp.
  - apply foulUpdater_shape in Ef as (F & -> & HF).
    apply all_players_map; [exact Hs |].
    intros p _ Hp. destruct (HF p) as [-> | [[_ ->] | ->]]; exact Hp.
  - apply all_players_map; [exact Hs |].
    intros p _ Hp. now destruct (is_current g p).
  - apply all_players_map; [exact Hs |]. intros p _ Hp. exact Hp.
  - intros p Hp. simpl in Hp. apply in_app_iff in Hp as [Hp | [<- | []]].
    + now apply Hs.
    + unfold named. simpl. apply default_name_is_trimmed.
  - apply removeUpdater_players in Er as [Hpl _].
    intros p Hp. rewrite Hpl in Hp. apply filter_In in Hp as [Hp _].
    now apply Hs.
  - apply all_players_map; [exact Hs |].
    intros p _ Hp. destruct (id p =? i); [| exact Hp]. exact Hok.
Qed.

Lemma step_named (e : event) (a a' : App) :
  app_all (all_players named) a -> step e a = Some a' ->
  app_all (all_players named) a'.
Proof.
  intros Ha E.
  assert (Hgen : event_ok trimmed_names e a -> app_all (all_players named) a').
  { intros Hok.
    exact (step_preserves _ trimmed_names transition_named e a a' Ha Hok E). }
  destruct e; try (apply Hgen; intros m Hm; simpl in Hm;
                   try discriminate;
                   try (destruct (pending a); [discriminate |]);
                   injection Hm as <-; exact I).
  simpl in E. unfold handleNameUpdate in E.
  destruct (truthy (trim name0)) eqn:Et.
  - apply Hgen. intros m Hm. simpl in Hm. injection Hm as <-. simpl.
    split; [now apply truthy_nonempty | apply trim_idempotent].
  - now injection E as <-.
Qed.

Lemma named_initial : app_all (all_players named) initialApp.
Proof.
  split; [| split; constructor].
  intros p Hp. simpl in Hp.
  destruct Hp as [<- | [<- | []]]; split; try discriminate; reflexivity.
Qed.

(** X7.  Whatever events have run, no player has an empty name or a name
    that starts or ends with white space. *)
Theorem names_are_never_blank (es : list event) (a : App) :
  run es initialApp = Some a -> all_players named (gameState a).
Proof.
  intros E.
  assert (H : forall a0, app_all (all_players named) a0 ->
                         run es a0 = Some a -> app_all (all_players named) a).
  { clear E. induction es as [| e rest IH]; simpl; intros a0 Ha0 E.
    - now injection E as <-.
    - destruct (step e a0) as [a1 |] eqn:E1; [| discriminate].
      apply (IH a1); [| exact E]. exact (step_named e a0 a1 Ha0 E1). }
  exact (proj1 (H initialApp named_initial E)).
Qed.

Lemma names_are_never_blank_witness :
  exists a : App,
    run [AddPlayerClick;
         NameInputDone 1 (of_string "  Ronnie ");
         NameInputDone 2 (of_string "   ")] initialApp = Some a /\
    all_players named (gameState a) /\
    map name (players (gameState a))
    = [of_string "Ronnie"; of_string "Player 2"; of_string "Player 3"].
Proof.
  eexists. split; [vm_compute; reflexivity |].
  split.
  - apply (names_are_never_blank
             [AddPlayerClick;
              NameInputDone 1 (of_string "  Ronnie ");
              NameInputDone 2 (of_string "   ")]).
    vm_compute. reflexivity.
  - reflexivity.
Defined.

(** ** What the panels can and cannot cause *)

Lemma step_defined (e : event) (a : App) :
  live (gameState a) -> event_ok from_panel e a ->
  exists a', step e a = Some a'.
Proof.
  intros Hl Hok. unfold event_ok in Hok.
  destruct e; simpl; eauto.
  - apply (exec_defined (applyFoul foulValue) a Hl).
    intros m Hm. apply Hok. exact Hm.
  - apply (exec_defined (removePlayer idToRemove) a Hl).
    intros m Hm. apply Hok. exact Hm.
Qed.

Lemma run_defined (es : list event) (a : App) :
  app_all live a -> trace_ok from_panel es a ->
  exists a', run es a = Some a' /\ app_all live a'.
Proof.
  revert a. induction es as [| e rest IH]; simpl; intros a Ha Hok.
  - eauto.
  - destruct Hok as [He Hrest].
    destruct (step_defined e a (proj1 Ha) He) as [a1 E1]. rewrite E1.
    apply IH; [| auto].
    exact (step_preserves live from_panel transition_live e a a1 Ha He E1).
Qed.

Lemma filter_all_false {A} (f : A -> bool) (l : list A) :
  (forall x, In x l -> f x = false) -> filter f l = [].
Proof.
  induction l as [| x r IH]; simpl; intros H; [reflexivity |].
  rewrite (H x (or_introl eq_refl)). apply IH. intros y Hy. apply H. now right.
Qed.

Lemma one_player_per_id (l : list Player) (c : Z) :
  NoDup (map id l) -> In c (map id l) ->
  List.length (filter (fun p => id p =? c) l) = 1%nat.
Proof.
  induction l as [| p r IH]; simpl; intros Hnd Hin; [destruct Hin |].
  inversion Hnd as [| ? ? Hp Hr]; subst.
  destruct (Z.eqb_spec (id p) c) as [E | E].
  - simpl. f_equal.
    rewrite (filter_all_false _ r); [reflexivity |].
    intros q Hq. apply Z.eqb_neq. intros Eq. apply Hp.
    rewrite E, <- Eq. now apply in_map.
  - destruct Hin as [Hin | Hin]; [contradiction |]. now apply IH.
Qed.

(** X8.  As long as every panel click, removal and renaming concerns a
    player that exists when it happens, no handler throws, whatever the
    order of the events and of the delayed timer callbacks; and in the
    state reached there is exactly one player whose id is
    [currentPlayerId]: exactly one panel is shown as active. *)
Theorem panel_driven_runs_never_throw (es : list event) :
  trace_ok from_panel es initialApp ->
  exists a : App,
    run es initialApp = Some a /\
    List.length (filter (is_current (gameState a)) (players (gameState a)))
    = 1%nat.
Proof.
  intros Hok.
  destruct (run_defined es initialApp live_initial Hok) as (a & E & Ha).
  exists a. split; [exact E |].
  destruct Ha as ([Hwf Hres] & _ & _).
  exact (one_player_per_id _ _ (wf_ids _ Hwf) Hres).
Qed.

Lemma panel_driven_runs_never_throw_witness :
  trace_ok from_panel
           [AddPlayerClick; PanelClick 3; PotClick 7; RemoveClick 3;
            PotTimerFires; FoulClick 4]
           initialApp /\
  exists a : App,
    run [AddPlayerClick; PanelClick 3; PotClick 7; RemoveClick 3;
         PotTimerFires; FoulClick 4] initialApp = Some a /\
    List.length (filter (is_current (gameState a)) (players (gameState a)))
    = 1%nat.
Proof.
  assert (Hok : trace_ok from_panel
                  [AddPlayerClick; PanelClick 3; PotClick 7; RemoveClick 3;
                   PotTimerFires; FoulClick 4]
                  initialApp).
  { simpl. split; [intros m [= <-]; exact I |]. intros a1 E1. injection E1 as <-.
    split; [intros m [= <-]; simpl; auto |]. intros a2 E2. injection E2 as <-.
    split; [intros m [=] |]. intros a3 E3. injection E3 as <-.
    split; [intros m [= <-]; simpl; auto |]. intros a4 E4. injection E4 as <-.
    split; [intros m [= <-]; exact I |]. intros a5 E5. injection E5 as <-.
    split; [intros m [= <-]; exact I |]. intros a6 _. exact I. }
  split; [exact Hok |].
  exact (panel_driven_runs_never_throw _ Hok).
Defined.

(** ** When a handler throws *)

Lemma findIndex_from_range {A} (f : A -> bool) (l : list A) (i : Z) :
  findIndex_from f l i = -1 \/
  i <= findIndex_from f l i < i + JS.length l.
Proof.
  unfold JS.length. revert i. induction l as [| x r IH]; intros i; simpl.
  - now left.
  - destruct (f x); [right; lia |].
    destruct (IH (i + 1)) as [H | H]; [now left | right; lia].
Qed.

Lemma at_index_in_range {A} (l : list A) (k : Z) :
  0 <= k < JS.length l -> exists x, at_index l k = Some x.
Proof.
  unfold at_index, JS.length. intros Hk.
  destruct (Z.ltb_spec k 0); [lia |].
  destruct (nth_error l (Z.to_nat k)) as [x |] eqn:E; [eauto |].
  apply nth_error_None in E. lia.
Qed.

Lemma foulUpdater_defined (v : Z) (g : GameState) :
  players g <> [] -> exists g', foulUpdater v g = Some g'.
Proof.
  intros Hne. unfold foulUpdater, findIndex.
  assert (Hn : 0 < JS.length (players g)).
  { unfold JS.length. destruct (players g); [contradiction | simpl; lia]. }
  pose proof (findIndex_from_range (is_current g) (players g) 0) as Hr.
  set (k := findIndex_from (is_current g) (players g) 0) in *.
  assert (Hk : 0 <= k + 1) by lia.
  unfold JS.rem.
  destruct (Z.eqb_spec (JS.length (players g)) 0) as [E | _]; [lia |].
  rewrite Z.rem_mod_nonneg by lia.
  destruct (at_index_in_range (players g) ((k + 1) mod JS.length (players g)))
    as [nxt ->]; [apply Z.mod_pos_bound; lia |].
  eauto.
Qed.

Lemma removeUpdater_absent_current (g : GameState) :
  2 < JS.length (players g) ->
  ~ In (currentPlayerId g) (ids g) ->
  removeUpdater (currentPlayerId g) g = None.
Proof.
  intros Hlen Habs. unfold removeUpdater.
  assert (Hf : forall q, In q (players g) ->
                         (id q =? currentPlayerId g) = false).
  { intros q Hq. apply Z.eqb_neq. intros E. apply Habs.
    unfold ids. rewrite <- E. now apply in_map. }
  rewrite Z.eqb_refl. unfold findIndex.
  rewrite (findIndex_from_none _ _ 0 Hf).
  rewrite (filter_none (fun q => id q =? currentPlayerId g) _ Hf).
  unfold JS.rem.
  destruct (Z.eqb_spec (JS.length (players g)) 0) as [E | _]; [lia |].
  assert (Hrem : Z.rem (-1) (JS.length (players g)) = -1).
  { change (-1) with (- (1)) at 1. rewrite Z.rem_opp_l by lia.
    rewrite Z.rem_small by lia. reflexivity. }
  rewrite Hrem. reflexivity.
Qed.

(** X9.  The two updaters that can throw.  A foul throws exactly when there
    is no player at all.  With pairwise distinct ids, removing a player
    throws exactly when there are more than two players and the id to
    remove is [currentPlayerId] while no player has that id. *)
Theorem handlers_throw_exactly_when :
  (forall (v : Z) (a : App),
      handleFoul v a = None <-> players (gameState a) = []) /\
  (forall (i : Z) (a : App),
      NoDup (ids (gameState a)) ->
      (handleRemovePlayer i a = None <->
       2 < JS.length (players (gameState a)) /\
       currentPlayerId (gameState a) = i /\
       ~ In i (ids (gameState a)))).
Proof.
  split.
  - intros v a. unfold handleFoul. split.
    + intros H. destruct (players (gameState a)) as [| p r] eqn:Ep;
        [reflexivity |].
      destruct (foulUpdater_defined v (gameState a)) as [g' Eg];
        [rewrite Ep; discriminate |].
      rewrite Eg in H. discriminate.
    + intros Ep. unfold foulUpdater. rewrite Ep. reflexivity.
  - intros i a Hnd. unfold handleRemovePlayer. split.
    + intros H.
      destruct (Z.leb_spec (JS.length (players (gameState a))) 2) as [Hle | Hgt];
        [discriminate |].
      split; [exact Hgt |].
      destruct (Z.eq_dec (currentPlayerId (gameState a)) i) as [Ec | Ec].
      * split; [exact Ec |]. intros Hin.
        apply In_ids in Hin as (k & p & Hk & <-).
        assert (Hlen : (3 <= List.length (players (gameState a)))%nat)
          by (unfold JS.length in Hgt; lia).
        destruct (removeUpdater_at (gameState a) k p Hnd Hlen Hk)
          as (q & _ & _ & Hr).
        rewrite Hr in H. discriminate.
      * exfalso. unfold removeUpdater in H.
        destruct (Z.eqb_spec (currentPlayerId (gameState a)) i);
          [contradiction | discriminate].
    + intros (Hgt & Ec & Habs). subst i.
      destruct (Z.leb_spec (JS.length (players (gameState a))) 2); [lia |].
      now rewrite removeUpdater_absent_current.
Qed.

(** Three players, id 99 selected although nobody has it: removing 99
    throws. *)
Lemma handlers_throw_exactly_when_witness :
  NoDup (ids (gameState three_players_no_current)) /\
  handleRemovePlayer 99 three_players_no_current = None /\
  exists a', handleRemovePlayer 3 three_players_no_current = Some a'.
Proof.
  assert (Hnd : NoDup (ids (gameState three_players_no_current)))
    by exact NoDup_ids_three.
  split; [exact Hnd |].
  split.
  - apply (proj2 handlers_throw_exactly_when 99 three_players_no_current Hnd).
    split; [reflexivity |]. split; [reflexivity |].
    simpl. intuition discriminate.
  - eexists. reflexivity.
Defined.

(** X10.  A foul while no player has the current id: with pairwise distinct
    ids, and when adding the penalty to the score of the first player of
    the list is exact, the penalty goes to that player, no break is reset,
    and the previous state is saved. *)
Theorem foul_without_current_player
  (a : App) (v : Z) (p0 : Player) (rest : list Player) :
  players (gameState a) = p0 :: rest ->
  NoDup (ids (gameState a)) ->
  ~ In (currentPlayerId (gameState a)) (ids (gameState a)) ->
  exact_sum (score p0) v ->
  handleFoul v a
  = Some (mkApp (mkGameState (add_score v p0 :: rest)
                             (currentPlayerId (gameState a)))
                (history a ++ [gameState a]) (pending a)).
Proof.
  intros Hps Hnd Habs _.
  assert (Hf : forall q, In q (players (gameState a)) ->
                         is_current (gameState a) q = false).
  { intros q Hq. apply Z.eqb_neq. intros E. apply Habs.
    rewrite <- E. now apply in_map. }
  unfold handleFoul, foulUpdater, findIndex.
  rewrite (findIndex_from_none _ _ 0 Hf).
  assert (Hrem : JS.rem (-1 + 1) (JS.length (players (gameState a))) = Some 0).
  { rewrite Hps. reflexivity. }
  rewrite Hrem.
  assert (Hat : at_index (players (gameState a)) 0 = Some p0)
    by (rewrite Hps; reflexivity).
  rewrite Hat. unfold saveToHistory. do 3 f_equal.
  unfold ids in Hnd. rewrite Hps in *. simpl. rewrite Z.eqb_refl.
  f_equal.
  inversion Hnd as [| ? ? Hp0 Hrest]; subst.
  rewrite <- (map_id rest) at 2. apply map_ext_in. intros q Hq.
  destruct (Z.eqb_spec (id q) (id p0)) as [E | _].
  - exfalso. apply Hp0. rewrite <- E. now apply in_map.
  - rewrite (Hf q (or_intror Hq)). reflexivity.
Qed.

Lemma foul_without_current_player_witness :
  NoDup (ids (gameState two_players_no_current)) /\
  ~ In (currentPlayerId (gameState two_players_no_current))
       (ids (gameState two_players_no_current)) /\
  exact_sum 4 4 /\
  exists a' : App,
    handleFoul 4 two_players_no_current = Some a' /\
    map score (players (gameState two_players_no_current)) = [4; 0] /\
    map score (players (gameState a')) = [8; 0] /\
    map break (players (gameState a')) = [0; 0] /\
    currentPlayerId (gameState a') = 99.
Proof.
  assert (Hnd : NoDup (ids (gameState two_players_no_current)))
    by exact NoDup_ids_two.
  assert (Habs : ~ In (currentPlayerId (gameState two_players_no_current))
                      (ids (gameState two_players_no_current)))
    by (simpl; intuition discriminate).
  assert (Hx : exact_sum 4 4) by (unfold exact_sum, safe_integer; lia).
  split; [exact Hnd |]. split; [exact Habs |]. split; [exact Hx |].
  eexists. split.
  - apply (foul_without_current_player two_players_no_current 4 _ _
             eq_refl Hnd Habs Hx).
  - repeat split.
Defined.

(** ** Undo steps that undo nothing, and undo steps that undo too much *)

Lemma with_name_same (p : Player) : with_name (name p) p = p.
Proof. now destruct p. Qed.

(** X11.  An operation that finds nothing to change still saves an undo
    step: renaming with a non-blank input whose trimmed text is already the
    name of every player with that id (in particular when no player has
    the id), and, with more than two players, removing an id that no player
    has and that is not the current one.  The game state stays as it is and
    a copy of it is appended to the undo log. *)
Theorem nothing_changed_but_undo_step_saved :
  (forall (a : App) (i : Z) (s : jsstring),
      trim s <> [] ->
      (forall p, In p (players (gameState a)) -> id p = i -> name p = trim s) ->
      exec (renamePlayer i s) a
      = Some (mkApp (gameState a) (history a ++ [gameState a]) (pending a))) /\
  (forall (a : App) (i : Z),
      2 < JS.length (players (gameState a)) ->
      i <> currentPlayerId (gameState a) ->
      ~ In i (ids (gameState a)) ->
      exec (removePlayer i) a
      = Some (mkApp (gameState a) (history a ++ [gameState a]) (pending a))).
Proof.
  split.
  - intros a i s Hne Hsame. simpl. unfold handleNameUpdate.
    rewrite (proj2 (truthy_nonempty _) Hne).
    unfold handleNameChange, saveToHistory, renameUpdater. do 2 f_equal.
    destruct (gameState a) as [ps c]. simpl in *. f_equal.
    rewrite <- (map_id ps) at 2. apply map_ext_in. intros p Hp.
    destruct (Z.eqb_spec (id p) i) as [E | _]; [| reflexivity].
    rewrite <- (Hsame p Hp E). apply with_name_same.
  - intros a i Hlen Hne Habs. simpl. unfold handleRemovePlayer.
    destruct (Z.leb_spec (JS.length (players (gameState a))) 2); [lia |].
    unfold removeUpdater.
    destruct (Z.eqb_spec (currentPlayerId (gameState a)) i); [congruence |].
    rewrite (filter_none (fun q => id q =? i)).
    + unfold saveToHistory. now destruct (gameState a).
    + intros q Hq. apply Z.eqb_neq. intros E. apply Habs.
      unfold ids. rewrite <- E. now apply in_map.
Qed.

(** Player 1 is renamed to the name it has, typed with blanks around it. *)
Lemma nothing_changed_but_undo_step_saved_witness :
  trim (of_string " Player 1 ") <> [] /\
  exec (renamePlayer 1 (of_string " Player 1 ")) initialApp
  = Some (mkApp initialGameState [initialGameState] []) /\
  exec (removePlayer 7) third_player_active
  = Some (mkApp (gameState third_player_active)
                (history third_player_active ++ [gameState third_player_active])
                []).
Proof.
  assert (Hne : trim (of_string " Player 1 ") <> []) by discriminate.
  split; [exact Hne |]. split.
  - apply (proj1 nothing_changed_but_undo_step_saved initialApp 1 _ Hne).
    intros p Hp E. simpl in Hp.
    destruct Hp as [<- | [<- | []]]; [reflexivity | discriminate].
  - apply (proj2 nothing_changed_but_undo_step_saved third_player_active 7).
    + reflexivity.
    + discriminate.
    + simpl. intuition discriminate.
Defined.

(** X12.  Two balls clicked before the timer of the first one has run, then
    both timers, then one undo: the undo takes back both pots, because each
    timer callback saves the state of its click.  The game state is the one
    before the first click, and the undo log still holds a copy of it. *)
Theorem two_quick_pots_one_undo (a : App) (p1 p2 : Z) :
  pending a = [] ->
  existsb (is_current (gameState a)) (players (gameState a)) = true ->
  run [PotClick p1; PotClick p2; PotTimerFires; PotTimerFires; UndoClick] a
  = Some (mkApp (gameState a) (history a ++ [gameState a]) []).
Proof.
  destruct a as [g h pd]. simpl. intros -> Hex.
  unfold handlePot. simpl. rewrite Hex. simpl. rewrite Hex. simpl.
  unfold timerFires. simpl. unfold potTimeout. simpl.
  f_equal. apply handleUndo_after_save.
Qed.

Lemma two_quick_pots_one_undo_witness :
  pending initialApp = [] /\
  existsb (is_current (gameState initialApp)) (players (gameState initialApp))
  = true /\
  run [PotClick 1; PotClick 7; PotTimerFires; PotTimerFires; UndoClick]
      initialApp
  = Some (mkApp initialGameState [initialGameState] []).
Proof.
  split; [reflexivity |]. split; [reflexivity |].
  apply (two_quick_pots_one_undo initialApp 1 7); reflexivity.
Defined.

(** ** Adding a player and removing it again *)

(** X13.  With pairwise distinct ids small enough for one more to be
    exact, between 2 and 7 players and a current player that exists, adding
    a player and then removing the player just added gives back the game
    state from before; the undo log has grown by the two states passed
    through. *)
Theorem add_then_remove_restores (a : App) :
  NoDup (ids (gameState a)) ->
  exact_ids (gameState a) ->
  2 <= JS.length (players (gameState a)) < 8 ->
  In (currentPlayerId (gameState a)) (ids (gameState a)) ->
  exists (newPlayer : Player) (a1 a2 : App),
    exec addPlayer a = Some a1 /\
    players (gameState a1) = players (gameState a) ++ [newPlayer] /\
    exec (removePlayer (id newPlayer)) a1 = Some a2 /\
    gameState a2 = gameState a /\
    history a2 = history a ++ [gameState a; gameState a1].
Proof.
  destruct a as [[ps c] h pd]. unfold ids. simpl. intros Hnd _ Hlen Hc.
  unfold handleAddPlayer. simpl.
  destruct (Z.leb_spec 8 (JS.length ps)); [lia |].
  unfold addUpdater. simpl.
  set (newId := match map id ps with
                | [] => 1
                | i :: rest => Math_max i rest + 1
                end).
  set (newPlayer := mkPlayer newId _ 0 0 None).
  assert (Hfresh : ~ In newId (map id ps)).
  { unfold newId. destruct (map id ps) as [| x xs]; [intros [] |].
    apply Math_max_succ_fresh. }
  exists newPlayer. do 2 eexists.
  split; [reflexivity |]. split; [reflexivity |].
  assert (Hfilter : filter (fun p => negb (id p =? newId)) (ps ++ [newPlayer])
                    = ps).
  { rewrite filter_app. simpl. rewrite Z.eqb_refl. simpl. rewrite app_nil_r.
    apply (filter_none (fun q => id q =? newId)).
    intros q Hq. apply Z.eqb_neq. intros E. apply Hfresh.
    rewrite <- E. now apply in_map. }
  split.
  - simpl. unfold handleRemovePlayer. simpl.
    assert (Hl : JS.length (ps ++ [newPlayer]) = JS.length ps + 1).
    { unfold JS.length. rewrite length_app. simpl. lia. }
    rewrite Hl.
    destruct (Z.leb_spec (JS.length ps + 1) 2); [lia |].
    unfold removeUpdater. simpl.
    destruct (Z.eqb_spec c newId) as [E | _]; [congruence |].
    rewrite Hfilter. reflexivity.
  - simpl. split; [reflexivity |].
    unfold saveToHistory. rewrite <- app_assoc. reflexivity.
Qed.

Lemma add_then_remove_restores_witness :
  NoDup (ids (gameState after_four_pots)) /\
  exact_ids (gameState after_four_pots) /\
  2 <= JS.length (players (gameState after_four_pots)) < 8 /\
  In (currentPlayerId (gameState after_four_pots))
     (ids (gameState after_four_pots)) /\
  exists a2 : App,
    exec_all [addPlayer; removePlayer 3] after_four_pots = Some a2 /\
    gameState a2 = gameState after_four_pots.
Proof.
  assert (Hnd : NoDup (ids (gameState after_four_pots))) by exact NoDup_ids_two.
  assert (Hlen : 2 <= JS.length (players (gameState after_four_pots)) < 8)
    by (unfold JS.length; simpl; lia).
  assert (Hc : In (currentPlayerId (gameState after_four_pots))
                  (ids (gameState after_four_pots))) by (simpl; auto).
  assert (Hi : exact_ids (gameState after_four_pots)).
  { intros x [<- | [<- | []]]; unfold exact_sum, safe_integer; simpl; lia. }
  split; [exact Hnd |]. split; [exact Hi |].
  split; [exact Hlen |]. split; [exact Hc |].
  destruct (add_then_remove_restores after_four_pots Hnd Hi Hlen Hc)
    as (newPlayer & a1 & a2 & E1 & Hp & E2 & Hg & _).
  exists a2. split; [| exact Hg].
  injection E1 as <-. simpl in Hp. injection Hp as Hn.
  rewrite <- Hn in E2. exact E2.
Defined.

(** * The stopwatch display *)

Lemma two_digits (k : Z) :
  0 <= k < 100 ->
  padStart2 (number_toString k) = [digit (k / 10); digit (k mod 10)].
Proof.
  intros Hk.
  assert (Hn : forall n : nat,
             (n < 100)%nat ->
             padStart2 (number_toString (Z.of_nat n))
             = [digit (Z.of_nat n / 10); digit (Z.of_nat n mod 10)]).
  { intros n Hn. do 100 (destruct n as [| n]; [reflexivity |]). lia. }
  rewrite <- (Z2Nat.id k) by lia. apply Hn. lia.
Qed.

Lemma digit_inj (a b : Z) : digit a = digit b -> 0 <= a -> 0 <= b -> a = b.
Proof.
  unfold digit. intros E Ha Hb. apply N.add_cancel_l in E.
  now apply Z2N.inj in E.
Qed.

(** X14.  Below 100 minutes the stopwatch shows two digits of minutes, a
    colon and two digits of seconds, and different times are shown
    differently. *)
Theorem formatTime_is_mm_ss :
  (forall t : Z,
      0 <= t < 6000 ->
      formatTime t
      = [digit (t / 60 / 10); digit ((t / 60) mod 10); 58%N;
         digit (t mod 60 / 10); digit ((t mod 60) mod 10)]) /\
  (forall t1 t2 : Z,
      0 <= t1 < 6000 -> 0 <= t2 < 6000 ->
      formatTime t1 = formatTime t2 -> t1 = t2).
Proof.
  assert (Hform : forall t : Z,
             0 <= t < 6000 ->
             formatTime t
             = [digit (t / 60 / 10); digit ((t / 60) mod 10); 58%N;
                digit (t mod 60 / 10); digit ((t mod 60) mod 10)]).
  { intros t Ht. unfold formatTime.
    rewrite Z.rem_mod_nonneg by lia.
    assert (0 <= t / 60 < 100)
      by (split; [apply Z.div_pos; lia | apply Z.div_lt_upper_bound; lia]).
    pose proof (Z.mod_pos_bound t 60).
    rewrite !two_digits by lia. reflexivity. }
  split; [exact Hform |].
  intros t1 t2 H1 H2 E. rewrite (Hform t1 H1), (Hform t2 H2) in E.
  injection E as E1 E2 E3 E4.
  apply digit_inj in E1, E2, E3, E4;
    try (apply Z.div_pos; lia); try (apply Z.mod_pos_bound; lia).
  - rewrite (Z_div_mod_eq_full t1 60), (Z_div_mod_eq_full t2 60).
    rewrite (Z_div_mod_eq_full (t1 / 60) 10), (Z_div_mod_eq_full (t2 / 60) 10).
    rewrite (Z_div_mod_eq_full (t1 mod 60) 10), (Z_div_mod_eq_full (t2 mod 60) 10).
    rewrite E1, E2, E3, E4. reflexivity.
  - apply Z.div_pos; [apply Z.mod_pos_bound |]; lia.
  - apply Z.div_pos; [apply Z.mod_pos_bound |]; lia.
  - apply Z.div_pos; [apply Z.div_pos |]; lia.
  - apply Z.div_pos; [apply Z.div_pos |]; lia.
Qed.

Lemma formatTime_is_mm_ss_witness :
  0 <= 754 < 6000 /\
  formatTime 754 = of_string "12:34" /\
  formatTime 0 = of_string "00:00" /\
  formatTime 5999 = of_string "99:59".
Proof.
  assert (H : 0 <= 754 < 6000) by lia.
  split; [exact H |]. split; [| split; reflexivity].
  rewrite (proj1 formatTime_is_mm_ss 754 H). reflexivity.
Defined.

(** * The foul values *)

Lemma insert_by_value_perm (x : Ball) (l : list Ball) :
  Permutation (insert_by_value x l) (x :: l).
Proof.
  induction l as [| y r IH]; simpl; [reflexivity |].
  destruct (value x <=? value y); [reflexivity |].
  rewrite IH. apply perm_swap.
Qed.

Lemma sort_by_value_perm (l : list Ball) : Permutation (sort_by_value l) l.
Proof.
  induction l as [| x r IH]; simpl; [reflexivity |].
  rewrite insert_by_value_perm. now constructor.
Qed.

Lemma insert_by_value_sorted (x : Ball) (l : list Ball) :
  StronglySorted (fun a b => value a <= value b) l ->
  StronglySorted (fun a b => value a <= value b) (insert_by_value x l).
Proof.
  induction 1 as [| y r Hr IH Hy]; simpl.
  - repeat constructor.
  - destruct (Z.leb_spec (value x) (value y)) as [Hle | Hgt].
    + constructor; [now constructor |].
      constructor; [exact Hle |].
      eapply Forall_impl; [| exact Hy]. intros b Hb. simpl in Hb. lia.
    + constructor; [exact IH |].
      eapply Permutation_Forall;
        [symmetry; apply insert_by_value_perm |].
      constructor; [lia | exact Hy].
Qed.

Lemma sort_by_value_sorted (l : list Ball) :
  StronglySorted (fun a b => value a <= value b) (sort_by_value l).
Proof.
  induction l as [| x r IH]; simpl; [constructor |].
  now apply insert_by_value_sorted.
Qed.

(** X15.  Whatever the list of balls, the list of foul values built from it
    is sorted by value, holds no value below 4, and consists of the balls
    worth 2 or more, each raised to at least 4, and one red ball worth 10.
    For the seven balls of the game the foul values are 4, 4, 4, 5, 6, 7
    and 10. *)
Theorem foul_values_are_sorted_and_at_least_four :
  (forall balls : list Ball,
      StronglySorted (fun a b => value a <= value b) (foul_balls_of balls) /\
      Forall (fun b => 4 <= value b) (foul_balls_of balls) /\
      Permutation (foul_balls_of balls)
                  (map foul_ball (filter (fun b => 2 <=? value b) balls)
                   ++ [mkBall (of_string "red") 10 red_circle])) /\
  map value FOUL_BALLS = [4; 4; 4; 5; 6; 7; 10] /\
  map color FOUL_BALLS
  = map of_string ["yellow"; "green"; "brown"; "blue"; "pink"; "black"; "red"]%string.
Proof.
  split; [| split; reflexivity].
  intros balls. unfold foul_balls_of.
  split; [apply sort_by_value_sorted |].
  split; [| apply sort_by_value_perm].
  eapply Permutation_Forall; [symmetry; apply sort_by_value_perm |].
  apply Forall_app. split.
  - apply Forall_forall. intros b Hb. apply in_map_iff in Hb as [b0 [<- _]].
    simpl. lia.
  - repeat constructor. simpl. lia.
Qed.

(** * The rendered component *)

Lemma ball_values_nonneg (k : nat) (b : Ball) :
  nth_error BALLS k = Some b -> 0 <= value b.
Proof.
  do 7 (destruct k as [| k]; [intros [= <-]; simpl; lia |]).
  destruct k; discriminate.
Qed.

Lemma foul_ball_values_nonneg (k : nat) (b : Ball) :
  nth_error FOUL_BALLS k = Some b -> 0 <= value b.
Proof.
  do 7 (destruct k as [| k]; [intros [= <-]; vm_compute; discriminate |]).
  destruct k; discriminate.
Qed.

Lemma nth_error_id_In (g : GameState) (k : nat) (p : Player) :
  nth_error (players g) k = Some p -> In (id p) (ids g).
Proof.
  intros H. apply In_ids. eauto.
Qed.

(** A control that is carried out either leaves the store alone or is one
    event of the store, for a player that exists and with a value that is
    not negative. *)
Lemma ui_step_event (c : control) (u u' : UI) :
  ui_step c u = Done u' ->
  match store_event c u with
  | Some e =>
      step e (app u) = Some (app u') /\
      event_ok from_panel e (app u) /\ nonneg_event e
  | None => app u' = app u
  end.
Proof.
  destruct c; simpl.
  - destruct (isFoulMode u); [discriminate |].
    destruct (nth_error BALLS k) as [b |] eqn:Eb; [| discriminate].
    intros [= <-]. simpl. split; [reflexivity |].
    split; [intros m [=] | exact (ball_values_nonneg k b Eb)].
  - destruct (isFoulMode u); [discriminate |]. now intros [= <-].
  - destruct (isFoulMode u || _); [discriminate |]. intros [= <-]. simpl.
    split; [reflexivity |]. split; [intros m [=] | exact I].
  - destruct (isFoulMode u); [discriminate |]. intros [= <-]. simpl.
    split; [reflexivity |]. split; [intros m [= <-]; exact I | exact I].
  - destruct (isFoulMode u || _); [discriminate |]. intros [= <-]. simpl.
    split; [reflexivity |]. split; [intros m [= <-]; exact I | exact I].
  - destruct (isFoulMode u); [| discriminate].
    destruct (nth_error FOUL_BALLS k) as [b |] eqn:Eb; [| discriminate].
    destruct (handleFoul (value b) (app u)) as [a' |] eqn:Ef; [| discriminate].
    intros [= <-]. simpl. split; [exact Ef |].
    split; [intros m [= <-]; exact I | exact (foul_ball_values_nonneg k b Eb)].
  - destruct (isFoulMode u); [| discriminate]. now intros [= <-].
  - destruct (nth_error (players (gameState (app u))) k) as [p |] eqn:Ep;
      [| discriminate].
    intros [= <-]. simpl. split; [reflexivity |].
    split; [| exact I]. intros m [= <-]. simpl.
    exact (nth_error_id_In _ k p Ep).
  - destruct (nth_error (players (gameState (app u))) k) as [p |] eqn:Ep;
      [| discriminate].
    destruct (handleRemovePlayer (id p) (app u)) as [a' |] eqn:Er;
      [| discriminate].
    intros [= <-]. simpl. split; [exact Er |].
    split; [| exact I]. intros m [= <-]. simpl.
    exact (nth_error_id_In _ k p Ep).
  - destruct (nth_error (players (gameState (app u))) k) as [p |] eqn:Ep;
      [| discriminate].
    intros [= <-]. simpl. split; [reflexivity |].
    split; [| exact I]. intros m [= <-]. simpl.
    exact (nth_error_id_In _ k p Ep).
  - destruct (pending (app u)) as [| t r] eqn:Ep; [discriminate |].
    intros [= <-]. simpl. split; [reflexivity |].
    split; [| exact I]. intros m Hm. simpl in Hm. rewrite Ep in Hm.
    injection Hm as <-. exact I.
  - now intros [= <-].
  - now intros [= <-].
  - destruct (isRunning (stopwatch u)); [| discriminate]. now intros [= <-].
Qed.

Lemma ui_step_live (c : control) (u u' : UI) :
  app_all live (app u) -> ui_step c u = Done u' -> app_all live (app u').
Proof.
  intros Ha E. apply ui_step_event in E.
  destruct (store_event c u) as [e |].
  - destruct E as (Es & Hok & _).
    exact (step_preserves live from_panel transition_live e _ _ Ha Hok Es).
  - now rewrite E.
Qed.

Lemma ui_step_never_threw (c : control) (u : UI) :
  live (gameState (app u)) -> ui_step c u <> Threw.
Proof.
  intros Hl. destruct c; simpl;
    repeat match goal with
           | |- context [if ?b then _ else _] => destruct b
           | |- context [match nth_error ?l ?k with _ => _ end] =>
               destruct (nth_error l k) eqn:?
           | |- context [match pending ?a with _ => _ end] =>
               destruct (pending a)
           end;
    try discriminate.
  - destruct (step_defined (FoulClick (value b)) (app u) Hl) as [a' E].
    + intros m [= <-]. exact I.
    + simpl in E. rewrite E. discriminate.
  - destruct (step_defined (RemoveClick (id p)) (app u) Hl) as [a' E].
    + intros m [= <-]. simpl. eapply nth_error_id_In; eauto.
    + simpl in E. rewrite E. discriminate.
Qed.

Lemma ui_run_live (cs : list control) (u u' : UI) :
  app_all live (app u) -> ui_run cs u = Done u' -> app_all live (app u').
Proof.
  revert u. induction cs as [| c rest IH]; simpl; intros u Ha E.
  - now injection E as <-.
  - destruct (ui_step c u) as [u1 | |] eqn:E1; try discriminate.
    apply (IH u1); [| exact E]. exact (ui_step_live c u u1 Ha E1).
Qed.

(** The store events behind a run of the component. *)
Lemma ui_run_trace (cs : list control) (u u' : UI) :
  ui_run cs u = Done u' ->
  exists es,
    run es (app u) = Some (app u') /\
    Forall nonneg_event es /\
    trace_ok from_panel es (app u).
Proof.
  revert u. induction cs as [| c rest IH]; simpl; intros u E.
  - injection E as <-. exists []. simpl. auto.
  - destruct (ui_step c u) as [u1 | |] eqn:E1; try discriminate.
    destruct (IH u1 E) as (es & Hrun & Hnn & Hok).
    apply ui_step_event in E1.
    destruct (store_event c u) as [e |].
    + destruct E1 as (Es & Heok & Hen). exists (e :: es). simpl.
      rewrite Es. split; [exact Hrun |].
      split; [now constructor |].
      split; [exact Heok |]. intros a' Ea'. now injection Ea' as <-.
    + rewrite E1 in *. exists es. auto.
Qed.

Lemma run_sound (es : list event) (a : App) :
  Forall nonneg_event es -> run es initialApp = Some a -> app_all sound a.
Proof.
  intros He E.
  apply (run_preserves sound nonneg_values transition_sound es initialApp a);
    [exact sound_initial | | exact E].
  apply trace_ok_nonneg; [exact He | constructor].
Qed.

(** X16.  Whatever is clicked, edited or comes due, in whatever order, the
    rendered component never has a handler throw: every control that is
    rendered and enabled can be used. *)
Theorem interface_never_throws (cs : list control) :
  ui_run cs initialUI <> Threw.
Proof.
  assert (H : forall u, app_all live (app u) -> ui_run cs u <> Threw).
  { induction cs as [| c rest IH]; simpl; intros u Ha; [discriminate |].
    destruct (ui_step c u) as [u1 | |] eqn:E1; try discriminate.
    - apply IH. exact (ui_step_live c u u1 Ha E1).
    - exfalso. exact (ui_step_never_threw c u (proj1 Ha) E1). }
  apply H. exact live_initial.
Qed.

(** X17.  In every state the rendered component reaches: every player's
    break is between 0 and the player's score, a ranked player has at
    least 100 points, and exactly one player has the current id, so exactly
    one panel is active. *)
Theorem interface_states_are_sound (cs : list control) (u : UI) :
  ui_run cs initialUI = Done u ->
  all_players sound_player (gameState (app u)) /\
  List.length (filter (is_current (gameState (app u)))
                      (players (gameState (app u)))) = 1%nat.
Proof.
  intros E. split.
  - destruct (ui_run_trace cs initialUI u E) as (es & Hrun & Hnn & _).
    exact (proj2 (proj1 (run_sound es (app u) Hnn Hrun))).
  - destruct (ui_run_live cs initialUI u live_initial E) as ([Hwf Hres] & _).
    exact (one_player_per_id _ _ (wf_ids _ Hwf) Hres).
Qed.

Lemma interface_states_are_sound_witness :
  exists u : UI,
    ui_run [BallButton 6; PotTimerDue; FoulButton; FoulBallButton 3;
            AddPlayerButton; RemoveButton 0] initialUI = Done u /\
    all_players sound_player (gameState (app u)) /\
    map score (players (gameState (app u))) = [5; 0] /\
    currentPlayerId (gameState (app u)) = 2.
Proof.
  eexists. split; [vm_compute; reflexivity |].
  split; [| split; reflexivity].
  apply (interface_states_are_sound
           [BallButton 6; PotTimerDue; FoulButton; FoulBallButton 3;
            AddPlayerButton; RemoveButton 0]).
  vm_compute. reflexivity.
Defined.

Lemma ui_step_quiet (c : control) (u u' : UI) :
  quiet u -> ui_step c u = Done u' -> quiet u'.
Proof.
  intros [Ht Hal]. unfold quiet.
  destruct c; simpl;
    repeat match goal with
           | |- context [if ?b then _ else _] => destruct b eqn:?
           | |- context [match nth_error ?l ?k with _ => _ end] =>
               destruct (nth_error l k) eqn:?
           | |- context [match pending ?a with _ => _ end] =>
               destruct (pending a)
           | |- context [match handleFoul ?v ?a with _ => _ end] =>
               destruct (handleFoul v a)
           | |- context [match handleRemovePlayer ?v ?a with _ => _ end] =>
               destruct (handleRemovePlayer v a)
           end;
    try discriminate; intros [= <-]; simpl; try (split; [lia | assumption]).
  - split; [lia |]. apply Forall_app. split; [exact Hal |].
    unfold handleAddPlayer_alert.
    apply orb_false_iff in Heqb as [_ ->]. constructor.
  - split; [lia |]. apply Forall_app. split; [exact Hal |].
    unfold handleRemovePlayer_alert.
    destruct (_ <=? 2); repeat constructor.
Qed.

Lemma ui_run_quiet (cs : list control) (u u' : UI) :
  quiet u -> ui_run cs u = Done u' -> quiet u'.
Proof.
  revert u. induction cs as [| c rest IH]; simpl; intros u Hq E.
  - now injection E as <-.
  - destruct (ui_step c u) as [u1 | |] eqn:E1; try discriminate.
    apply (IH u1); [| exact E]. exact (ui_step_quiet c u u1 Hq E1).
Qed.

Lemma quiet_initial : quiet initialUI.
Proof. split; [simpl; lia | constructor]. Qed.

(** X18.  The alert of [handleAddPlayer] is never shown: the Add Player
    button is disabled exactly when the handler would refuse.  The only
    message the rendered component ever alerts is the one of the remove
    button, and that one is shown exactly when a player's remove button is
    clicked while there are two players or fewer. *)
Theorem only_the_remove_button_alerts :
  (forall (cs : list control) (u : UI),
      ui_run cs initialUI = Done u ->
      Forall (fun m => m = min_players_message) (alerts u)) /\
  (forall (cs : list control) (u u' : UI) (k : nat),
      ui_run cs initialUI = Done u ->
      ui_step (RemoveButton k) u = Done u' ->
      alerts u'
      = alerts u ++ (if JS.length (players (gameState (app u))) <=? 2
                     then [min_players_message] else [])).
Proof.
  split.
  - intros cs u E. exact (proj2 (ui_run_quiet cs initialUI u quiet_initial E)).
  - intros cs u u' k _. simpl.
    destruct (nth_error _ k); [| discriminate].
    destruct (handleRemovePlayer _ _); [| discriminate].
    now intros [= <-].
Qed.

(** Two players: the remove button alerts and removes nobody; with a third
    player it removes without an alert. *)
Lemma only_the_remove_button_alerts_witness :
  exists u : UI,
    ui_run [RemoveButton 0; AddPlayerButton; RemoveButton 2] initialUI = Done u /\
    Forall (fun m => m = min_players_message) (alerts u) /\
    alerts u = [min_players_message] /\
    List.length (players (gameState (app u))) = 2%nat.
Proof.
  eexists. split; [vm_compute; reflexivity |].
  split; [| split; reflexivity].
  apply (proj1 only_the_remove_button_alerts
           [RemoveButton 0; AddPlayerButton; RemoveButton 2]).
  vm_compute. reflexivity.
Defined.

(** X19.  In every state the rendered component reaches, New Game stops the
    stopwatch at 0, empties the undo log and leaves the pending pot timers
    in place. *)
Theorem new_game_resets_the_stopwatch (cs : list control) (u u' : UI) :
  ui_run cs initialUI = Done u ->
  ui_step NewGameButton u = Done u' ->
  stopwatch u' = mkStopwatch 0 false /\
  history (app u') = [] /\
  pending (app u') = pending (app u).
Proof.
  intros E. destruct (ui_run_quiet cs initialUI u quiet_initial E) as [Ht _].
  simpl. destruct (isFoulMode u); [discriminate |]. intros [= <-]. simpl.
  unfold resetTriggerEffect.
  destruct (Z.ltb_spec 0 (resetStopwatchTrigger u + 1)); [auto | lia].
Qed.

Lemma new_game_resets_the_stopwatch_witness :
  ui_run [StartPauseButton; IntervalDue; IntervalDue; BallButton 0] initialUI
  = Done two_seconds_in /\
  stopwatch two_seconds_in = mkStopwatch 2 true /\
  exists u' : UI,
    ui_step NewGameButton two_seconds_in = Done u' /\
    (stopwatch u' = mkStopwatch 0 false /\
     history (app u') = [] /\
     pending (app u') = pending (app two_seconds_in)).
Proof.
  assert (E : ui_run [StartPauseButton; IntervalDue; IntervalDue; BallButton 0]
                     initialUI = Done two_seconds_in)
    by (vm_compute; reflexivity).
  split; [exact E |]. split; [reflexivity |].
  eexists. split; [vm_compute; reflexivity |].
  apply (new_game_resets_the_stopwatch
           [StartPauseButton; IntervalDue; IntervalDue; BallButton 0]
           two_seconds_in _ E).
  vm_compute. reflexivity.
Defined.

(** * Pot timers that run late *)

(** X20.  A ball clicked just before New Game: when its timer runs after
    the new game has started, it saves the state of the old game, so the
    next undo brings the old game back, scores included, with an empty
    undo log. *)
Theorem pot_timer_outlives_new_game (a : App) (pts : Z) :
  pending a = [] ->
  existsb (is_current (gameState a)) (players (gameState a)) = true ->
  run [PotClick pts; NewGameClick; PotTimerFires; UndoClick] a
  = Some (mkApp (gameState a) [] []).
Proof.
  destruct a as [g h pd]. simpl. intros -> Hex.
  unfold handlePot. simpl. rewrite Hex. simpl.
  unfold timerFires. simpl. unfold potTimeout. simpl.
  f_equal.
Qed.

Lemma pot_timer_outlives_new_game_witness :
  pending after_four_pots = [] /\
  existsb (is_current (gameState after_four_pots))
          (players (gameState after_four_pots)) = true /\
  exists a1 : App,
    run [PotClick 7; NewGameClick; PotTimerFires] after_four_pots = Some a1 /\
    map score (players (gameState a1)) = [7; 0] /\
    run [PotClick 7; NewGameClick; PotTimerFires; UndoClick] after_four_pots
    = Some (mkApp (gameState after_four_pots) [] []) /\
    map score (players (gameState after_four_pots)) = [16; 0].
Proof.
  split; [reflexivity |]. split; [reflexivity |].
  eexists. split; [vm_compute; reflexivity |]. split; [reflexivity |].
  split; [| reflexivity].
  apply (pot_timer_outlives_new_game after_four_pots 7); reflexivity.
Defined.

(** X21.  The points of a pot go to the player who is current when the
    timer runs, not to the one who was current when the ball was clicked.
    With pairwise distinct ids, the current player [cur] at index [i] and
    another player [q] at index [k], to whose score and break the points
    are added exactly: a ball is clicked, the panel of [q] is clicked, then
    the timer runs.  Afterwards [q] is the current player and
    has the points in score and break, [cur] has the old score and a break
    of 0, and the undo log has received the state before the click twice. *)
Theorem pot_goes_to_player_current_at_timer
  (a : App) (pts : Z) (i k : nat) (cur q : Player) :
  pending a = [] ->
  NoDup (ids (gameState a)) ->
  nth_error (players (gameState a)) i = Some cur ->
  id cur = currentPlayerId (gameState a) ->
  nth_error (players (gameState a)) k = Some q ->
  k <> i ->
  exact_sum (score q) pts ->
  exact_sum (break q) pts ->
  exists (g' : GameState) (q' : Player),
    run [PotClick pts; PanelClick (id q); PotTimerFires] a
    = Some (mkApp g' (history a ++ [gameState a; gameState a]) []) /\
    currentPlayerId g' = id q /\
    players g'
    = update_at k (fun _ => q') (update_at i (with_break 0)
                                           (players (gameState a))) /\
    id q' = id q /\ name q' = name q /\
    score q' = score q + pts /\ break q' = break q + pts.
Proof.
  destruct a as [[ps c] h pd]. unfold ids. simpl.
  intros -> Hnd Hi Hc Hk Hki _ _. subst c.
  set (g := mkGameState ps (id cur)).
  assert (Hex : existsb (is_current g) ps = true).
  { apply (existsb_is_current g cur); [| reflexivity].
    simpl. eapply nth_error_In; eauto. }
  pose proof (NoDup_ids_only_at ps i cur Hnd Hi) as Hoi.
  assert (Hne : id q <> id cur).
  { intros E. apply Hki.
    apply (Hoi k q Hk). now apply Z.eqb_eq. }
  set (ps1 := update_at i (with_break 0) ps).
  assert (Hsel : selectUpdater (id q) g = mkGameState ps1 (id q)).
  { unfold selectUpdater. f_equal.
    exact (map_only_at (is_current g) (with_break 0) ps i Hoi). }
  assert (Hk1 : nth_error ps1 k = Some q).
  { unfold ps1. rewrite nth_error_update_at.
    destruct (Nat.eqb_spec k i); [contradiction | exact Hk]. }
  assert (Hnd1 : NoDup (ids (mkGameState ps1 (id q)))).
  { unfold ids, ps1. simpl.
    now rewrite (map_update_at id (with_break 0) ps i cur Hi eq_refl). }
  exists (mkGameState
            (update_at k (fun _ => after_pot pts (mkGameState ps1 (id q)) q) ps1)
            (id q)),
         (after_pot pts (mkGameState ps1 (id q)) q).
  split.
  - simpl. unfold handlePot. simpl. fold g. rewrite Hex. simpl.
    unfold handlePlayerSelect. simpl.
    destruct (Z.eqb_spec (id q) (id cur)); [contradiction |].
    fold g. rewrite Hsel.
    unfold timerFires. simpl. unfold potTimeout. simpl.
    rewrite (potUpdater_at (mkGameState ps1 (id q)) pts k q Hnd1 Hk1 eq_refl).
    unfold saveToHistory. rewrite <- app_assoc. reflexivity.
  - simpl. repeat split.
Qed.

(** Player 1 has a break of 16; a black is clicked, and player 2's panel
    before the timer runs: the 7 points are player 2's. *)
Lemma pot_goes_to_player_current_at_timer_witness :
  pending after_four_pots = [] /\
  NoDup (ids (gameState after_four_pots)) /\
  exact_sum 0 7 /\
  exists a' : App,
    run [PotClick 7; PanelClick 2; PotTimerFires] after_four_pots = Some a' /\
    map score (players (gameState a')) = [16; 7] /\
    map break (players (gameState a')) = [0; 7] /\
    currentPlayerId (gameState a') = 2.
Proof.
  assert (Hnd : NoDup (ids (gameState after_four_pots))) by exact NoDup_ids_two.
  assert (Hx : exact_sum 0 7) by (unfold exact_sum, safe_integer; lia).
  split; [reflexivity |]. split; [exact Hnd |]. split; [exact Hx |].
  destruct (pot_goes_to_player_current_at_timer after_four_pots 7 0%nat 1%nat
              (mkPlayer 1 (of_string "Player 1") 16 16 None) initialPlayer2
              eq_refl Hnd eq_refl eq_refl eq_refl)
    as (g' & q' & E & Hc & Hp & _ & _ & Hs & Hb);
    [discriminate | exact Hx | exact Hx |].
  eexists. split; [exact E |]. simpl.
  rewrite Hp, Hc. simpl. rewrite Hs, Hb. repeat split.
Defined.

(** * Points stay where they are *)

Lemma same_id_in_map (F : Player -> Player) (ps : list Player) (p q : Player) :
  NoDup (map id ps) ->
  (forall p0, id (F p0) = id p0) ->
  In p ps -> In q (map F ps) -> id q = id p -> q = F p.
Proof.
  intros Hnd HF Hp Hq E.
  apply in_map_iff in Hq as [p0 [<- Hp0]].
  f_equal. apply (NoDup_ids_same ps p0 p Hnd Hp0 Hp).
  rewrite <- E. symmetry. apply HF.
Qed.

Lemma transition_scores (m : mutation) (g g' : GameState) (v : Z) :
  wf_state g -> transition m g g' -> m <> MNewGame ->
  0 <= v ->
  (forall x, m = MPot x \/ m = MFoul x -> x = v) ->
  forall p q,
    In p (players g) -> In q (players g') -> id q = id p ->
    score p <= score q <= score p + v.
Proof.
  intros Hwf T Hm Hv Hval.
  pose proof (wf_ids g Hwf) as Hnd. unfold ids in Hnd.
  destruct T as
    [pts g | w g g' Ef | i g Hne | g | g Hlt | i g g' Hgt Er | i s g];
    intros p q Hp Hq E.
  - assert (pts = v) by (apply Hval; now left). subst pts.
    destruct (potUpdater_shape_wf v g (wf_ids g Hwf)) as (F & EF & HF).
    rewrite EF in Hq. simpl in Hq.
    apply in_map_iff in Hq as [p0 [<- Hp0]].
    destruct (HF p0 Hp0) as [E0 | [_ E0]]; rewrite E0 in *; simpl in *.
    + rewrite (NoDup_ids_same _ p0 p Hnd Hp0 Hp E). lia.
    + rewrite (NoDup_ids_same _ p0 p Hnd Hp0 Hp E). lia.
  - assert (w = v) by (apply Hval; now right). subst w.
    apply foulUpdater_shape in Ef as (F & -> & HF). simpl in Hq.
    apply in_map_iff in Hq as [p0 [<- Hp0]].
    destruct (HF p0) as [E0 | [[_ E0] | E0]]; rewrite E0 in *; simpl in *;
      rewrite (NoDup_ids_same _ p0 p Hnd Hp0 Hp E); lia.
  - simpl in Hq.
    rewrite (same_id_in_map
               (fun p0 => if is_current g p0 then with_break 0 p0 else p0)
               _ p q Hnd
               ltac:(intros p0; cbv beta; destruct (is_current g p0); reflexivity)
               Hp Hq E).
    destruct (is_current g p); simpl; lia.
  - contradiction.
  - simpl in Hq. apply in_app_iff in Hq as [Hq | [<- | []]].
    + rewrite (NoDup_ids_same _ q p Hnd Hq Hp E). lia.
    + exfalso. simpl in E.
      assert (Hin : In (id p) (map id (players g))) by now apply in_map.
      rewrite <- E in Hin.
      destruct (map id (players g)) as [| x xs]; [destruct Hin |].
      now apply Math_max_succ_fresh in Hin.
  - apply removeUpdater_players in Er as [Hpl _].
    rewrite Hpl in Hq. apply filter_In in Hq as [Hq _].
    rewrite (NoDup_ids_same _ q p Hnd Hq Hp E). lia.
  - simpl in Hq.
    rewrite (same_id_in_map
               (fun p0 => if id p0 =? i then with_name s p0 else p0)
               _ p q Hnd
               ltac:(intros p0; cbv beta; destruct (id p0 =? i); reflexivity)
               Hp Hq E).
    destruct (id p =? i); simpl; lia.
Qed.

(** X22.  Points are never taken away.  From a well-formed state with no
    timer callback pending and ids small enough for one more to be exact,
    an operation other than newGame and undo that awards no negative value
    leaves every player that stays, and to whose score that value is added
    exactly, with at least the score it had, and at most that score plus
    the value awarded. *)
Theorem scores_never_decrease
  (op : operation) (a a' : App) (p q : Player) :
  pending a = [] ->
  wf_state (gameState a) ->
  exact_ids (gameState a) ->
  op <> newGame -> op <> undo ->
  0 <= points_of op ->
  exec op a = Some a' ->
  In p (players (gameState a)) -> In q (players (gameState a')) ->
  id q = id p ->
  exact_sum (score p) (points_of op) ->
  score p <= score q <= score p + points_of op.
Proof.
  intros Hpd Hwf _ Hng Hun Hv E Hp Hq Eid _.
  destruct (exec_transition op a a' Hpd E Hun) as [Eg | (m & Hm & T)].
  - rewrite Eg in Hq.
    rewrite (NoDup_ids_same _ q p (wf_ids _ Hwf) Hq Hp Eid). lia.
  - apply (transition_scores m _ _ (points_of op) Hwf T); auto.
    + intros ->. destruct op; try discriminate. contradiction.
    + intros x [-> | ->]; destruct op; simpl in Hm; try discriminate;
        now injection Hm as ->.
Qed.

Lemma wf_after_four_pots : wf_state (gameState after_four_pots).
Proof.
  constructor.
  - exact NoDup_ids_two.
  - unfold JS.length. simpl. lia.
  - intros i j p q r Hi Hj Hp Hq.
    apply nth_error_In in Hi. simpl in Hi.
    destruct Hi as [<- | [<- | []]]; discriminate.
  - intros p r Hin Hr. simpl in Hin.
    destruct Hin as [<- | [<- | []]]; discriminate.
Defined.

(** A foul by player 1 on 16 points: player 1 keeps them, player 2 gets
    the 4. *)
Lemma scores_never_decrease_witness :
  pending after_four_pots = [] /\
  wf_state (gameState after_four_pots) /\
  exact_ids (gameState after_four_pots) /\
  exact_sum (score initialPlayer2) 4 /\
  exec (applyFoul 4) after_four_pots = Some after_foul /\
  In initialPlayer2 (players (gameState after_four_pots)) /\
  In (mkPlayer 2 (of_string "Player 2") 4 0 None)
     (players (gameState after_foul)) /\
  score initialPlayer2
  <= score (mkPlayer 2 (of_string "Player 2") 4 0 None)
  <= score initialPlayer2 + 4.
Proof.
  assert (E : exec (applyFoul 4) after_four_pots = Some after_foul)
    by reflexivity.
  assert (Hp : In initialPlayer2 (players (gameState after_four_pots)))
    by (simpl; auto).
  assert (Hq : In (mkPlayer 2 (of_string "Player 2") 4 0 None)
                  (players (gameState after_foul)))
    by (simpl; auto).
  assert (Hi : exact_ids (gameState after_four_pots)).
  { intros x [<- | [<- | []]]; unfold exact_sum, safe_integer; simpl; lia. }
  assert (Hx : exact_sum (score initialPlayer2) 4)
    by (unfold exact_sum, safe_integer; simpl; lia).
  split; [reflexivity |]. split; [exact wf_after_four_pots |].
  split; [exact Hi |]. split; [exact Hx |]. split; [exact E |].
  split; [exact Hp |]. split; [exact Hq |].
  apply (scores_never_decrease (applyFoul 4) after_four_pots after_foul
           initialPlayer2 (mkPlayer 2 (of_string "Player 2") 4 0 None)
           eq_refl wf_after_four_pots Hi);
    [discriminate | discriminate | simpl; lia | exact E | exact Hp | exact Hq
    | reflexivity | exact Hx].
Defined.

(** ** No pot is dropped *)

(** X23.  In every state the rendered component reaches, a click on a ball
    leaves the game state alone and schedules a timer that holds the value
    of the ball and the current game state; and when the oldest timer
    runs, the sum of all scores grows by exactly its value: a pot is never
    dropped. *)
Theorem every_pot_is_credited (cs : list control) (u : UI) :
  ui_run cs initialUI = Done u ->
  (forall (k : nat) (ball : Ball) (u' : UI),
      nth_error BALLS k = Some ball ->
      ui_step (BallButton k) u = Done u' ->
      gameState (app u') = gameState (app u) /\
      history (app u') = history (app u) /\
      pending (app u')
      = pending (app u) ++ [mkPotTimer (value ball) (gameState (app u))]) /\
  (forall (t : PotTimer) (rest : list PotTimer) (u' : UI),
      pending (app u) = t :: rest ->
      ui_step PotTimerDue u = Done u' ->
      total_score (gameState (app u'))
      = total_score (gameState (app u)) + points t /\
      history (app u') = history (app u) ++ [saved t] /\
      pending (app u') = rest).
Proof.
  intros E.
  destruct (ui_run_live cs initialUI u live_initial E) as ([Hwf Hres] & _).
  apply In_ids in Hres as (i & cur & Hi & Hc).
  split.
  - intros k ball u' Hk. simpl.
    destruct (isFoulMode u); [discriminate |]. rewrite Hk.
    intros [= <-]. simpl. unfold handlePot.
    rewrite (existsb_is_current _ cur (nth_error_In _ _ Hi) Hc).
    simpl. auto.
  - intros t rest u' Hp. simpl. rewrite Hp. intros [= <-]. simpl.
    unfold timerFires. rewrite Hp. simpl.
    rewrite (potUpdater_at _ (points t) i cur (wf_ids _ Hwf) Hi Hc).
    unfold total_score. simpl.
    rewrite (sumZ_score_update_at _ _ i cur Hi). simpl.
    split; [lia | auto].
Qed.

Lemma every_pot_is_credited_witness :
  ui_run [StartPauseButton; IntervalDue; IntervalDue; BallButton 0] initialUI
  = Done two_seconds_in /\
  exists u' : UI,
    ui_step PotTimerDue two_seconds_in = Done u' /\
    total_score (gameState (app two_seconds_in)) = 0 /\
    total_score (gameState (app u')) = 1 /\
    pending (app u') = [].
Proof.
  assert (E : ui_run [StartPauseButton; IntervalDue; IntervalDue; BallButton 0]
                     initialUI = Done two_seconds_in)
    by (vm_compute; reflexivity).
  split; [exact E |].
  eexists. split; [vm_compute; reflexivity |].
  split; [reflexivity |].
  destruct (proj2 (every_pot_is_credited _ _ E) _ _ _ eq_refl eq_refl)
    as (Ht & _ & Hp).
  split; [exact Ht | exact Hp].
Defined.
